(** * CPU scheduling simulator (main.go): FCFS, SJF, Priority and Round-Robin

    A shallow embedding of [main.go]: the four scheduler functions with the
    properties of their timelines, result rows and averages, and around them
    the loader of the processes, the output helpers and [main].

    Conventions of the embedding:
    - an [int64] is a [Z]; every arithmetic operation of the source is
      written with its two's-complement wrap-around ([Int64.add],
      [Int64.sub]);
    - a [float64] is a primitive binary64 float; [float64 z] is Go's
      conversion [float64(z)] (round to nearest even);
    - the slice a scheduler receives shares its backing array with the
      caller: schedulers are computations over that array ([Go A]), and
      return what the caller's slice holds afterwards next to their output;
    - a run-time panic of Go is the result [Panic e];
    - a row of the schedule table is kept as the seven [int64] values that
      the source prints with [fmt.Sprint], a [nil] row as [None];
    - a Go [string] is a [string], a sequence of bytes; what the program
      writes is kept in the two streams of a [World], and a computation that
      writes ([IO A]) returns, panics or exits the process;
    - of the libraries, [fmt.Sprint] of an integer and [strconv.ParseInt] in
      base 10 on 64 bits are written out as the Go standard library defines
      them, [strings.Repeat] with its panic on a negative count; [sort.Slice],
      the [tablewriter] package and the verb [%.2f] are known by a signature
      ([SliceSorter], [Renderer]); the CSV reader and the file system are
      given by what they return. *)

From Stdlib Require Import ZArith Lia List Permutation.
From Stdlib Require Floats.PrimFloat Floats.SpecFloat Floats.FloatOps.
From Stdlib Require Import Ascii.
From stdpp Require Import base option list gmap strings.

Local Open Scope Z_scope.

(** ** 64-bit signed integers *)

Module Int64.

Definition min_int : Z := - 2 ^ 63.
Definition max_int : Z := 2 ^ 63 - 1.

(** The value of an integer once truncated to 64 bits, read as signed. *)
Definition wrap (z : Z) : Z := (z + 2 ^ 63) mod 2 ^ 64 - 2 ^ 63.

Definition add (a b : Z) : Z := wrap (a + b).
Definition sub (a b : Z) : Z := wrap (a - b).

(** [z] is a value of type [int64]. *)
Definition in_range (z : Z) : Prop := min_int <= z <= max_int.

End Int64.

(** ** 64-bit floats *)

Abbreviation float := PrimFloat.float.

(** Go's conversion [float64(z)] of an integer. *)
Definition float64 (z : Z) : float :=
  FloatOps.SF2Prim (SpecFloat.binary_normalize FloatOps.prec FloatOps.emax z 0 false).

Definition fadd : float -> float -> float := PrimFloat.add.
Definition fdiv : float -> float -> float := PrimFloat.div.
Definition fzero : float := PrimFloat.zero.

(** ** Data model *)

Record Process : Type := mkProcess {
  ProcessID : Z;
  ArrivalTime : Z;
  BurstDuration : Z;
  Priority : Z
}.

Record TimeSlice : Type := mkTimeSlice {
  PID : Z;
  Start : Z;
  Stop : Z
}.

(** One row of the schedule table: the columns ID, Priority, Burst, Arrival,
    Wait, Turnaround and Exit, before [fmt.Sprint] turns them into text. *)
Record Row : Type := mkRow {
  rowID : Z;
  rowPriority : Z;
  rowBurst : Z;
  rowArrival : Z;
  rowWait : Z;
  rowTurnaround : Z;
  rowExit : Z
}.

(** What a scheduler hands to [outputGantt] and [outputSchedule]. *)
Record Output : Type := mkOutput {
  outGantt : list TimeSlice;
  outSchedule : list (option Row);
  aveWait : float;
  aveTurnaround : float;
  aveThroughput : float
}.

(** [p] holds [int64] values, as every [Process] built by [loadProcesses]. *)
Definition wf_process (p : Process) : Prop :=
  Int64.in_range (ProcessID p) /\ Int64.in_range (ArrivalTime p) /\
  Int64.in_range (BurstDuration p) /\ Int64.in_range (Priority p).

(** ** Computations over the caller's backing array *)

Inductive RuntimeError : Type :=
  | IndexOutOfRange (index : Z) (length : nat)
  | SliceBoundsOutOfRange (low high : nat).

(** [OutOfFuel] belongs to the model only: the bound on the number of loop
    iterations given to a loop without a structural bound was too small. *)
Inductive result (A : Type) : Type :=
  | Ok (a : A)
  | Panic (e : RuntimeError)
  | OutOfFuel.
Arguments Ok {A} a.
Arguments Panic {A} e.
Arguments OutOfFuel {A}.

(** A computation that reads and writes the array behind [processes]. *)
Definition Go (A : Type) : Type := list Process -> result (A * list Process).

Definition ret {A} (a : A) : Go A := fun mem => Ok (a, mem).

Definition bind {A B} (m : Go A) (k : A -> Go B) : Go B :=
  fun mem =>
    match m mem with
    | Ok (a, mem') => k a mem'
    | Panic e => Panic e
    | OutOfFuel => OutOfFuel
    end.

Notation "'let*' x '<-' m 'in' k" := (bind m (fun x => k))
  (at level 10, x pattern, m at level 100, k at level 200, only parsing).

Definition panic {A} (e : RuntimeError) : Go A := fun _ => Panic e.
Definition out_of_fuel {A} : Go A := fun _ => OutOfFuel.

(** [len(processes)] for a slice that spans the whole array. *)
Definition len : Go nat := fun mem => Ok (length mem, mem).

(** [processes[i]], with Go's bounds check. *)
Definition load (i : nat) : Go Process :=
  fun mem =>
    match mem !! i with
    | Some p => Ok (p, mem)
    | None => Panic (IndexOutOfRange (Z.of_nat i) (length mem))
    end.

(** [remaining := make([]Process, len(processes)); copy(remaining, processes)]:
    the contents of the array, in a slice of its own. *)
Definition copy_all : Go (list Process) := fun mem => Ok (mem, mem).

(** [for i := range processes { s = body i s }] over the indices
    [i, i+1, ..., i+count-1]. *)
Fixpoint for_range {S : Type} (body : nat -> S -> Go S) (i count : nat) (s : S) : Go S :=
  match count with
  | O => ret s
  | Datatypes.S count' => let* s' <- body i s in for_range body (Datatypes.S i) count' s'
  end.

(** [schedule[i] = row] on a slice of rows, with Go's bounds check; the index
    is an [int64]. *)
Definition store_row (schedule : list (option Row)) (i : Z) (row : Row)
  : Go (list (option Row)) :=
  if (0 <=? i) && (i <? Z.of_nat (length schedule))
  then ret (<[Z.to_nat i := Some row]> schedule)
  else panic (IndexOutOfRange i (length schedule)).

(** ** First-come, first-serve *)

Module FCFS.

(** The local variables of [FCFSSchedule]. *)
Record State : Type := mkState {
  serviceTime : Z;
  totalWait : float;
  totalTurnaround : float;
  lastCompletion : float;
  waitingTime : Z;
  schedule : list (option Row);
  gantt : list TimeSlice
}.

(** Their values before the loop, for [n = len(processes)]. *)
Definition init (n : nat) : State :=
  mkState 0 fzero fzero fzero 0 (replicate n None) [].

(** The body of the loop, for the process [p] read at [processes[i]]. The
    index [i] of [schedule[i] = ...] is below [len(processes)], the length
    [schedule] was made with. *)
Definition step (i : nat) (p : Process) (s : State) : State :=
  let waitingTime :=
    if 0 <? ArrivalTime p then Int64.sub (serviceTime s) (ArrivalTime p)
    else waitingTime s in
  let totalWait := fadd (totalWait s) (float64 waitingTime) in
  let start := Int64.add waitingTime (ArrivalTime p) in
  let turnaround := Int64.add (BurstDuration p) waitingTime in
  let totalTurnaround := fadd (totalTurnaround s) (float64 turnaround) in
  let completion := Int64.add (Int64.add (BurstDuration p) (ArrivalTime p)) waitingTime in
  let lastCompletion := float64 completion in
  let schedule :=
    <[i := Some (mkRow (ProcessID p) (Priority p) (BurstDuration p) (ArrivalTime p)
                       waitingTime turnaround completion)]> (schedule s) in
  let serviceTime := Int64.add (serviceTime s) (BurstDuration p) in
  let gantt := gantt s ++ [mkTimeSlice (ProcessID p) start serviceTime] in
  mkState serviceTime totalWait totalTurnaround lastCompletion waitingTime schedule gantt.

Definition body (i : nat) (s : State) : Go State :=
  let* p <- load i in ret (step i p s).

(** The averages, and what goes to the output functions. *)
Definition finish (n : nat) (s : State) : Output :=
  let count := float64 (Z.of_nat n) in
  mkOutput (gantt s) (schedule s)
    (fdiv (totalWait s) count)
    (fdiv (totalTurnaround s) count)
    (fdiv count (lastCompletion s)).

End FCFS.

Definition FCFSSchedule : Go Output :=
  let* n <- len in
  let* s <- for_range FCFS.body 0 n (FCFS.init n) in
  ret (FCFS.finish n s).

(** ** [sort.Slice]

    The library function is known through its contract: the sorted slice
    holds the elements it held before. [less] compares two elements, as the
    closures of the source do through their indices. *)

Class SliceSorter : Type := {
  sortSlice : (Process -> Process -> bool) -> list Process -> list Process;
  sortSlice_perm : forall less l, sortSlice less l ≡ₚ l
}.

(** The insertion sort that [sort.Slice] runs on a short slice (of at most
    12 elements since Go 1.19, of at most 6 before): each element in turn is
    swapped leftwards while it is [less] than its left neighbour.
    [sorted_rev] is the sorted prefix, last element first. The examples below
    run on it; the general statements hold for every [SliceSorter]. *)
Fixpoint insert_left (less : Process -> Process -> bool) (x : Process)
    (sorted_rev : list Process) : list Process :=
  match sorted_rev with
  | [] => [x]
  | y :: rest => if less x y then y :: insert_left less x rest else x :: y :: rest
  end.

Definition insertionSort (less : Process -> Process -> bool) (l : list Process)
  : list Process :=
  rev (fold_left (fun sorted_rev x => insert_left less x sorted_rev) l []).

(** The insertion sort keeps the elements of the slice. *)
#[export] Instance insertion_sorter : SliceSorter.
Proof.
  refine {| sortSlice := insertionSort |}.
  intros less l. unfold insertionSort. rewrite <- Permutation_rev.
  assert (Hinsert : forall x s, insert_left less x s ≡ₚ x :: s).
  { intros x s. induction s as [|y s IH]; simpl; [done|].
    destruct (less x y); [|done]. rewrite IH. apply perm_swap. }
  assert (Hfold : forall acc,
            fold_left (fun s x => insert_left less x s) l acc ≡ₚ l ++ acc).
  { induction l as [|x l IH]; intros acc; simpl; [done|].
    rewrite IH, Hinsert. by rewrite Permutation_middle. }
  rewrite Hfold. by rewrite app_nil_r.
Defined.

(** [sort.Slice(processes, less)]: the caller's array is sorted in place. *)
Definition sort_in_place `{SliceSorter} (less : Process -> Process -> bool) : Go unit :=
  fun mem => Ok (tt, sortSlice less mem).

(** ** Shortest-job-first *)

Module SJF.

(** The local variables of [SJFSchedule]. *)
Record State : Type := mkState {
  currentTime : Z;
  totalWait : float;
  totalTurnaround : float;
  lastCompletion : float;
  waitingTime : Z;
  schedule : list (option Row);
  gantt : list TimeSlice
}.

Definition init (n : nat) : State :=
  mkState 0 fzero fzero fzero 0 (replicate n None) [].

(** The comparison given to [sort.Slice]. *)
Definition less (a b : Process) : bool := BurstDuration a <? BurstDuration b.

(** The body of the loop, for [current := remaining[0]]. *)
Definition step (current : Process) (s : State) : Go State :=
  let waitingTime :=
    if currentTime s <? ArrivalTime current
    then Int64.sub (ArrivalTime current) (currentTime s)
    else 0 in
  let totalWait := fadd (totalWait s) (float64 waitingTime) in
  let start := Int64.add (currentTime s) waitingTime in
  let turnaround := Int64.add (BurstDuration current) waitingTime in
  let totalTurnaround := fadd (totalTurnaround s) (float64 turnaround) in
  let completion := Int64.add (BurstDuration current) start in
  let lastCompletion := float64 completion in
  let* schedule <-
    store_row (schedule s) (Int64.sub (ProcessID current) 1)
      (mkRow (ProcessID current) (Priority current) (BurstDuration current)
             (ArrivalTime current) waitingTime turnaround completion) in
  let currentTime := completion in
  let gantt := gantt s ++ [mkTimeSlice (ProcessID current) start completion] in
  ret (mkState currentTime totalWait totalTurnaround lastCompletion waitingTime
         schedule gantt).

(** [for len(remaining) > 0 { current := remaining[0]; remaining = remaining[1:]; ... }] *)
Fixpoint loop (remaining : list Process) (s : State) : Go State :=
  match remaining with
  | [] => ret s
  | current :: remaining => let* s' <- step current s in loop remaining s'
  end.

Definition finish (n : nat) (s : State) : Output :=
  let count := float64 (Z.of_nat n) in
  mkOutput (gantt s) (schedule s)
    (fdiv (totalWait s) count)
    (fdiv (totalTurnaround s) count)
    (fdiv count (lastCompletion s)).

End SJF.

Definition SJFSchedule `{SliceSorter} : Go Output :=
  let* n <- len in
  let* remaining <- copy_all in
  let remaining := sortSlice SJF.less remaining in
  let* s <- SJF.loop remaining (SJF.init n) in
  ret (SJF.finish n s).

(** ** Priority (burst first, priority as the tie-break) *)

Module SJFPriority.

(** The local variables of [SJFPrioritySchedule]. *)
Record State : Type := mkState {
  serviceTime : Z;
  totalWait : float;
  totalTurnaround : float;
  lastCompletion : float;
  waitingTime : Z;
  schedule : list (option Row);
  gantt : list TimeSlice
}.

Definition init (n : nat) : State :=
  mkState 0 fzero fzero fzero 0 (replicate n None) [].

(** The comparison given to [sort.Slice]. *)
Definition less (a b : Process) : bool :=
  if BurstDuration a =? BurstDuration b
  then Priority a <? Priority b
  else BurstDuration a <? BurstDuration b.

(** The body of the loop, for the process [p] read at [processes[i]]. *)
Definition step (i : nat) (p : Process) (s : State) : State :=
  let '(waitingTime, serviceTime) :=
    if serviceTime s <? ArrivalTime p
    then (0, ArrivalTime p)
    else (Int64.sub (serviceTime s) (ArrivalTime p), serviceTime s) in
  let totalWait := fadd (totalWait s) (float64 waitingTime) in
  let start := serviceTime in
  let turnaround := Int64.add (BurstDuration p) waitingTime in
  let totalTurnaround := fadd (totalTurnaround s) (float64 turnaround) in
  let completion := Int64.add start (BurstDuration p) in
  let lastCompletion := float64 completion in
  let schedule :=
    <[i := Some (mkRow (ProcessID p) (Priority p) (BurstDuration p)
                       (ArrivalTime p) waitingTime turnaround completion)]> (schedule s) in
  let serviceTime := Int64.add serviceTime (BurstDuration p) in
  let gantt := gantt s ++ [mkTimeSlice (ProcessID p) start serviceTime] in
  mkState serviceTime totalWait totalTurnaround lastCompletion waitingTime schedule gantt.

Definition body (i : nat) (s : State) : Go State :=
  let* p <- load i in ret (step i p s).

Definition finish (n : nat) (s : State) : Output :=
  let count := float64 (Z.of_nat n) in
  mkOutput (gantt s) (schedule s)
    (fdiv (totalWait s) count)
    (fdiv (totalTurnaround s) count)
    (fdiv count (lastCompletion s)).

End SJFPriority.

Definition SJFPrioritySchedule `{SliceSorter} : Go Output :=
  let* n <- len in
  let* _ <- sort_in_place SJFPriority.less in
  let* s <- for_range SJFPriority.body 0 n (SJFPriority.init n) in
  ret (SJFPriority.finish n s).

(** ** Round-robin *)

Definition quantum : Z := 4.

Module RR.

(** One dispatch of the loop, kept for the statements below (the source
    keeps no such log): the process id, [currentTime] and the process's
    [ArrivalTime] when it was dequeued, the wait written to the map, the time
    executed, and whether the process completed. *)
Record Dispatch : Type := mkDispatch {
  dPID : Z;
  dTime : Z;
  dArrival : Z;
  dWait : Z;
  dExec : Z;
  dDone : bool
}.

(** The local variables of [RRSchedule]. [processes] is the caller's array
    seen through the local slice header, which starts at index 0 and keeps
    the array's capacity: only its length [plen] changes. *)
Record State : Type := mkState {
  plen : nat;
  currentTime : Z;
  totalWait : float;
  totalTurnaround : float;
  lastCompletion : float;
  waitingTime : gmap Z Z;
  schedule : list Row;
  gantt : list TimeSlice;
  queue : list Process;
  trace : list Dispatch
}.

Definition init (n : nat) : State :=
  mkState n 0 fzero fzero fzero ∅ [] [] [] [].

(** The comparison given to [sort.Slice]. *)
Definition less (a b : Process) : bool := ArrivalTime a <? ArrivalTime b.

(** [m[k]] on a Go map: the zero value when the key is absent. *)
Definition map_get (m : gmap Z Z) (k : Z) : Z := default 0 (m !! k).

(** [processes = append(processes[:i], processes[i+1:]...)] once both slice
    expressions are in bounds: the elements [i+1 .. plen-1] of the array move
    one place down, in the array itself; the element at [plen-1] and the
    ones above it stay as they were. *)
Definition remove_at (i plen : nat) : Go unit :=
  fun mem =>
    Ok (tt, take i mem ++ take (plen - (i + 1))%nat (drop (i + 1)%nat mem)
            ++ drop (plen - 1)%nat mem).

(** The body of [for i, p := range processes]. The range expression was
    evaluated once: [p] is read at index [i] of the array, whatever the
    length of [processes] has become, and [i--] changes nothing of the
    iteration. [processes[i+1:]] panics when [i+1] exceeds [len(processes)]. *)
Definition admit_body (currentTime : Z) (i : nat) (s : nat * list Process)
  : Go (nat * list Process) :=
  let '(plen, queue) := s in
  let* p <- load i in
  if ArrivalTime p <=? currentTime then
    let queue := queue ++ [p] in
    if (i + 1 <=? plen)%nat then
      let* _ <- remove_at i plen in
      ret ((plen - 1)%nat, queue)
    else panic (SliceBoundsOutOfRange (i + 1)%nat plen)
  else ret (plen, queue).

(** The admission pass of one iteration of the outer loop. *)
Definition admission (currentTime : Z) (plen : nat) (queue : list Process)
  : Go (nat * list Process) :=
  for_range (admit_body currentTime) 0 plen (plen, queue).

(** The rest of the iteration once [currentProcess] left the queue. *)
Definition dispatch (currentProcess : Process) (plen : nat) (queue : list Process)
    (s : State) : State :=
  let pid := ProcessID currentProcess in
  let dispatched := currentTime s in
  let execTime :=
    if BurstDuration currentProcess <? quantum then BurstDuration currentProcess
    else quantum in
  let waitingTime :=
    <[pid := Int64.sub (currentTime s) (ArrivalTime currentProcess)]> (waitingTime s) in
  let totalWait := fadd (totalWait s) (float64 (map_get waitingTime pid)) in
  let currentTime := Int64.add (currentTime s) execTime in
  let burst := Int64.sub (BurstDuration currentProcess) execTime in
  let slice := mkTimeSlice pid (Int64.sub currentTime execTime) currentTime in
  let event done :=
    mkDispatch pid dispatched (ArrivalTime currentProcess)
      (map_get waitingTime pid) execTime done in
  if 0 <? burst then
    let requeued :=
      mkProcess pid currentTime burst (Priority currentProcess) in
    mkState plen currentTime totalWait (totalTurnaround s) (lastCompletion s)
      waitingTime (schedule s) (gantt s ++ [slice]) (queue ++ [requeued])
      (trace s ++ [event false])
  else
    let turnaround :=
      Int64.add (Int64.sub currentTime (ArrivalTime currentProcess))
        (map_get waitingTime pid) in
    let totalTurnaround := fadd (totalTurnaround s) (float64 turnaround) in
    let lastCompletion := float64 currentTime in
    let row :=
      mkRow pid (Priority currentProcess) (Int64.add burst execTime)
        (Int64.sub (ArrivalTime currentProcess) (map_get waitingTime pid))
        (map_get waitingTime pid) turnaround currentTime in
    mkState plen currentTime totalWait totalTurnaround lastCompletion
      waitingTime (schedule s ++ [row]) (gantt s ++ [slice]) queue
      (trace s ++ [event true]).

(** The iteration that finds the queue empty after admission:
    [currentTime++; continue]. *)
Definition idle (plen : nat) (s : State) : State :=
  mkState plen (Int64.add (currentTime s) 1) (totalWait s) (totalTurnaround s)
    (lastCompletion s) (waitingTime s) (schedule s) (gantt s) [] (trace s).

(** [for len(processes) > 0 || len(queue) > 0 { ... }], run for at most
    [fuel] iterations. *)
Fixpoint loop (fuel : nat) (s : State) : Go State :=
  if (plen s =? 0)%nat && bool_decide (queue s = []) then ret s
  else
    match fuel with
    | O => out_of_fuel
    | Datatypes.S fuel' =>
        let* (plen, queue) <- admission (currentTime s) (plen s) (queue s) in
        match queue with
        | [] => loop fuel' (idle plen s)
        | currentProcess :: queue => loop fuel' (dispatch currentProcess plen queue s)
        end
    end.

(** The averages, over [len(schedule)], and what goes to the output
    functions. *)
Definition finish (s : State) : Output :=
  let count := float64 (Z.of_nat (length (schedule s))) in
  mkOutput (gantt s) (Some <$> schedule s)
    (fdiv (totalWait s) count)
    (fdiv (totalTurnaround s) count)
    (fdiv count (lastCompletion s)).

End RR.

(** [RRSchedule] up to the end of its loop: the local variables then. *)
Definition RR_run `{SliceSorter} (fuel : nat) : Go RR.State :=
  let* n <- len in
  let* _ <- sort_in_place RR.less in
  RR.loop fuel (RR.init n).

(** [RRSchedule], its loop run for at most [fuel] iterations. *)
Definition RRSchedule `{SliceSorter} (fuel : nat) : Go Output :=
  let* s <- RR_run fuel in
  ret (RR.finish s).

(** ** Text

    A Go [string] is a sequence of bytes: a [string] of the Standard
    Library, whose characters are bytes. *)

(** The byte [c] as a number. *)
Definition byte (c : ascii) : Z := Z.of_N (N_of_ascii c).

(** [len(s)]. *)
Definition strlen (s : string) : Z := Z.of_nat (String.length s).

(** The newline and the tab. *)
Definition LF : string := String "010" "".
Definition TAB : string := String "009" "".

(** ** [fmt.Sprint] of an [int64]

    The decimal numeral of the value, with a minus sign when it is negative
    (the library builds it from the least significant digit, dividing by
    ten). *)

Module fmt.

(** The character of the digit [d]. *)
Definition digit (d : Z) : ascii := ascii_of_N (Z.to_N (byte "0" + d)).

(** The numeral of [u >= 0] followed by [acc]. A 64-bit value has at most
    20 digits, the bound on the iterations given by [Sprint]. *)
Fixpoint digits (bound : nat) (u : Z) (acc : string) : string :=
  match bound with
  | O => acc
  | S bound =>
      let acc := String (digit (u mod 10)) acc in
      if u <? 10 then acc else digits bound (u / 10) acc
  end.

Definition Sprint (i : Z) : string :=
  if i <? 0 then String "-" (digits 20 (- i) "") else digits 20 i "".

End fmt.

(** ** [strconv.ParseInt(s, 10, 64)] *)

Module strconv.

Inductive Err : Type := ErrSyntax | ErrRange.

(** A [*NumError]: the function, the input and the reason. *)
Record NumError : Type := mkNumError {
  Func : string;
  Num : string;
  Reason : Err
}.

Definition maxUint64 : Z := 2 ^ 64 - 1.

(** The smallest number [n] such that [n * 10] exceeds [maxUint64]. *)
Definition cutoff : Z := maxUint64 / 10 + 1.

(** [lower(c)]: the byte with its bit [0x20] set. *)
Definition lower (c : ascii) : Z := Z.lor (byte c) 32.

(** The value of the byte [c] as a digit of a base up to 36, if it has one
    (the underscore is a digit separator in base 0 only). *)
Definition digit_of (c : ascii) : option Z :=
  if (byte "0" <=? byte c) && (byte c <=? byte "9") then Some (byte c - byte "0")
  else if (byte "a" <=? lower c) && (lower c <=? byte "z") then Some (lower c - byte "a" + 10)
  else None.

(** The loop of [ParseUint(s, 10, 64)] over the bytes of [s], [n] being the
    value read so far: the value and the error returned. *)
Fixpoint parse_digits (s : string) (n : Z) : Z * option Err :=
  match s with
  | EmptyString => (n, None)
  | String c s =>
      match digit_of c with
      | None => (0, Some ErrSyntax)
      | Some d =>
          if 10 <=? d then (0, Some ErrSyntax)
          else if cutoff <=? n then (maxUint64, Some ErrRange)
          else
            let n := n * 10 in
            let n1 := (n + d) mod 2 ^ 64 in
            if (n1 <? n) || (maxUint64 <? n1) then (maxUint64, Some ErrRange)
            else parse_digits s n1
      end
  end.

Definition ParseUint (s : string) : Z * option Err :=
  match s with
  | EmptyString => (0, Some ErrSyntax)
  | _ => parse_digits s 0
  end.

(** [ParseInt(s0, 10, 64)] once the sign is picked off: [neg] tells whether
    a minus sign was found, [s] is what follows the sign. The unsigned value
    is converted and its range checked. *)
Definition signed (s0 : string) (neg : bool) (s : string) : Z * option NumError :=
  match ParseUint s with
  | (_, Some ErrSyntax) => (0, Some (mkNumError "ParseInt" s0 ErrSyntax))
  | (un, _) =>
      let cutoff := 2 ^ 63 in
      if negb neg && (cutoff <=? un) then
        (cutoff - 1, Some (mkNumError "ParseInt" s0 ErrRange))
      else if neg && (cutoff <? un) then
        (- cutoff, Some (mkNumError "ParseInt" s0 ErrRange))
      else
        let n := Int64.wrap un in
        (if neg then Int64.wrap (- n) else n, None)
  end.

(** [ParseInt(s, 10, 64)]: the value and the error returned. *)
Definition ParseInt (s : string) : Z * option NumError :=
  match s with
  | EmptyString => (0, Some (mkNumError "ParseInt" s ErrSyntax))
  | String c rest =>
      if Ascii.eqb c "+" then signed s false rest
      else if Ascii.eqb c "-" then signed s true rest
      else signed s false s
  end.

End strconv.

(** ** Errors *)

(** An [error] value: the sentinel [ErrInvalidArgs], an error of the [os] or
    [csv] package, a [*strconv.NumError], or the result of
    [fmt.Errorf("%w: text", err)] ([wraps = true]: the result unwraps to
    [err]) and of [fmt.Errorf("%v: text", err)] ([wraps = false]: only the
    message of [err] is kept). *)
Inductive error : Type :=
  | ErrInvalidArgs
  | LibError (message : string)
  | NumError (e : strconv.NumError)
  | Errorf (wraps : bool) (err : error) (text : string).

(** [errors.Is(err, ErrInvalidArgs)]. *)
Fixpoint is_invalid_args (err : error) : bool :=
  match err with
  | ErrInvalidArgs => true
  | Errorf true err _ => is_invalid_args err
  | _ => false
  end.

(** ** The process and its streams *)

(** What is written to the standard output and to the standard error while
    the program runs: the bytes of the first, and the errors printed on the
    second (by [log.Fatal], [log.Fatalf] and [mustStrToInt]), one per line. *)
Record World : Type := mkWorld {
  stdout : string;
  stderr : list error
}.

(** The value of a panic: a run-time error, or the string a library function
    panics with. *)
Inductive PanicValue : Type :=
  | RuntimePanic (e : RuntimeError)
  | StringPanic (message : string).

(** How a computation ends: it returns, it panics, or the process exits
    ([os.Exit]). [NoFuel] belongs to the model only, as [OutOfFuel]. *)
Inductive Answer (A : Type) : Type :=
  | Returned (a : A)
  | Panicked (v : PanicValue)
  | Exited (code : Z)
  | NoFuel.
Arguments Returned {A} a.
Arguments Panicked {A} v.
Arguments Exited {A} code.
Arguments NoFuel {A}.

(** A computation that writes to the streams. What was written before a
    panic or an exit stays written. *)
Definition IO (A : Type) : Type := World -> Answer A * World.

#[export] Instance IO_ret : MRet IO := fun A a w => (Returned a, w).

#[export] Instance IO_bind : MBind IO := fun A B k m w =>
  match m w with
  | (Returned a, w') => k a w'
  | (Panicked v, w') => (Panicked v, w')
  | (Exited code, w') => (Exited code, w')
  | (NoFuel, w') => (NoFuel, w')
  end.

Definition throw {A} (v : PanicValue) : IO A := fun w => (Panicked v, w).

(** [os.Exit(code)]. *)
Definition os_Exit {A} (code : Z) : IO A := fun w => (Exited code, w).

(** [fmt.Fprint(w, s1, s2, ...)] on the standard output, for operands that
    are all strings ([text] is their concatenation: no space is added between
    strings); the error of the write is dropped, as in the source. *)
Definition Fprint (text : string) : IO unit :=
  fun w => (Returned tt, mkWorld (stdout w +:+ text) (stderr w)).

(** [fmt.Fprintln(w, s1, s2, ...)]: the operands separated by spaces, and a
    newline. *)
Definition Fprintln (operands : list string) : IO unit :=
  Fprint (String.concat " " operands +:+ LF).

(** [fmt.Fprintln(os.Stderr, err)], and the line that [log.Fatal] prints. *)
Definition print_error (err : error) : IO unit :=
  fun w => (Returned tt, mkWorld (stdout w) (stderr w ++ [err])).

(** [log.Fatal(err)] and [log.Fatalf("%v: text", err)]: the message goes to
    the standard error and the process exits with status 1. *)
Definition log_Fatal {A} (err : error) : IO A :=
  _ ← print_error err; os_Exit 1.

(** [defer d(); body]: [d] runs when [body] returns and when it panics, not
    when it exits the process; a panic of [body] goes on after [d]
    returned. *)
Definition defer {A} (d : IO unit) (body : IO A) : IO A :=
  fun w =>
    match body w with
    | (Returned a, w') => (_ ← d; mret a) w'
    | (Panicked v, w') => (_ ← d; throw v) w'
    | other => other
    end.

(** ** Loading processes *)

(** What [csv.NewReader(r).ReadAll()] returns for a reader [r]: the records
    of the file, each the list of its fields, or an error. (A reader with
    the default settings, as here, returns records of one length, with one
    field at least; the model takes any records.) *)
Inductive Reader : Type :=
  | Records (rows : list (list string))
  | ReadError (err : error).

Definition mustStrToInt (s : string) : IO Z :=
  match strconv.ParseInt s with
  | (i, None) => mret i
  | (_, Some err) => _ ← print_error (NumError err); os_Exit 1
  end.

(** [row[k]], with Go's bounds check. *)
Definition field (row : list string) (k : nat) : IO string :=
  match row !! k with
  | Some s => mret s
  | None => throw (RuntimePanic (IndexOutOfRange (Z.of_nat k) (length row)))
  end.

(** The body of the loop of [loadProcesses] for [rows[i] = row]: the value
    of [processes[i]] after it. *)
Definition load_row (row : list string) : IO Process :=
  s ← field row 0; id ← mustStrToInt s;
  s ← field row 1; burst ← mustStrToInt s;
  s ← field row 2; arrival ← mustStrToInt s;
  priority ← (if (length row =? 4)%nat then s ← field row 3; mustStrToInt s
              else mret 0);
  mret (mkProcess id arrival burst priority).

(** [for i := range rows { processes[i] = ... }]. *)
Fixpoint load_rows (rows : list (list string)) : IO (list Process) :=
  match rows with
  | [] => mret []
  | row :: rows => p ← load_row row; ps ← load_rows rows; mret (p :: ps)
  end.

Definition loadProcesses (r : Reader) : IO (list Process + error) :=
  match r with
  | ReadError err => mret (inr (Errorf true err "reading CSV"))
  | Records rows => ps ← load_rows rows; mret (inl ps)
  end.

(** ** Output helpers *)

(** [strings.Repeat(s, count)]: it panics on a negative count. *)
Definition Repeat (s : string) (count : Z) : IO string :=
  if count <? 0 then throw (StringPanic "strings: negative Repeat count")
  else mret (String.concat "" (replicate (Z.to_nat count) s)).

Definition outputTitle (title : string) : IO unit :=
  rule ← Repeat "-" (strlen title * 2); _ ← Fprintln [rule];
  indent ← Repeat " " (strlen title ÷ 2); _ ← Fprintln [indent; title];
  rule ← Repeat "-" (strlen title * 2); Fprintln [rule].

(** The body of the first loop of [outputGantt]: the cell of an interval. *)
Definition gantt_cell (ts : TimeSlice) : IO unit :=
  let pid := fmt.Sprint (PID ts) in
  padding ← Repeat " " ((8 - strlen pid) ÷ 2);
  Fprint (padding +:+ pid +:+ padding +:+ "|").

(** The body of the second loop, for [gantt[i] = ts], [n = len(gantt)]. *)
Definition gantt_time (n : nat) (i : nat) (ts : TimeSlice) : IO unit :=
  _ ← Fprint (fmt.Sprint (Start ts) +:+ TAB);
  if (Z.of_nat n - 1 =? Z.of_nat i) then Fprint (fmt.Sprint (Stop ts)) else mret tt.

(** [for i := range l { body i l[i] }], the first index being [i]. *)
Fixpoint for_each {A : Type} (body : nat -> A -> IO unit) (i : nat) (l : list A)
  : IO unit :=
  match l with
  | [] => mret tt
  | x :: l => _ ← body i x; for_each body (S i) l
  end.

Definition outputGantt (gantt : list TimeSlice) : IO unit :=
  _ ← Fprintln ["Gantt schedule"];
  _ ← Fprint "|";
  _ ← for_each (fun _ => gantt_cell) 0 gantt;
  _ ← Fprintln [];
  _ ← for_each (gantt_time (length gantt)) 0 gantt;
  Fprint (LF +:+ LF).

(** The two library functions behind [outputSchedule], known by their
    signatures only: [fmt.Sprintf("%.2f", x)] and the text that a
    [tablewriter] table renders from its header, rows and footer. *)
Class Renderer : Type := {
  Sprintf_2f : float -> string;
  Render : list string -> list (list string) -> list string -> string
}.

(** A row of the table as [outputSchedule] receives it: the seven columns
    printed by [fmt.Sprint], or [nil]. *)
Definition row_text (row : option Row) : list string :=
  match row with
  | None => []
  | Some r =>
      fmt.Sprint <$> [rowID r; rowPriority r; rowBurst r; rowArrival r;
                      rowWait r; rowTurnaround r; rowExit r]
  end.

Definition outputSchedule `{Renderer} (rows : list (option Row))
    (wait turnaround throughput : float) : IO unit :=
  _ ← Fprintln ["Schedule table"];
  Fprint (Render ["ID"; "Priority"; "Burst"; "Arrival"; "Wait"; "Turnaround"; "Exit"]
            (row_text <$> rows)
            [""; ""; ""; "";
             "Average" +:+ LF +:+ Sprintf_2f wait;
             "Average" +:+ LF +:+ Sprintf_2f turnaround;
             "Throughput" +:+ LF +:+ Sprintf_2f throughput +:+ "/t"]).

(** The three calls that end every scheduler. *)
Definition output `{Renderer} (title : string) (out : Output) : IO unit :=
  _ ← outputTitle title;
  _ ← outputGantt (outGantt out);
  outputSchedule (outSchedule out) (aveWait out) (aveTurnaround out) (aveThroughput out).

(** A scheduler called as in [main], with [os.Stdout], a title and the slice
    [processes], which spans its whole backing array: [schedule] is the
    scheduler up to its output calls. The result is the contents of the
    array after the call. *)
Definition call `{Renderer} (schedule : Go Output) (title : string)
    (processes : list Process) : IO (list Process) :=
  match schedule processes with
  | Ok (out, processes) => _ ← output title out; mret processes
  | Panic e => throw (RuntimePanic e)
  | OutOfFuel => fun w => (NoFuel, w)
  end.

(** ** The command line and the file *)

(** An open file: what the CSV reader gets from it, and the error of its
    [Close], if any. *)
Record File : Type := mkFile {
  fileRecords : Reader;
  fileClose : option error
}.

(** The file system: what [os.Open] returns for a path. *)
Definition FileSystem : Type := string -> File + error.

(** The closure [closeFn] of [openProcessingFile]. *)
Definition closeFn (f : File) : IO unit :=
  match fileClose f with
  | Some err => log_Fatal (Errorf false err "error closing scheduling file")
  | None => mret tt
  end.

Definition openProcessingFile (os_Open : FileSystem) (args : list string)
  : File * IO unit + error :=
  if negb (length args =? 2)%nat then
    inr (Errorf true ErrInvalidArgs "must give a scheduling file to process")
  else
    match os_Open (default "" (args !! 1%nat)) with
    | inr err => inr (Errorf false err "error opening scheduling file")
    | inl f => inl (f, closeFn f)
    end.

(** [main], for the file system [os_Open] and the arguments [os.Args]; the
    loop of [RRSchedule] runs for at most [fuel] iterations. *)
Definition main `{SliceSorter} `{Renderer} (fuel : nat) (os_Open : FileSystem)
    (args : list string) : IO unit :=
  match openProcessingFile os_Open args with
  | inr err => log_Fatal err
  | inl (f, closeFile) =>
      defer closeFile (
        loaded ← loadProcesses (fileRecords f);
        match loaded with
        | inr err => log_Fatal err
        | inl processes =>
            processes ← call FCFSSchedule "First-come, first-serve" processes;
            processes ← call SJFSchedule "Shortest-job-first" processes;
            processes ← call SJFPrioritySchedule "Priority" processes;
            _ ← call (RRSchedule fuel) "Round-robin" processes;
            mret tt
        end)
  end.

(** The exit status of the process for the answer of [main]: 0 when [main]
    returns, 2 after a panic that nothing recovers. *)
Definition exit_status (a : Answer unit) : option Z :=
  match a with
  | Returned _ => Some 0
  | Panicked _ => Some 2
  | Exited code => Some code
  | NoFuel => None
  end.

(** The program started with nothing written yet. *)
Definition run `{SliceSorter} `{Renderer} (fuel : nat) (os_Open : FileSystem)
    (args : list string) : Answer unit * World :=
  main fuel os_Open args (mkWorld "" []).

(** * Vocabulary of the statements *)

(** ** Inputs and results *)

(** A process record in the order of the input file: id, burst, arrival. *)
Definition process (id burst arrival : Z) : Process := mkProcess id arrival burst 0.

(** [Int64.in_range], decided. *)
Definition in_rangeb (z : Z) : bool := (Int64.min_int <=? z) && (z <=? Int64.max_int).

(** [wf_process], decided. *)
Definition wf_processb (p : Process) : bool :=
  in_rangeb (ProcessID p) && in_rangeb (ArrivalTime p)
  && in_rangeb (BurstDuration p) && in_rangeb (Priority p).

(** What a scheduler that returned handed to the output functions. *)
Definition output_of {A : Type} (r : result (A * list Process)) : option A :=
  match r with Ok (o, _) => Some o | _ => None end.

(** What a scheduler that returned left in the caller's slice. *)
Definition caller_slice {A : Type} (r : result (A * list Process))
  : option (list Process) :=
  match r with Ok (_, mem) => Some mem | _ => None end.

(** The rows of a schedule table that were filled in. *)
Definition rows (schedule : list (option Row)) : list Row := omap id schedule.

(** The Wait column of the rows. *)
Definition waits (out : Output) : list (option Z) :=
  fmap (M:=option) rowWait <$> outSchedule out.

(** What every scheduler hands over on the empty input: no interval, no row,
    and three averages that are not numbers. *)
Definition empty_output : Output :=
  mkOutput [] [] PrimFloat.nan PrimFloat.nan PrimFloat.nan.

(** ** Loops that only read the array *)

(** [fold_indexed f i ps s]: the state after the body [f] ran on each process
    of [ps] in turn, the first at index [i], from the state [s]. *)
Fixpoint fold_indexed {S : Type} (f : nat -> Process -> S -> S) (i : nat)
    (ps : list Process) (s : S) : S :=
  match ps with
  | [] => s
  | p :: ps => fold_indexed f (Datatypes.S i) ps (f i p s)
  end.

(** ** Rows of the non-preemptive schedulers *)

(** The identities between the columns of a row, in 64-bit arithmetic:
    turnaround = burst + wait, turnaround = exit - arrival, and
    exit = arrival + wait + burst. *)
Definition row_consistent (r : Row) : Prop :=
  rowTurnaround r = Int64.add (rowBurst r) (rowWait r) /\
  rowTurnaround r = Int64.sub (rowExit r) (rowArrival r) /\
  rowExit r = Int64.add (Int64.add (rowArrival r) (rowWait r)) (rowBurst r).

(** The same identities, decided. *)
Definition row_consistentb (r : Row) : bool :=
  (rowTurnaround r =? Int64.add (rowBurst r) (rowWait r)) &&
  (rowTurnaround r =? Int64.sub (rowExit r) (rowArrival r)) &&
  (rowExit r =? Int64.add (Int64.add (rowArrival r) (rowWait r)) (rowBurst r)).

(** The slot [ProcessID - 1] of [p] exists in a table of [n] rows. *)
Definition slot_ok (n : nat) (p : Process) : Prop :=
  1 <= ProcessID p <= Z.of_nat n.

(** [r] is a row written for the process [p]: its first four columns are
    the fields of [p]. *)
Definition row_for (p : Process) (r : Row) : Prop :=
  rowID r = ProcessID p /\ rowPriority r = Priority p /\
  rowBurst r = BurstDuration p /\ rowArrival r = ArrivalTime p.

(** The row [SJF.step] writes for [current]. *)
Definition SJF_row (current : Process) (s : SJF.State) : Row :=
  let waitingTime :=
    if SJF.currentTime s <? ArrivalTime current
    then Int64.sub (ArrivalTime current) (SJF.currentTime s)
    else 0 in
  let start := Int64.add (SJF.currentTime s) waitingTime in
  mkRow (ProcessID current) (Priority current) (BurstDuration current)
    (ArrivalTime current) waitingTime
    (Int64.add (BurstDuration current) waitingTime)
    (Int64.add (BurstDuration current) start).

(** ** What the claims ask of the code *)

(** The waiting times the claim asks of [FCFSSchedule]:
    [max(0, serviceTime - arrivalTime)] for every process, [serviceTime]
    being the sum of the bursts of the processes before it. *)
Fixpoint FCFS_claimed_waits (serviceTime : Z) (ps : list Process) : list Z :=
  match ps with
  | [] => []
  | p :: ps =>
      Z.max 0 (serviceTime - ArrivalTime p)
      :: FCFS_claimed_waits (serviceTime + BurstDuration p) ps
  end.

(** The admission the claim describes: every process of the remaining list
    that has arrived moves to the back of the queue, in the order of the
    list; the others stay. *)
Definition admission_claimed (currentTime : Z) (remaining queue : list Process)
  : list Process * list Process :=
  (filter (fun p => currentTime < ArrivalTime p) remaining,
   queue ++ filter (fun p => ArrivalTime p <= currentTime) remaining).

(** ** Round-robin: dispatches, rows and totals *)

(** [total += float64(z)] for each [z] in turn, from [0.0]. *)
Definition fsum (zs : list Z) : float :=
  fold_left (fun total z => fadd total (float64 z)) zs fzero.

(** The execution interval of a dispatch. *)
Definition slice_of (d : RR.Dispatch) : TimeSlice :=
  mkTimeSlice (RR.dPID d) (RR.dTime d) (Int64.add (RR.dTime d) (RR.dExec d)).

(** [lastCompletion] as a function of the rows written so far. *)
Definition last_exit (schedule : list Row) : float :=
  match last schedule with
  | Some r => float64 (rowExit r)
  | None => fzero
  end.

(** The row [r] is the one written by the dispatch [d], which completed its
    process: the Wait column is the wait of that dispatch alone, the Arrival
    column is the [ArrivalTime] of the working copy less that wait. *)
Definition row_of_dispatch (r : Row) (d : RR.Dispatch) : Prop :=
  rowID r = RR.dPID d /\
  rowWait r = RR.dWait d /\
  rowExit r = Int64.add (RR.dTime d) (RR.dExec d) /\
  rowArrival r = Int64.sub (RR.dArrival d) (RR.dWait d) /\
  rowTurnaround r
  = Int64.add (Int64.sub (Int64.add (RR.dTime d) (RR.dExec d)) (RR.dArrival d))
      (RR.dWait d).

(** The accounts of the loop: the clock is a 64-bit value, the two totals
    are the float sums over the dispatches and over the rows, the timeline is
    the sequence of the dispatches, and the rows are those of the dispatches
    that completed a process. *)
Record RR_accounts (s : RR.State) : Prop := {
  acc_time : Int64.in_range (RR.currentTime s);
  acc_wait : RR.totalWait s = fsum (RR.dWait <$> RR.trace s);
  acc_turnaround : RR.totalTurnaround s = fsum (rowTurnaround <$> RR.schedule s);
  acc_last : RR.lastCompletion s = last_exit (RR.schedule s);
  acc_gantt : RR.gantt s = slice_of <$> RR.trace s;
  acc_dwait :
    Forall (fun d => RR.dWait d = Int64.sub (RR.dTime d) (RR.dArrival d)) (RR.trace s);
  acc_rows : Forall2 row_of_dispatch (RR.schedule s) (List.filter RR.dDone (RR.trace s))
}.

(** ** Round-robin: executed time and remaining work *)

(** The duration [stop - start] of an execution interval, on 64 bits. *)
Definition duration (ts : TimeSlice) : Z := Int64.sub (Stop ts) (Start ts).

(** The sum of a list of integers. *)
Definition Zsum (zs : list Z) : Z := foldr Z.add 0 zs.

(** The time the timeline gives to the process id [id]. *)
Definition served (id : Z) (gantt : list TimeSlice) : Z :=
  Zsum (duration <$> filter (fun ts => PID ts = id) gantt).

(** The burst time that the processes of [ps] with the id [id] ask for. *)
Definition demand (id : Z) (ps : list Process) : Z :=
  Zsum (BurstDuration <$> filter (fun p => ProcessID p = id) ps).

(** The invariant of the loop: the slice lies inside the array, the clock
    and the bursts still to run are 64-bit values, every interval lasts at
    most a quantum, and for each id the time served so far plus the bursts
    still to run are the demand [total] of the input. *)
Record RR_work (total : Z -> Z) (s : RR.State) (mem : list Process) : Prop := {
  work_plen : (RR.plen s <= length mem)%nat;
  work_time : Int64.in_range (RR.currentTime s);
  work_bursts :
    Forall (fun p => Int64.in_range (BurstDuration p))
      (take (RR.plen s) mem ++ RR.queue s);
  work_quantum : Forall (fun ts => duration ts <= quantum) (RR.gantt s);
  work_total :
    forall id,
      served id (RR.gantt s) + demand id (take (RR.plen s) mem ++ RR.queue s)
      = total id
}.

(** ** Round-robin: halting *)

(** A bound on the dispatches a process still needs. *)
Definition weight (p : Process) : nat := Z.to_nat (Z.max 1 (BurstDuration p)).

(** The loop, given [fuel] iterations, ends: it returns or panics. *)
Definition RR_halts (fuel : nat) (s : RR.State) (mem : list Process) : Prop :=
  RR.loop fuel s mem <> OutOfFuel.

(** The slice lies inside the array, and the clock, the arrival times and
    the bursts of the processes still to run are 64-bit values. *)
Record RR_bounded (s : RR.State) (mem : list Process) : Prop := {
  bounded_plen : (RR.plen s <= length mem)%nat;
  bounded_time : Int64.in_range (RR.currentTime s);
  bounded_procs :
    Forall (fun p => Int64.in_range (ArrivalTime p) /\ Int64.in_range (BurstDuration p))
      (take (RR.plen s) mem ++ RR.queue s)
}.

(** ** Round-robin: where the arrival time of a working copy comes from *)

(** The dispatch [d] finds the [ArrivalTime] of an input process of its id. *)
Definition first_dispatch (input : list Process) (d : RR.Dispatch) : Prop :=
  exists p, p ∈ input /\ ProcessID p = RR.dPID d /\ ArrivalTime p = RR.dArrival d.

(** The dispatch [d] finds the [ArrivalTime] that an [earlier] dispatch of
    the same id, which did not complete the process, gave its working copy:
    the time at which that dispatch ended. *)
Definition resumed (earlier : list RR.Dispatch) (d : RR.Dispatch) : Prop :=
  exists d', d' ∈ earlier /\ RR.dPID d' = RR.dPID d /\ RR.dDone d' = false /\
             RR.dArrival d = Int64.add (RR.dTime d') (RR.dExec d').

(** Every dispatch of the log is a first dispatch or resumes an earlier one. *)
Inductive seeded (input : list Process) : list RR.Dispatch -> Prop :=
  | seeded_nil : seeded input []
  | seeded_snoc tr d :
      seeded input tr -> first_dispatch input d \/ resumed tr d ->
      seeded input (tr ++ [d]).

(** The working copy [p] is an input process, or was put back in the queue
    by a dispatch of the log. *)
Definition copy_seeded (input : list Process) (tr : list RR.Dispatch) (p : Process)
  : Prop :=
  p ∈ input \/
  exists d, d ∈ tr /\ RR.dPID d = ProcessID p /\ RR.dDone d = false /\
            ArrivalTime p = Int64.add (RR.dTime d) (RR.dExec d).

(** The invariant of the loop for [seeded]. *)
Record RR_seeded (input : list Process) (s : RR.State) (mem : list Process) : Prop := {
  seeded_plen : (RR.plen s <= length mem)%nat;
  seeded_copies :
    Forall (copy_seeded input (RR.trace s)) (take (RR.plen s) mem ++ RR.queue s);
  seeded_trace : seeded input (RR.trace s)
}.

(** ** Numerals *)

(** The byte [c] is a decimal digit. *)
Definition is_digit (c : ascii) : bool := (byte "0" <=? byte c) && (byte c <=? byte "9").

(** The number that the decimal digits of [s] denote after the digits of
    [n], if [s] holds digits only. *)
Fixpoint digits_value (s : string) (n : Z) : option Z :=
  match s with
  | EmptyString => Some n
  | String c s => if is_digit c then digits_value s (10 * n + (byte c - byte "0")) else None
  end.

(** The integer that [s] denotes as a decimal numeral: an optional sign and
    at least one digit. *)
Definition numeral (s : string) : option Z :=
  match s with
  | EmptyString => None
  | String c rest =>
      if Ascii.eqb c "+" then
        match rest with EmptyString => None | _ => digits_value rest 0 end
      else if Ascii.eqb c "-" then
        match rest with EmptyString => None | _ => Z.opp <$> digits_value rest 0 end
      else digits_value s 0
  end.

(** [s] is a decimal numeral of the 64-bit integer [n]. *)
Definition int64_numeral (s : string) (n : Z) : Prop :=
  numeral s = Some n /\ Int64.in_range n.

(** The streams after [mustStrToInt] refused the string [s] for the reason
    [r]: the [*NumError] of [ParseInt] is one more line of the standard
    error. *)
Definition refused (s : string) (r : strconv.Err) (w : World) : World :=
  mkWorld (stdout w) (stderr w ++ [NumError (strconv.mkNumError "ParseInt" s r)]).

(** What [mustStrToInt] does on a string that [ParseInt] refuses. *)
Definition exits_on {A} (s : string) (w : World) (a : Answer A * World) : Prop :=
  exists r, a = (Exited 1, refused s r w).

(** The record [row] of the file gives the process [p]: its first three
    fields are the numerals of the id, the burst and the arrival time, and
    the fourth field of a record of exactly four fields is the numeral of the
    priority, which is 0 for a record of any other length. *)
Definition row_of (row : list string) (p : Process) : Prop :=
  exists id burst arrival rest,
    row = id :: burst :: arrival :: rest /\
    int64_numeral id (ProcessID p) /\
    int64_numeral burst (BurstDuration p) /\
    int64_numeral arrival (ArrivalTime p) /\
    match rest with
    | [priority] => int64_numeral priority (Priority p)
    | _ => Priority p = 0
    end.

(** The fields of a record that [loadProcesses] converts: the first three,
    and the fourth of a record of exactly four fields. *)
Definition converted (row : list string) : list string :=
  if (length row =? 4)%nat then row else take 3 row.

(** [row] is the first record of [rows] that gives no process: the records
    before it do. *)
Definition first_bad (rows : list (list string)) (row : list string) : Prop :=
  exists good ps rest, rows = good ++ row :: rest /\ Forall2 row_of good ps.

(** How [loadProcesses] ends on the records [rows], from the streams [w]:
    it returns the processes that the records give and writes nothing; or a
    field that it converts is no numeral of a 64-bit integer, and the process
    exits with status 1 after one line on the standard error; or a record
    has [k < 3] fields, and reading the field [k] panics. It never returns
    an error. *)
Definition load_outcome (rows : list (list string)) (w : World)
    (a : Answer (list Process + error) * World) : Prop :=
  match a with
  | (Returned (inl ps), w') => Forall2 row_of rows ps /\ w' = w
  | (Returned (inr _), _) => False
  | (Exited code, w') =>
      code = 1 /\
      exists row s r,
        first_bad rows row /\ s ∈ converted row /\ (forall n, ~ int64_numeral s n) /\
        w' = refused s r w
  | (Panicked v, w') =>
      exists row,
        first_bad rows row /\ (length row < 3)%nat /\
        v = RuntimePanic (IndexOutOfRange (Z.of_nat (length row)) (length row)) /\
        w' = w
  | (NoFuel, _) => False
  end.

(** The record that holds the four fields of [p], as [fmt.Sprint] prints
    them. *)
Definition record_of (p : Process) : list string :=
  fmt.Sprint <$> [ProcessID p; BurstDuration p; ArrivalTime p; Priority p].

(** How the loop body of [loadProcesses] ends on a record. *)
Inductive row_outcome (row : list string) (w : World) : Answer Process * World -> Prop :=
  | row_loaded p : row_of row p -> row_outcome row w (Returned p, w)
  | row_refused s r :
      s ∈ converted row -> (forall n, ~ int64_numeral s n) ->
      row_outcome row w (Exited 1, refused s r w)
  | row_short :
      (length row < 3)%nat ->
      row_outcome row w
        (Panicked (RuntimePanic (IndexOutOfRange (Z.of_nat (length row)) (length row))), w).

(** The id [pid] prints with ten characters or more. *)
Definition wide (pid : Z) : bool := (1000000000 <=? pid) || (pid <=? -100000000).

(** What [strings.Repeat] panics with on a negative count. *)
Definition negative_repeat : PanicValue := StringPanic "strings: negative Repeat count".

(** The streams [w'] are the streams [w] after more text went to the
    standard output, and nothing to the standard error. *)
Definition printed (w w' : World) : Prop :=
  exists text, w' = mkWorld (stdout w +:+ text) (stderr w).

(** ** Timelines of the non-preemptive schedulers *)

(** [serviceTime] after the processes [ps] in [FCFSSchedule]: the sum of
    their bursts, on 64 bits. *)
Definition service (ps : list Process) : Z :=
  fold_left (fun t p => Int64.add t (BurstDuration p)) ps 0.

(** What [FCFSSchedule] writes for the process [p] at index [i] of its input
    [ps]: the row [r] and the interval [ts]. The interval stops at the sum
    of the bursts up to [p]; when the arrival time of [p] is positive, the
    interval starts at the sum of the bursts before [p], and the wait is that
    sum less the arrival time; the first process, when its arrival time (a
    64-bit value) is not positive, waits 0 and starts at its arrival time. *)
Definition FCFS_entry (ps : list Process) (i : nat) (p : Process) (r : Row)
    (ts : TimeSlice) : Prop :=
  row_for p r /\ PID ts = ProcessID p /\
  Stop ts = service (take (S i) ps) /\
  rowTurnaround r = Int64.add (rowBurst r) (rowWait r) /\
  rowExit r = Int64.add (Int64.add (rowArrival r) (rowWait r)) (rowBurst r) /\
  (0 < ArrivalTime p ->
   Start ts = service (take i ps) /\
   rowWait r = Int64.sub (service (take i ps)) (ArrivalTime p) /\
   rowExit r = Stop ts) /\
  (i = 0%nat -> ArrivalTime p <= 0 -> Int64.in_range (ArrivalTime p) ->
   Start ts = ArrivalTime p /\ rowWait r = 0).

(** The table [schedule] holds the rows [rs], top to bottom, and the
    averages of [out] are those of the columns of [rs]: the float sums of
    the Wait and Turnaround columns, added from the top, divided by the
    number [n] of processes; and [n] divided by the Exit of the last row. *)
Definition column_means (n : nat) (rs : list Row) (out : Output) : Prop :=
  outSchedule out = Some <$> rs /\
  aveWait out = fdiv (fsum (rowWait <$> rs)) (float64 (Z.of_nat n)) /\
  aveTurnaround out = fdiv (fsum (rowTurnaround <$> rs)) (float64 (Z.of_nat n)) /\
  aveThroughput out = fdiv (float64 (Z.of_nat n)) (last_exit rs).

(** The timeline of the processes [ps] run one after the other from the time
    [t] on, each from its arrival time at the earliest and for the time of
    its burst, in exact arithmetic. *)
Fixpoint nonpreemptive (t : Z) (ps : list Process) : list TimeSlice :=
  match ps with
  | [] => []
  | p :: ps =>
      let start := Z.max t (ArrivalTime p) in
      let stop := start + BurstDuration p in
      mkTimeSlice (ProcessID p) start stop :: nonpreemptive stop ps
  end.

(** The processor is never idle on the input [ps], served in its order: the
    first process arrives at time 0, and every other process at a positive
    time that is no later than the sum of the bursts before it. *)
Definition busy (ps : list Process) : Prop :=
  forall i p, ps !! i = Some p ->
    (i = 0%nat /\ ArrivalTime p = 0) \/
    (0 < ArrivalTime p <= Zsum (BurstDuration <$> take i ps)).

(** No time of the timeline exceeds 64 bits. *)
Definition fits (gantt : list TimeSlice) : Prop :=
  Forall (fun ts => Int64.in_range (Stop ts)) gantt.

(** The row [r] agrees with the interval [ts] of its process, in exact
    arithmetic: the wait runs from the arrival to the start, the turnaround
    from the arrival to the stop, and the exit is the stop. *)
Definition row_of_slice (r : Row) (ts : TimeSlice) : Prop :=
  rowID r = PID ts /\
  rowWait r = Start ts - rowArrival r /\
  rowTurnaround r = Stop ts - rowArrival r /\
  rowExit r = Stop ts.

(** The state of [FCFSSchedule] after the processes [done], the first of its
    input [all]. *)
Record FCFS_after (all done : list Process) (s : FCFS.State) (rs : list Row) : Prop := {
  fcfs_schedule :
    FCFS.schedule s = (Some <$> rs) ++ replicate (length all - length done) None;
  fcfs_wait : FCFS.totalWait s = fsum (rowWait <$> rs);
  fcfs_turnaround : FCFS.totalTurnaround s = fsum (rowTurnaround <$> rs);
  fcfs_last : FCFS.lastCompletion s = last_exit rs;
  fcfs_service : FCFS.serviceTime s = service done;
  fcfs_first : done = [] -> FCFS.waitingTime s = 0;
  fcfs_rows : length rs = length done;
  fcfs_gantt : length (FCFS.gantt s) = length done;
  fcfs_entries :
    forall i p r ts,
      all !! i = Some p -> rs !! i = Some r -> FCFS.gantt s !! i = Some ts ->
      FCFS_entry all i p r ts
}.

(** The state of [SJFPrioritySchedule] after the first [done] processes of
    the sorted slice, of length [n]. *)
Record Priority_after (n done : nat) (s : SJFPriority.State) (rs : list Row) : Prop := {
  prio_schedule : SJFPriority.schedule s = (Some <$> rs) ++ replicate (n - done) None;
  prio_wait : SJFPriority.totalWait s = fsum (rowWait <$> rs);
  prio_turnaround : SJFPriority.totalTurnaround s = fsum (rowTurnaround <$> rs);
  prio_last : SJFPriority.lastCompletion s = last_exit rs;
  prio_rows : length rs = done
}.

(** ** Round-robin: rows and timeline *)

(** What identifies a process in the table: its id and its priority. *)
Definition process_key (p : Process) : Z * Z := (ProcessID p, Priority p).
Definition row_key (r : Row) : Z * Z := (rowID r, rowPriority r).

(** The interval [ts] is the one that completed the process of the row [r]:
    it has its id and stops at its exit. *)
Definition last_slice (r : Row) (ts : TimeSlice) : Prop :=
  PID ts = rowID r /\ Stop ts = rowExit r.

(** The invariant of the loop for the rows: the processes still to run and
    the rows written make up the input, and every row shows as its burst the
    time of the interval that completed its process. *)
Record RR_rows (keys : list (Z * Z)) (s : RR.State) (mem : list Process) : Prop := {
  rows_plen : (RR.plen s <= length mem)%nat;
  rows_bursts :
    Forall (fun p => Int64.in_range (BurstDuration p))
      (take (RR.plen s) mem ++ RR.queue s);
  rows_keys :
    (process_key <$> (take (RR.plen s) mem ++ RR.queue s)) ++ (row_key <$> RR.schedule s)
    ≡ₚ keys;
  rows_burst :
    Forall (fun r => rowBurst r <= quantum /\
                     exists ts, ts ∈ RR.gantt s /\ last_slice r ts /\
                                rowBurst r = duration ts)
      (RR.schedule s)
}.

(** ** Round-robin: the timeline in exact arithmetic *)

(** The intervals of [gantt] follow one another from the time [t] on: none
    starts before the one before it stopped, and none stops before it
    started. *)
Fixpoint sequential (t : Z) (gantt : list TimeSlice) : Prop :=
  match gantt with
  | [] => True
  | ts :: gantt => t <= Start ts /\ Start ts <= Stop ts /\ sequential (Stop ts) gantt
  end.

(** The time at which the timeline [gantt], begun at [t], ends. *)
Definition last_stop (t : Z) (gantt : list TimeSlice) : Z :=
  default t (Stop <$> last gantt).

(** The input [ps] runs within 64 bits: no burst is negative, no process
    arrives after the time [T], and [T] plus the bursts is a 64-bit value. *)
Definition within (T : Z) (ps : list Process) : Prop :=
  0 <= T /\
  Forall (fun p => 0 <= BurstDuration p /\ ArrivalTime p <= T) ps /\
  T + Zsum (BurstDuration <$> ps) <= Int64.max_int.

(** The process [q] of the queue, or the interval [ts], belongs to an input
    process that had arrived by the time [t]. *)
Definition arrived_by (ps : list Process) (id t : Z) : Prop :=
  exists p, p ∈ ps /\ ProcessID p = id /\ ArrivalTime p <= t.

(** The invariant of the loop for an input within 64 bits. *)
Record RR_exact (ps : list Process) (T : Z) (s : RR.State) (mem : list Process)
  : Prop := {
  exact_plen : (RR.plen s <= length mem)%nat;
  exact_mem : forall p, p ∈ mem -> p ∈ ps;
  exact_bursts :
    Forall (fun q => 0 <= BurstDuration q /\ Int64.in_range (BurstDuration q))
      (take (RR.plen s) mem ++ RR.queue s);
  exact_time : 0 <= RR.currentTime s;
  exact_left :
    Zsum (BurstDuration <$> take (RR.plen s) mem ++ RR.queue s)
    <= Zsum (BurstDuration <$> ps);
  exact_budget :
    RR.currentTime s + Zsum (BurstDuration <$> take (RR.plen s) mem ++ RR.queue s)
    <= T + Zsum (BurstDuration <$> ps);
  exact_queue :
    Forall (fun q => ArrivalTime q <= RR.currentTime s /\
                     arrived_by ps (ProcessID q) (ArrivalTime q)) (RR.queue s);
  exact_gantt : sequential 0 (RR.gantt s);
  exact_stop : last_stop 0 (RR.gantt s) <= RR.currentTime s;
  exact_arrived :
    Forall (fun ts => arrived_by ps (PID ts) (Start ts)) (RR.gantt s)
}.

(** ** The program *)

(** A renderer that renders nothing. The examples below run with it; the
    statements hold for every renderer. *)
#[export] Instance blank_renderer : Renderer :=
  {| Sprintf_2f := fun _ => EmptyString; Render := fun _ _ _ => EmptyString |}.

(** Some process of [ps] has an id that prints with ten characters or
    more. *)
Definition wide_ids (ps : list Process) : bool :=
  existsb (fun p => wide (ProcessID p)) ps.

(** An input with two processes that arrive together: in the file the
    longer of the two comes first. *)
Definition tied_arrivals : list Process :=
  [process 1 2 0; process 2 5 3; process 3 3 3; process 4 1 20].

(** The streams of a process that wrote nothing but the error [err]. *)
Definition only_error (err : error) : World := mkWorld "" [err].

(** The output calls of the four schedulers, one scheduler after the
    other. *)
Definition reports `{Renderer} (o1 o2 o3 o4 : Output) : IO unit :=
  _ ← output "First-come, first-serve" o1;
  _ ← output "Shortest-job-first" o2;
  _ ← output "Priority" o3;
  output "Round-robin" o4.

(** How [main] ends once a scheduler has panicked with [v]: the deferred
    [closeFile] runs, and exits with status 1 if the file does not close. *)
Definition panic_answer (f : File) (v : PanicValue) : Answer unit :=
  match fileClose f with
  | None => Panicked v
  | Some _ => Exited 1
  end.

(** A file system for the examples: the one file [in.csv], which holds
    [rows] and closes without an error. *)
Definition one_file (rows : list (list string)) : FileSystem :=
  fun path =>
    if String.eqb path "in.csv" then inl (mkFile (Records rows) None)
    else inr (LibError "open: no such file or directory").

(** * Properties *)

(** ** Arithmetic on 64 bits *)

Ltac int64_consts :=
  change (2 ^ 63) with 9223372036854775808 in *;
  change (2 ^ 64) with 18446744073709551616 in *.

Lemma wrap_in_range z : Int64.in_range (Int64.wrap z).
Proof.
  unfold Int64.in_range, Int64.wrap, Int64.min_int, Int64.max_int.
  pose proof (Z.mod_pos_bound (z + 2 ^ 63) (2 ^ 64) eq_refl).
  int64_consts. lia.
Qed.

Lemma wrap_id z : Int64.in_range z -> Int64.wrap z = z.
Proof.
  unfold Int64.in_range, Int64.wrap, Int64.min_int, Int64.max_int. intros Hz.
  int64_consts. rewrite Z.mod_small by lia. lia.
Qed.

Lemma wrap_add_l a b : Int64.wrap (Int64.wrap a + b) = Int64.wrap (a + b).
Proof.
  unfold Int64.wrap. f_equal.
  replace ((a + 2 ^ 63) mod 2 ^ 64 - 2 ^ 63 + b + 2 ^ 63)
    with ((a + 2 ^ 63) mod 2 ^ 64 + b) by lia.
  rewrite Zplus_mod_idemp_l. f_equal. lia.
Qed.

Lemma wrap_add_r a b : Int64.wrap (a + Int64.wrap b) = Int64.wrap (a + b).
Proof. rewrite Z.add_comm, wrap_add_l. f_equal. lia. Qed.

Lemma wrap_sub_l a b : Int64.wrap (Int64.wrap a - b) = Int64.wrap (a - b).
Proof. unfold Z.sub. apply wrap_add_l. Qed.

Lemma wrap_sub_r a b : Int64.wrap (a - Int64.wrap b) = Int64.wrap (a - b).
Proof.
  unfold Int64.wrap. f_equal.
  replace (a - ((b + 2 ^ 63) mod 2 ^ 64 - 2 ^ 63) + 2 ^ 63)
    with (a + 2 ^ 64 - (b + 2 ^ 63) mod 2 ^ 64) by (int64_consts; lia).
  rewrite Zminus_mod_idemp_r.
  f_equal. int64_consts. lia.
Qed.

Lemma add_in_range a b : Int64.in_range (Int64.add a b).
Proof. apply wrap_in_range. Qed.

Lemma sub_in_range a b : Int64.in_range (Int64.sub a b).
Proof. apply wrap_in_range. Qed.

(** [(t + e) - e] and [(t + e) - t] on 64 bits. *)
Lemma sub_add_cancel t e :
  Int64.in_range t -> Int64.sub (Int64.add t e) e = t.
Proof.
  intros Ht. unfold Int64.sub, Int64.add. rewrite wrap_sub_l.
  replace (t + e - e) with t by lia. by apply wrap_id.
Qed.

Lemma sub_add_cancel_l t e :
  Int64.in_range e -> Int64.sub (Int64.add t e) t = e.
Proof.
  intros He. unfold Int64.sub, Int64.add. rewrite wrap_sub_l.
  replace (t + e - t) with e by lia. by apply wrap_id.
Qed.

Lemma wrap_add_mid a x b :
  Int64.wrap (a + Int64.wrap x + b) = Int64.wrap (a + x + b).
Proof.
  replace (a + Int64.wrap x + b) with (Int64.wrap x + (a + b)) by lia.
  rewrite wrap_add_l. f_equal. lia.
Qed.

(** Equations between 64-bit sums and differences. *)
Ltac wrap_norm :=
  unfold Int64.add, Int64.sub;
  repeat first [rewrite wrap_add_l | rewrite wrap_add_r | rewrite wrap_add_mid
               | rewrite wrap_sub_l | rewrite wrap_sub_r];
  try reflexivity; f_equal; lia.

(** ** [sort.Slice] *)

Lemma sortSlice_length `{SliceSorter} less l : length (sortSlice less l) = length l.
Proof. apply Permutation_length, sortSlice_perm. Qed.

Lemma sortSlice_nil `{SliceSorter} less : sortSlice less [] = [].
Proof. apply Permutation_nil_r, sortSlice_perm. Qed.

(** ** Loops that only read the array *)

Lemma for_range_load {S : Type} (f : nat -> Process -> S -> S) count :
  forall i s mem,
    (i + count <= length mem)%nat ->
    for_range (fun i s => let* p <- load i in ret (f i p s)) i count s mem
    = Ok (fold_indexed f i (take count (drop i mem)) s, mem).
Proof.
  induction count as [|count IH]; intros i s mem Hlen; simpl.
  - done.
  - unfold bind at 1. unfold bind at 1. unfold load.
    destruct (mem !! i) as [p|] eqn:Hp.
    2:{ apply lookup_ge_None in Hp. lia. }
    unfold ret at 1. rewrite IH by lia.
    rewrite (drop_S mem p i Hp). simpl.
    reflexivity.
Qed.

Lemma for_range_load_all {S : Type} (f : nat -> Process -> S -> S) s mem :
  for_range (fun i s => let* p <- load i in ret (f i p s)) 0 (length mem) s mem
  = Ok (fold_indexed f 0 mem s, mem).
Proof. rewrite for_range_load by lia. by rewrite drop_0, firstn_all. Qed.

Lemma FCFSSchedule_eq ps :
  FCFSSchedule ps
  = Ok (FCFS.finish (length ps) (fold_indexed FCFS.step 0 ps (FCFS.init (length ps))), ps).
Proof.
  unfold FCFSSchedule, bind, len. unfold FCFS.body.
  by rewrite for_range_load_all.
Qed.

Lemma SJFPrioritySchedule_eq `{SliceSorter} ps :
  let sorted := sortSlice SJFPriority.less ps in
  SJFPrioritySchedule ps
  = Ok (SJFPriority.finish (length ps)
          (fold_indexed SJFPriority.step 0 sorted (SJFPriority.init (length ps))),
        sorted).
Proof.
  intros sorted. unfold SJFPrioritySchedule, bind, len, sort_in_place.
  unfold SJFPriority.body. fold sorted.
  rewrite <- (sortSlice_length SJFPriority.less ps) at 1. fold sorted.
  by rewrite for_range_load_all.
Qed.


(** ** Result rows *)

Lemma row_consistentb_spec r : row_consistentb r = true <-> row_consistent r.
Proof.
  unfold row_consistentb, row_consistent.
  rewrite !andb_true_iff, !Z.eqb_eq. tauto.
Qed.



(** *** First-come, first-serve *)



(** *** Priority *)



(** *** Shortest-job-first *)

Lemma slot_index n p :
  Int64.in_range (ProcessID p) -> Z.of_nat n <= Int64.max_int ->
  (0 <=? Int64.sub (ProcessID p) 1) && (Int64.sub (ProcessID p) 1 <? Z.of_nat n) = true
  <-> slot_ok n p.
Proof.
  unfold slot_ok, Int64.in_range, Int64.min_int, Int64.max_int. intros Hid Hn.
  rewrite andb_true_iff, Z.leb_le, Z.ltb_lt.
  destruct (decide (ProcessID p = - 2 ^ 63)) as [Hmin|Hmin].
  - rewrite Hmin. change (Int64.sub (- 2 ^ 63) 1) with (2 ^ 63 - 1).
    int64_consts. lia.
  - unfold Int64.sub. rewrite wrap_id; [lia|].
    unfold Int64.in_range, Int64.min_int, Int64.max_int. int64_consts. lia.
Qed.

Lemma slot_ok_sub n p :
  Int64.in_range (ProcessID p) -> slot_ok n p ->
  Int64.sub (ProcessID p) 1 = ProcessID p - 1.
Proof.
  unfold slot_ok, Int64.in_range, Int64.min_int, Int64.max_int. intros Hid Hn.
  unfold Int64.sub. apply wrap_id.
  unfold Int64.in_range, Int64.min_int, Int64.max_int. int64_consts. lia.
Qed.

Lemma SJF_step_ok current s mem :
  Int64.in_range (ProcessID current) ->
  Z.of_nat (length (SJF.schedule s)) <= Int64.max_int ->
  slot_ok (length (SJF.schedule s)) current ->
  exists s',
    SJF.step current s mem = Ok (s', mem) /\
    SJF.schedule s'
    = <[Z.to_nat (ProcessID current - 1) := Some (SJF_row current s)]> (SJF.schedule s) /\
    length (SJF.gantt s') = Datatypes.S (length (SJF.gantt s)).
Proof.
  intros Hid Hn Hslot. unfold SJF.step, bind, store_row.
  pose proof (proj2 (slot_index _ _ Hid Hn) Hslot) as Hb.
  rewrite Hb. unfold ret. eexists. split; [reflexivity|]. simpl.
  rewrite (slot_ok_sub _ _ Hid Hslot). split; [reflexivity|].
  rewrite length_app. simpl. lia.
Qed.

Lemma SJF_step_panic current s mem :
  Int64.in_range (ProcessID current) ->
  Z.of_nat (length (SJF.schedule s)) <= Int64.max_int ->
  ~ slot_ok (length (SJF.schedule s)) current ->
  SJF.step current s mem
  = Panic (IndexOutOfRange (Int64.sub (ProcessID current) 1) (length (SJF.schedule s))).
Proof.
  intros Hid Hn Hslot. unfold SJF.step, bind, store_row.
  destruct ((0 <=? _) && (_ <? _)) eqn:Hb; [|reflexivity].
  by apply slot_index in Hb.
Qed.

(** The loop of [SJFSchedule] completes when every slot exists: it runs its
    body once per process, and the slot of each process holds a row written
    for a process of that id. *)
Lemma SJF_loop_ok remaining :
  forall s mem,
    Forall (fun p => Int64.in_range (ProcessID p)) remaining ->
    Z.of_nat (length (SJF.schedule s)) <= Int64.max_int ->
    Forall (slot_ok (length (SJF.schedule s))) remaining ->
    exists s',
      SJF.loop remaining s mem = Ok (s', mem) /\
      length (SJF.schedule s') = length (SJF.schedule s) /\
      length (SJF.gantt s') = (length (SJF.gantt s) + length remaining)%nat /\
      (forall p, p ∈ remaining ->
         exists p' r,
           p' ∈ remaining /\ ProcessID p' = ProcessID p /\
           SJF.schedule s' !! Z.to_nat (ProcessID p - 1) = Some (Some r) /\
           row_for p' r) /\
      (forall k r, SJF.schedule s !! k = Some (Some r) ->
         exists r', SJF.schedule s' !! k = Some (Some r')
                    /\ (r' = r \/
                        exists p', p' ∈ remaining /\ row_for p' r' /\
                                   Z.to_nat (ProcessID p' - 1) = k /\
                                   1 <= ProcessID p')).
Proof.
  induction remaining as [|current remaining IH]; intros s mem Hids Hn Hslots.
  - exists s. simpl. unfold ret.
    split; [done|]. split; [done|]. split; [lia|]. split.
    + intros p Hp. by apply elem_of_nil in Hp.
    + intros k r Hk. exists r. auto.
  - apply Forall_cons in Hids as [Hid Hids]. apply Forall_cons in Hslots as [Hslot Hslots].
    destruct (SJF_step_ok current s mem Hid Hn Hslot) as (s1 & Hstep & Hsched & Hgantt).
    assert (Hlen1 : length (SJF.schedule s1) = length (SJF.schedule s)).
    { rewrite Hsched. apply length_insert. }
    destruct (IH s1 mem Hids) as (s' & Hloop & Hlen & Hg & Hrows & Hkeep).
    { by rewrite Hlen1. } { by rewrite Hlen1. }
    exists s'. simpl. unfold bind. rewrite Hstep. split; [exact Hloop|].
    split; [congruence|]. split; [lia|].
    assert (Hcur : (Z.to_nat (ProcessID current - 1) < length (SJF.schedule s))%nat).
    { unfold slot_ok in Hslot. lia. }
    assert (Hrow : SJF.schedule s1 !! Z.to_nat (ProcessID current - 1)
                   = Some (Some (SJF_row current s))).
    { rewrite Hsched. by apply list_lookup_insert_eq. }
    assert (Hfor : row_for current (SJF_row current s)) by done.
    unfold slot_ok in Hslot.
    split.
    + intros p Hp. apply elem_of_cons in Hp as [->|Hp].
      * destruct (Hkeep _ _ Hrow) as (r' & Hr' & [->|(p' & Hp' & Hfor' & Hk & Hpos)]).
        -- exists current, (SJF_row current s). split; [left|done].
        -- exists p', r'. split; [by right|]. split; [lia|done].
      * destruct (Hrows p Hp) as (p' & r & Hp' & Hrest).
        exists p', r. split; [by right|done].
    + intros k r Hk.
      destruct (decide (k = Z.to_nat (ProcessID current - 1))) as [->|Hne].
      * destruct (Hkeep _ _ Hrow) as (r' & Hr' & [->|(p' & Hp' & Hrest)]).
        -- eexists. split; [done|]. right. exists current.
           split; [left|]. split; [done|]. split; [done|lia].
        -- exists r'. split; [done|]. right. exists p'. split; [by right|done].
      * destruct (Hkeep k r) as (r' & Hr' & [->|(p' & Hp' & Hrest)]).
        { rewrite Hsched. by rewrite list_lookup_insert_ne. }
        -- exists r. split; [done|by left].
        -- exists r'. split; [done|]. right. exists p'. split; [by right|done].
Qed.

(** The loop stops with an index-out-of-range panic when a slot is missing. *)
Lemma SJF_loop_panic remaining :
  forall s mem,
    Forall (fun p => Int64.in_range (ProcessID p)) remaining ->
    Z.of_nat (length (SJF.schedule s)) <= Int64.max_int ->
    Exists (fun p => ~ slot_ok (length (SJF.schedule s)) p) remaining ->
    exists i, SJF.loop remaining s mem = Panic (IndexOutOfRange i (length (SJF.schedule s))).
Proof.
  induction remaining as [|current remaining IH]; intros s mem Hids Hn Hbad.
  - by apply Exists_nil in Hbad.
  - apply Forall_cons in Hids as [Hid Hids]. simpl. unfold bind.
    destruct (decide (slot_ok (length (SJF.schedule s)) current)) as [Hslot|Hslot].
    + apply Exists_cons in Hbad as [Hbad|Hbad]; [done|].
      destruct (SJF_step_ok current s mem Hid Hn Hslot) as (s1 & Hstep & Hsched & _).
      assert (Hlen1 : length (SJF.schedule s1) = length (SJF.schedule s)).
      { rewrite Hsched. apply length_insert. }
      rewrite Hstep. rewrite <- Hlen1. apply IH; [done| |]; by rewrite Hlen1.
    + rewrite (SJF_step_panic current s mem Hid Hn Hslot). eauto.
Qed.

Lemma SJFSchedule_unfold `{SliceSorter} ps :
  SJFSchedule ps
  = match SJF.loop (sortSlice SJF.less ps) (SJF.init (length ps)) ps with
    | Ok (s, mem) => Ok (SJF.finish (length ps) s, mem)
    | Panic e => Panic e
    | OutOfFuel => OutOfFuel
    end.
Proof.
  unfold SJFSchedule, bind, len, copy_all.
  by destruct (SJF.loop _ _ _) as [[s mem]| |].
Qed.

Lemma SJF_init_schedule_length n : length (SJF.schedule (SJF.init n)) = n.
Proof. simpl. apply length_replicate. Qed.

Lemma wf_process_id p : wf_process p -> Int64.in_range (ProcessID p).
Proof. by intros [? _]. Qed.

Lemma SJFSchedule_ok `{SliceSorter} ps :
  Forall wf_process ps -> Z.of_nat (length ps) <= Int64.max_int ->
  (forall p, p ∈ ps -> slot_ok (length ps) p) ->
  exists out,
    SJFSchedule ps = Ok (out, ps) /\
    length (outSchedule out) = length ps /\
    length (outGantt out) = length ps /\
    forall p, p ∈ ps ->
      exists p' r,
        p' ∈ ps /\ ProcessID p' = ProcessID p /\
        outSchedule out !! Z.to_nat (ProcessID p - 1) = Some (Some r) /\
        row_for p' r.
Proof.
  intros Hwf Hn Hslots. rewrite SJFSchedule_unfold.
  pose proof (sortSlice_perm SJF.less ps) as Hperm.
  destruct (SJF_loop_ok (sortSlice SJF.less ps) (SJF.init (length ps)) ps)
    as (s' & Hloop & Hlen & Hg & Hrows & _).
  - rewrite Hperm. eapply Forall_impl; [exact Hwf|]. apply wf_process_id.
  - by rewrite SJF_init_schedule_length.
  - rewrite SJF_init_schedule_length, Hperm. by apply Forall_forall.
  - rewrite Hloop. eexists. split; [reflexivity|]. simpl.
    rewrite SJF_init_schedule_length in Hlen. split; [done|].
    split. { simpl in Hg. rewrite Hg. by apply Permutation_length. }
    intros p Hp. destruct (Hrows p) as (p' & r & Hp' & Hrest); [by rewrite Hperm|].
    exists p', r. split; [by rewrite <- Hperm|done].
Qed.

Lemma SJFSchedule_panic `{SliceSorter} ps :
  Forall wf_process ps -> Z.of_nat (length ps) <= Int64.max_int ->
  (exists p, p ∈ ps /\ ~ slot_ok (length ps) p) ->
  exists i, SJFSchedule ps = Panic (IndexOutOfRange i (length ps)).
Proof.
  intros Hwf Hn (p & Hp & Hbad). rewrite SJFSchedule_unfold.
  pose proof (sortSlice_perm SJF.less ps) as Hperm.
  destruct (SJF_loop_panic (sortSlice SJF.less ps) (SJF.init (length ps)) ps)
    as (i & Hloop).
  - rewrite Hperm. eapply Forall_impl; [exact Hwf|]. apply wf_process_id.
  - by rewrite SJF_init_schedule_length.
  - rewrite SJF_init_schedule_length. apply Exists_exists. exists p.
    split; [by rewrite Hperm|done].
  - rewrite Hloop, SJF_init_schedule_length. eauto.
Qed.

Lemma SJF_step_mem current s mem :
  (exists s', SJF.step current s mem = Ok (s', mem))
  \/ (exists e, SJF.step current s mem = Panic e).
Proof.
  unfold SJF.step, bind, store_row.
  destruct ((0 <=? _) && (_ <? _)); [left|right]; eexists; reflexivity.
Qed.

Lemma SJF_loop_mem remaining :
  forall s mem,
    (exists s', SJF.loop remaining s mem = Ok (s', mem))
    \/ (exists e, SJF.loop remaining s mem = Panic e).
Proof.
  induction remaining as [|current remaining IH]; intros s mem; simpl.
  - left. by exists s.
  - unfold bind. destruct (SJF_step_mem current s mem) as [[s1 ->]|[e ->]]; [|eauto].
    apply IH.
Qed.

(** [SJFSchedule] returns or panics, and when it returns the caller's slice
    is as it was: the sort works on the copy. *)
Lemma SJFSchedule_frame `{SliceSorter} ps :
  (exists out, SJFSchedule ps = Ok (out, ps)) \/ (exists e, SJFSchedule ps = Panic e).
Proof.
  rewrite SJFSchedule_unfold.
  destruct (SJF_loop_mem (sortSlice SJF.less ps) (SJF.init (length ps)) ps)
    as [[s' ->]|[e ->]]; eauto.
Qed.

(** ** Round-robin: the admission pass *)

(** Removing the element at index [i] from a slice of length [plen] leaves
    the other elements of the slice, in their order, in the first
    [plen - 1] places of the array. *)
Lemma remove_at_spec (i plen : nat) (mem : list Process) p :
  (i + 1 <= plen)%nat -> (plen <= length mem)%nat -> mem !! i = Some p ->
  exists mem',
    RR.remove_at i plen mem = Ok (tt, mem') /\
    length mem' = length mem /\
    take (plen - 1) mem' = take i mem ++ take (plen - (i + 1)) (drop (i + 1) mem) /\
    take plen mem = take i mem ++ p :: take (plen - (i + 1)) (drop (i + 1) mem).
Proof.
  intros Hi Hplen Hp. eexists. split; [reflexivity|].
  assert (Hlen_i : length (take i mem) = i) by (rewrite length_take; lia).
  assert (Hlen_mid : length (take (plen - (i + 1)) (drop (i + 1) mem)) = (plen - (i + 1))%nat).
  { rewrite length_take, length_drop. lia. }
  split; [|split].
  - rewrite !length_app, Hlen_i, Hlen_mid, length_drop. lia.
  - rewrite app_assoc. rewrite take_app_le.
    2:{ rewrite length_app, Hlen_i, Hlen_mid. lia. }
    rewrite firstn_all2; [done|].
    rewrite length_app, Hlen_i, Hlen_mid. lia.
  - rewrite <- (take_drop i mem) at 1.
    rewrite take_app_ge by (rewrite Hlen_i; lia). rewrite Hlen_i.
    f_equal. rewrite (drop_S mem p i Hp).
    replace (plen - i)%nat with (Datatypes.S (plen - (i + 1))) by lia.
    rewrite Nat.add_1_r. reflexivity.
Qed.

(** One step of the admission pass: the process read at index [i] is either
    not eligible, or admitted and removed (when [i] is inside the slice), or
    the slice expression panics (when [i] is beyond it). *)
Lemma admit_body_cases currentTime (i plen : nat) queue (mem : list Process) p :
  mem !! i = Some p -> (plen <= length mem)%nat ->
  (currentTime < ArrivalTime p /\
     RR.admit_body currentTime i (plen, queue) mem = Ok ((plen, queue), mem))
  \/ (ArrivalTime p <= currentTime /\ (i + 1 <= plen)%nat /\
      exists mem',
        RR.admit_body currentTime i (plen, queue) mem
        = Ok (((plen - 1)%nat, queue ++ [p]), mem') /\
        length mem' = length mem /\
        take plen mem ≡ₚ p :: take (plen - 1) mem' /\
        take i mem' = take i mem /\
        (forall j, (plen - 1 <= j)%nat -> mem' !! j = mem !! j) /\
        (forall j, (i <= j)%nat -> (j + 1 < plen)%nat -> mem' !! j = mem !! Datatypes.S j))
  \/ (ArrivalTime p <= currentTime /\ (plen < i + 1)%nat /\
      RR.admit_body currentTime i (plen, queue) mem
      = Panic (SliceBoundsOutOfRange (i + 1) plen)).
Proof.
  intros Hp Hplen. unfold RR.admit_body, bind, load. rewrite Hp.
  destruct (ArrivalTime p <=? currentTime) eqn:Hel.
  2:{ left. apply Z.leb_gt in Hel. done. }
  apply Z.leb_le in Hel. right.
  destruct (i + 1 <=? plen)%nat eqn:Hin.
  - apply Nat.leb_le in Hin. left. split; [done|]. split; [done|].
    destruct (remove_at_spec i plen mem p Hin Hplen Hp) as (mem' & Hrm & Hlen & Htake' & Htake).
    exists mem'. rewrite Hrm. split; [reflexivity|]. split; [done|].
    split. { rewrite Htake, Htake'. by rewrite Permutation_middle. }
    unfold RR.remove_at in Hrm. injection Hrm as <-.
    assert (Hlen_i : length (take i mem) = i) by (rewrite length_take; lia).
    assert (Hlen_mid : length (take (plen - (i + 1)) (drop (i + 1) mem)) = (plen - (i + 1))%nat).
    { rewrite length_take, length_drop. lia. }
    split; [|split].
    + rewrite take_app_le by lia. rewrite firstn_all2; [done|lia].
    + intros j Hj. rewrite lookup_app_r by lia. rewrite Hlen_i.
      rewrite lookup_app_r by lia. rewrite Hlen_mid.
      rewrite lookup_drop. f_equal. lia.
    + intros j Hij Hj. rewrite lookup_app_r by lia. rewrite Hlen_i.
      rewrite lookup_app_l by lia. rewrite lookup_take_lt by lia.
      rewrite lookup_drop. f_equal. lia.
  - apply Nat.leb_gt in Hin. right. split; [done|]. split; [lia|]. reflexivity.
Qed.

Lemma for_range_succ {S : Type} (body : nat -> S -> Go S) i count s mem :
  for_range body i (Datatypes.S count) s mem
  = match body i s mem with
    | Ok (s', mem') => for_range body (Datatypes.S i) count s' mem'
    | Panic e => Panic e
    | OutOfFuel => OutOfFuel
    end.
Proof. reflexivity. Qed.

Lemma admit_body_load_fails currentTime (i plen : nat) queue (mem : list Process) :
  mem !! i = None ->
  RR.admit_body currentTime i (plen, queue) mem
  = Panic (IndexOutOfRange (Z.of_nat i) (length mem)).
Proof. intros Hi. unfold RR.admit_body, bind, load. by rewrite Hi. Qed.

(** A pass that returns kept the processes of the slice and of the queue:
    each admitted process left the slice and joined the back of the queue. *)
Lemma admit_range_perm currentTime count :
  forall (i plen : nat) queue (mem : list Process) plen' queue' mem',
    (plen <= length mem)%nat ->
    for_range (RR.admit_body currentTime) i count (plen, queue) mem
    = Ok ((plen', queue'), mem') ->
    length mem' = length mem /\ (plen' <= plen)%nat /\
    take plen' mem' ++ queue' ≡ₚ take plen mem ++ queue /\
    exists newcomers, queue' = queue ++ newcomers.
Proof.
  induction count as [|count IH]; intros i plen queue mem plen' queue' mem' Hplen Hrun.
  - simpl in Hrun. injection Hrun as <- <- <-.
    repeat split; try done. exists []. by rewrite app_nil_r.
  - rewrite for_range_succ in Hrun.
    destruct (mem !! i) as [p|] eqn:Hp.
    2:{ by rewrite admit_body_load_fails in Hrun. }
    destruct (admit_body_cases currentTime i plen queue mem p Hp Hplen)
      as [[Hlate Hbody]|[(Hel & Hin & mem1 & Hbody & Hlen1 & Hperm1 & _)|(Hel & Hout & Hbody)]];
      rewrite Hbody in Hrun; [| |done].
    + by apply IH in Hrun.
    + apply IH in Hrun as (Hlen & Hle & Hperm & newcomers & Hq); [|lia].
      split; [congruence|]. split; [lia|]. split.
      * rewrite Hperm, Hperm1. rewrite (Permutation_app_comm queue [p]).
        simpl. by rewrite <- Permutation_middle.
      * exists (p :: newcomers). rewrite Hq. by rewrite <- app_assoc.
Qed.

(** A pass that leaves the queue empty admitted nothing: the queue was
    empty, the slice is untouched, and no process it inspected had arrived. *)
Lemma admit_range_nil currentTime count :
  forall (i plen : nat) queue (mem : list Process) plen' mem',
    (plen <= length mem)%nat ->
    for_range (RR.admit_body currentTime) i count (plen, queue) mem
    = Ok ((plen', []), mem') ->
    queue = [] /\ plen' = plen /\ mem' = mem /\
    forall j, (i <= j < i + count)%nat ->
      exists p, mem !! j = Some p /\ currentTime < ArrivalTime p.
Proof.
  induction count as [|count IH]; intros i plen queue mem plen' mem' Hplen Hrun.
  - simpl in Hrun. injection Hrun as <- <- <-. repeat split; try done. lia.
  - rewrite for_range_succ in Hrun.
    destruct (mem !! i) as [p|] eqn:Hp.
    2:{ by rewrite admit_body_load_fails in Hrun. }
    destruct (admit_body_cases currentTime i plen queue mem p Hp Hplen)
      as [[Hlate Hbody]|[(Hel & Hin & mem1 & Hbody & Hlen1 & _)|(Hel & Hout & Hbody)]];
      rewrite Hbody in Hrun; [| |done].
    + apply IH in Hrun as (Hq & Hplen' & Hmem & Hlate'); [|done].
      repeat split; try done. intros j Hj.
      destruct (decide (j = i)) as [->|Hne]; [eauto|]. apply Hlate'. lia.
    + apply admit_range_perm in Hrun as (_ & _ & _ & newcomers & Hq); [|lia].
      symmetry in Hq. apply app_eq_nil in Hq as [Hq _].
      by apply app_eq_nil in Hq as [_ ?].
Qed.

(** The pass has a structural bound. *)
Lemma admit_range_fuel currentTime count :
  forall (i : nat) st (mem : list Process),
    for_range (RR.admit_body currentTime) i count st mem <> OutOfFuel.
Proof.
  induction count as [|count IH]; intros i [plen queue] mem; [done|].
  rewrite for_range_succ.
  destruct (RR.admit_body currentTime i (plen, queue) mem) as [[st1 mem1]|e|] eqn:Hbody;
    [apply IH|done|].
  unfold RR.admit_body, bind, load in Hbody.
  destruct (mem !! i) as [p|]; [|done].
  destruct (ArrivalTime p <=? currentTime); [|done].
  by destruct (i + 1 <=? plen)%nat.
Qed.

(** An admission pass writes to the array only elements that it held. *)
Lemma admit_range_subset currentTime count :
  forall (i plen : nat) queue (mem : list Process) st' mem',
    (plen <= length mem)%nat ->
    for_range (RR.admit_body currentTime) i count (plen, queue) mem = Ok (st', mem') ->
    forall p, p ∈ mem' -> p ∈ mem.
Proof.
  induction count as [|count IH]; intros i plen queue mem st' mem' Hplen Hrun.
  - simpl in Hrun. by injection Hrun as <- <-.
  - rewrite for_range_succ in Hrun.
    destruct (mem !! i) as [p|] eqn:Hp.
    2:{ by rewrite admit_body_load_fails in Hrun. }
    destruct (admit_body_cases currentTime i plen queue mem p Hp Hplen)
      as [[Hlate Hbody]|[(Hel & Hin & mem1 & Hbody & Hlen1 & _ & Hlow & Hhigh & Hmid)
                        |(Hel & Hout & Hbody)]];
      rewrite Hbody in Hrun; [| |done].
    + by eapply IH.
    + intros x Hx.
      assert (Hx1 : x ∈ mem1) by (eapply IH; [|exact Hrun|exact Hx]; lia).
      apply list_elem_of_lookup in Hx1 as [j Hj].
      destruct (decide (j < i)%nat) as [Hji|Hji].
      * apply (list_elem_of_lookup_2 _ j).
        rewrite <- (lookup_take_lt mem i j Hji), <- Hlow. by rewrite lookup_take_lt.
      * destruct (decide (plen - 1 <= j)%nat) as [Hjp|Hjp].
        -- apply (list_elem_of_lookup_2 _ j). by rewrite <- Hhigh.
        -- apply (list_elem_of_lookup_2 _ (Datatypes.S j)).
           rewrite <- Hmid; [done|lia|lia].
Qed.

(** ** Round-robin: the loop *)

Lemma RR_loop_unfold fuel s mem :
  RR.loop fuel s mem
  = if (RR.plen s =? 0)%nat && bool_decide (RR.queue s = []) then Ok (s, mem)
    else
      match fuel with
      | O => OutOfFuel
      | Datatypes.S fuel' =>
          match RR.admission (RR.currentTime s) (RR.plen s) (RR.queue s) mem with
          | Ok ((plen, []), mem') => RR.loop fuel' (RR.idle plen s) mem'
          | Ok ((plen, currentProcess :: queue), mem') =>
              RR.loop fuel' (RR.dispatch currentProcess plen queue s) mem'
          | Panic e => Panic e
          | OutOfFuel => OutOfFuel
          end
      end.
Proof.
  destruct fuel as [|fuel']; simpl.
  - by destruct ((RR.plen s =? 0)%nat && bool_decide (RR.queue s = [])).
  - destruct ((RR.plen s =? 0)%nat && bool_decide (RR.queue s = [])); [done|].
    unfold bind.
    by destruct (RR.admission _ _ _ _) as [[[plen [|c q]] mem']| |].
Qed.

Lemma RR_loop_exit s :
  (RR.plen s =? 0)%nat && bool_decide (RR.queue s = []) = true
  <-> RR.plen s = 0%nat /\ RR.queue s = [].
Proof. by rewrite andb_true_iff, Nat.eqb_eq, bool_decide_eq_true. Qed.

(** A property of the local variables and the array that every iteration
    keeps holds when the loop ends, where the slice and the queue are empty. *)
Lemma RR_loop_invariant (I : RR.State -> list Process -> Prop) :
  (forall s mem plen mem',
     I s mem ->
     RR.admission (RR.currentTime s) (RR.plen s) (RR.queue s) mem = Ok ((plen, []), mem') ->
     I (RR.idle plen s) mem') ->
  (forall s mem plen currentProcess queue mem',
     I s mem ->
     RR.admission (RR.currentTime s) (RR.plen s) (RR.queue s) mem
     = Ok ((plen, currentProcess :: queue), mem') ->
     I (RR.dispatch currentProcess plen queue s) mem') ->
  forall fuel s mem s' mem',
    I s mem -> RR.loop fuel s mem = Ok (s', mem') ->
    I s' mem' /\ RR.plen s' = 0%nat /\ RR.queue s' = [].
Proof.
  intros Hidle Hdispatch fuel.
  induction fuel as [|fuel IH]; intros s mem s' mem' Hs Hrun;
    rewrite RR_loop_unfold in Hrun;
    destruct ((RR.plen s =? 0)%nat && bool_decide (RR.queue s = [])) eqn:Hexit.
  - injection Hrun as <- <-. by apply RR_loop_exit in Hexit.
  - done.
  - injection Hrun as <- <-. by apply RR_loop_exit in Hexit.
  - destruct (RR.admission _ _ _ _) as [[[plen [|c q]] mem1]| |] eqn:Hadmit; [| |done|done].
    + eapply IH; [|exact Hrun]. eapply Hidle; eauto.
    + eapply IH; [|exact Hrun]. eapply Hdispatch; eauto.
Qed.

(** More fuel does not change a run that ended. *)
Lemma RR_loop_fuel_mono fuel :
  forall s mem fuel',
    RR.loop fuel s mem <> OutOfFuel -> (fuel <= fuel')%nat ->
    RR.loop fuel' s mem = RR.loop fuel s mem.
Proof.
  induction fuel as [|fuel IH]; intros s mem fuel' Hrun Hle;
    rewrite RR_loop_unfold in Hrun; rewrite (RR_loop_unfold fuel'), (RR_loop_unfold _ s);
    destruct ((RR.plen s =? 0)%nat && bool_decide (RR.queue s = [])); try done.
  destruct fuel' as [|fuel']; [lia|].
  destruct (RR.admission _ _ _ _) as [[[plen [|c q]] mem1]| |]; try done;
    apply IH; (done || lia).
Qed.

(** ** Round-robin: the accounts of a run *)

Lemma fsum_snoc zs z : fsum (zs ++ [z]) = fadd (fsum zs) (float64 z).
Proof. unfold fsum. by rewrite fold_left_app. Qed.

Lemma last_exit_snoc schedule r : last_exit (schedule ++ [r]) = float64 (rowExit r).
Proof. unfold last_exit. by rewrite last_snoc. Qed.

Lemma map_get_insert (m : gmap Z Z) k v : RR.map_get (<[k := v]> m) k = v.
Proof. unfold RR.map_get. by rewrite lookup_insert_eq. Qed.

Lemma RR_accounts_init n : RR_accounts (RR.init n).
Proof.
  split; simpl; done.
Qed.

Lemma RR_accounts_idle plen s : RR_accounts s -> RR_accounts (RR.idle plen s).
Proof. intros [? ? ? ? ? ? ?]. split; simpl; try done. apply add_in_range. Qed.

Lemma RR_accounts_dispatch currentProcess plen queue s :
  RR_accounts s -> RR_accounts (RR.dispatch currentProcess plen queue s).
Proof.
  intros [Htime Hwait Hturn Hlast Hgantt Hdwait Hrows]. unfold RR.dispatch.
  rewrite !map_get_insert.
  destruct (0 <? _) eqn:Hrest; split; simpl;
    rewrite ?fmap_app, ?List.filter_app; simpl;
    rewrite ?fsum_snoc, ?last_exit_snoc, ?app_nil_r;
    try done; try apply add_in_range;
    try (by rewrite Hwait); try (by rewrite Hturn);
    try (rewrite Hgantt; f_equal; unfold slice_of; simpl; by rewrite sub_add_cancel);
    try (apply Forall_app; split; [done|]; by constructor).
  apply Forall2_app; [done|]. by repeat constructor.
Qed.

Lemma RR_loop_accounts fuel s mem s' mem' :
  RR_accounts s -> RR.loop fuel s mem = Ok (s', mem') -> RR_accounts s'.
Proof.
  intros Hs Hrun.
  apply (RR_loop_invariant (fun s _ => RR_accounts s)) in Hrun as [? _]; try done.
  - intros. by apply RR_accounts_idle.
  - intros. by apply RR_accounts_dispatch.
Qed.

Lemma RR_run_unfold `{SliceSorter} fuel ps :
  RR_run fuel ps = RR.loop fuel (RR.init (length ps)) (sortSlice RR.less ps).
Proof. reflexivity. Qed.

Lemma RRSchedule_unfold `{SliceSorter} fuel ps :
  RRSchedule fuel ps
  = match RR_run fuel ps with
    | Ok (s, mem) => Ok (RR.finish s, mem)
    | Panic e => Panic e
    | OutOfFuel => OutOfFuel
    end.
Proof. unfold RRSchedule, bind. by destruct (RR_run fuel ps) as [[s mem]| |]. Qed.

Lemma RRSchedule_Ok `{SliceSorter} fuel ps out mem :
  RRSchedule fuel ps = Ok (out, mem) ->
  exists s, RR_run fuel ps = Ok (s, mem) /\ out = RR.finish s.
Proof.
  rewrite RRSchedule_unfold. destruct (RR_run fuel ps) as [[s mem']| |]; [|done|done].
  intros [= <- <-]. eauto.
Qed.

Lemma RR_run_accounts `{SliceSorter} fuel ps s mem :
  RR_run fuel ps = Ok (s, mem) -> RR_accounts s.
Proof. rewrite RR_run_unfold. apply RR_loop_accounts, RR_accounts_init. Qed.

(** Over a run of [RRSchedule], the array behind the caller's slice keeps
    its length and holds only processes that the input held. *)
Lemma RR_run_caller_slice `{SliceSorter} fuel ps s mem :
  RR_run fuel ps = Ok (s, mem) ->
  length mem = length ps /\ forall p, p ∈ mem -> p ∈ ps.
Proof.
  rewrite RR_run_unfold. intros Hrun.
  apply (RR_loop_invariant
           (fun s mem => (RR.plen s <= length mem)%nat /\ length mem = length ps
                         /\ forall p, p ∈ mem -> p ∈ ps)) in Hrun
    as [(_ & ? & ?) _]; [done| | |].
  - intros s0 mem0 plen mem1 (Hplen & Hlen & Hsub) Hadm. unfold RR.admission in Hadm.
    pose proof (admit_range_subset _ _ _ _ _ _ _ _ Hplen Hadm) as Hsub1.
    apply admit_range_perm in Hadm as (Hlen1 & Hle & _); [|done].
    simpl. split; [lia|]. split; [congruence|]. auto.
  - intros s0 mem0 plen c q mem1 (Hplen & Hlen & Hsub) Hadm. unfold RR.admission in Hadm.
    pose proof (admit_range_subset _ _ _ _ _ _ _ _ Hplen Hadm) as Hsub1.
    apply admit_range_perm in Hadm as (Hlen1 & Hle & _); [|done].
    assert (Hp : RR.plen (RR.dispatch c plen q s0) = plen).
    { unfold RR.dispatch. by destruct (0 <? _). }
    rewrite Hp. split; [lia|]. split; [congruence|]. auto.
  - simpl. rewrite sortSlice_length. split; [done|]. split; [done|].
    intros p. by rewrite (sortSlice_perm RR.less ps).
Qed.

(** ** Round-robin: executed time and remaining work *)

Lemma Zsum_app xs ys : Zsum (xs ++ ys) = Zsum xs + Zsum ys.
Proof. unfold Zsum. induction xs as [|x xs IH]; simpl; lia. Qed.

Lemma Zsum_perm xs ys : xs ≡ₚ ys -> Zsum xs = Zsum ys.
Proof. unfold Zsum. induction 1; simpl; lia. Qed.

Lemma demand_perm id ps qs : ps ≡ₚ qs -> demand id ps = demand id qs.
Proof. intros Hperm. unfold demand. apply Zsum_perm. by rewrite Hperm. Qed.

Lemma demand_cons id p ps :
  demand id (p :: ps)
  = (if decide (ProcessID p = id) then BurstDuration p else 0) + demand id ps.
Proof.
  unfold demand. rewrite filter_cons.
  destruct (decide (ProcessID p = id)); simpl; [reflexivity|lia].
Qed.

Lemma demand_app id ps qs : demand id (ps ++ qs) = demand id ps + demand id qs.
Proof. unfold demand. by rewrite filter_app, fmap_app, Zsum_app. Qed.

Lemma served_snoc id gantt ts :
  served id (gantt ++ [ts])
  = served id gantt + (if decide (PID ts = id) then duration ts else 0).
Proof.
  unfold served. rewrite filter_app, fmap_app, Zsum_app. f_equal.
  rewrite filter_cons, filter_nil.
  destruct (decide (PID ts = id)); simpl; [lia|reflexivity].
Qed.

Lemma demand_absent id ps : id ∉ ProcessID <$> ps -> demand id ps = 0.
Proof.
  induction ps as [|q ps IH]; intros Hid; [done|].
  rewrite fmap_cons in Hid. apply not_elem_of_cons in Hid as [Hq Hid].
  rewrite demand_cons, decide_False by done. by rewrite IH.
Qed.

(** Under distinct ids the demand for the id of [p] is the burst of [p]. *)
Lemma demand_unique ps p :
  NoDup (ProcessID <$> ps) -> p ∈ ps -> demand (ProcessID p) ps = BurstDuration p.
Proof.
  induction ps as [|q ps IH]; intros Hnd Hp; [by apply elem_of_nil in Hp|].
  rewrite fmap_cons in Hnd. apply NoDup_cons in Hnd as [Hq Hnd].
  rewrite demand_cons. apply elem_of_cons in Hp as [->|Hp].
  - rewrite decide_True by done. rewrite demand_absent by done. lia.
  - rewrite decide_False; [by rewrite IH|].
    intros Heq. apply Hq. rewrite Heq. by apply list_elem_of_fmap_2.
Qed.

Lemma RR_admit_perm s mem plen queue mem' :
  (RR.plen s <= length mem)%nat ->
  RR.admission (RR.currentTime s) (RR.plen s) (RR.queue s) mem = Ok ((plen, queue), mem') ->
  (plen <= length mem')%nat /\
  take plen mem' ++ queue ≡ₚ take (RR.plen s) mem ++ RR.queue s.
Proof.
  intros Hplen Hadmit. unfold RR.admission in Hadmit.
  apply admit_range_perm in Hadmit as (Hlen & Hle & Hperm & _); [|done].
  split; [lia|done].
Qed.

Lemma RR_work_idle total s mem plen mem' :
  RR_work total s mem ->
  RR.admission (RR.currentTime s) (RR.plen s) (RR.queue s) mem = Ok ((plen, []), mem') ->
  RR_work total (RR.idle plen s) mem'.
Proof.
  intros [Hplen Htime Hbursts Hquantum Htotal] Hadmit.
  apply RR_admit_perm in Hadmit as [Hplen' Hperm]; [|done].
  split; simpl; try done.
  - apply add_in_range.
  - by rewrite Hperm.
  - intros id. rewrite (demand_perm id _ _ Hperm). apply Htotal.
Qed.

(** The time executed by a dispatch and the burst left after it. *)
Lemma RR_exec_split b :
  Int64.in_range b ->
  let execTime := if b <? quantum then b else quantum in
  Int64.in_range execTime /\ execTime <= quantum /\
  0 <= Int64.sub b execTime /\ execTime + Int64.sub b execTime = b.
Proof.
  intros Hb. unfold quantum, Int64.sub. destruct (b <? 4) eqn:Hlt.
  - apply Z.ltb_lt in Hlt. rewrite Z.sub_diag. change (Int64.wrap 0) with 0.
    split; [done|]. lia.
  - apply Z.ltb_ge in Hlt.
    assert (Hb4 : Int64.in_range (b - 4)).
    { revert Hb. unfold Int64.in_range, Int64.min_int, Int64.max_int.
      int64_consts. lia. }
    rewrite (wrap_id _ Hb4). split; [|lia].
    unfold Int64.in_range, Int64.min_int, Int64.max_int. int64_consts. lia.
Qed.

Lemma RR_work_dispatch total s mem plen currentProcess queue mem' :
  RR_work total s mem ->
  RR.admission (RR.currentTime s) (RR.plen s) (RR.queue s) mem
  = Ok ((plen, currentProcess :: queue), mem') ->
  RR_work total (RR.dispatch currentProcess plen queue s) mem'.
Proof.
  intros [Hplen Htime Hbursts Hquantum Htotal] Hadmit.
  apply RR_admit_perm in Hadmit as [Hplen' Hperm]; [|done].
  rewrite <- Hperm in Hbursts.
  assert (Hperm' : take plen mem' ++ currentProcess :: queue
                   ≡ₚ currentProcess :: (take plen mem' ++ queue))
    by (by rewrite Permutation_middle).
  rewrite Hperm' in Hbursts. apply Forall_cons in Hbursts as [Hb Hrest].
  destruct (RR_exec_split (BurstDuration currentProcess) Hb) as (Hexec & Hq & Hleft & Hsplit).
  assert (Hdur : forall e, Int64.in_range e ->
            duration (mkTimeSlice (ProcessID currentProcess)
                        (Int64.sub (Int64.add (RR.currentTime s) e) e)
                        (Int64.add (RR.currentTime s) e)) = e).
  { intros e He. unfold duration. simpl.
    rewrite sub_add_cancel by done. by apply sub_add_cancel_l. }
  assert (Htotal' : forall id,
            served id (RR.gantt s)
            + ((if decide (ProcessID currentProcess = id)
                then BurstDuration currentProcess else 0)
               + demand id (take plen mem' ++ queue)) = total id).
  { intros id. rewrite <- demand_cons, <- (demand_perm id _ _ Hperm').
    rewrite (demand_perm id _ _ Hperm). apply Htotal. }
  unfold RR.dispatch.
  destruct (0 <? _) eqn:Hmore; split; simpl; try done; try apply add_in_range.
  - rewrite app_assoc. apply Forall_app. split; [done|].
    constructor; [|done]. simpl. apply sub_in_range.
  - apply Forall_app. split; [done|]. constructor; [|done]. by rewrite Hdur.
  - intros id. rewrite served_snoc, Hdur by done. simpl.
    rewrite app_assoc, demand_app, demand_cons. simpl.
    change (demand id []) with 0.
    specialize (Htotal' id). destruct (decide (ProcessID currentProcess = id)); lia.
  - apply Forall_app. split; [done|]. constructor; [|done]. by rewrite Hdur.
  - intros id. rewrite served_snoc, Hdur by done. simpl.
    apply Z.ltb_ge in Hmore.
    specialize (Htotal' id). destruct (decide (ProcessID currentProcess = id)); lia.
Qed.

Lemma RR_loop_work total fuel s mem s' mem' :
  RR_work total s mem -> RR.loop fuel s mem = Ok (s', mem') ->
  forall id, served id (RR.gantt s') = total id.
Proof.
  intros Hs Hrun.
  apply (RR_loop_invariant (RR_work total)) in Hrun as ([_ _ _ _ Htotal] & Hplen & Hqueue);
    try done.
  - intros id. specialize (Htotal id). rewrite Hplen, Hqueue in Htotal.
    change (demand id (take 0 mem' ++ [])) with 0 in Htotal. lia.
  - intros. by eapply RR_work_idle.
  - intros. by eapply RR_work_dispatch.
Qed.

Lemma RR_loop_quantum total fuel s mem s' mem' :
  RR_work total s mem -> RR.loop fuel s mem = Ok (s', mem') ->
  Forall (fun ts => duration ts <= quantum) (RR.gantt s').
Proof.
  intros Hs Hrun.
  apply (RR_loop_invariant (RR_work total)) in Hrun as ([_ _ _ Hq _] & _); try done.
  - intros. by eapply RR_work_idle.
  - intros. by eapply RR_work_dispatch.
Qed.

Lemma RR_work_init `{SliceSorter} ps :
  Forall wf_process ps ->
  RR_work (fun id => demand id ps) (RR.init (length ps)) (sortSlice RR.less ps).
Proof.
  intros Hwf. pose proof (sortSlice_perm RR.less ps) as Hperm.
  assert (Htake : take (length ps) (sortSlice RR.less ps) = sortSlice RR.less ps).
  { apply firstn_all2. by rewrite sortSlice_length. }
  split; simpl; rewrite ?Htake, ?app_nil_r; try done.
  - by rewrite sortSlice_length.
  - rewrite Hperm. eapply Forall_impl; [exact Hwf|]. by intros p (_ & _ & ? & _).
  - intros id. unfold served. simpl. by rewrite (demand_perm id _ _ Hperm).
Qed.

(** ** Round-robin: the loop halts *)

Lemma RR_halts_exit s mem :
  RR.plen s = 0%nat -> RR.queue s = [] -> RR_halts 0 s mem.
Proof.
  intros Hplen Hqueue. unfold RR_halts. rewrite RR_loop_unfold.
  by rewrite (proj2 (RR_loop_exit s)).
Qed.

Lemma RR_halts_step fuel s mem :
  match RR.admission (RR.currentTime s) (RR.plen s) (RR.queue s) mem with
  | Ok ((plen, []), mem') => RR_halts fuel (RR.idle plen s) mem'
  | Ok ((plen, currentProcess :: queue), mem') =>
      RR_halts fuel (RR.dispatch currentProcess plen queue s) mem'
  | _ => True
  end ->
  RR_halts (Datatypes.S fuel) s mem.
Proof.
  unfold RR_halts. intros Hnext. rewrite RR_loop_unfold.
  destruct ((RR.plen s =? 0)%nat && bool_decide (RR.queue s = [])); [done|].
  destruct (RR.admission _ _ _ _) as [[[plen [|c q]] mem']| |] eqn:Hadmit; try done.
  by apply admit_range_fuel in Hadmit.
Qed.

(** An idle iteration: no process of the slice has arrived, the first of
    them arrives later than [currentTime], and the clock moves on by one
    without wrapping. *)
Lemma RR_idle_step s mem plen mem' :
  RR_bounded s mem ->
  (RR.plen s =? 0)%nat && bool_decide (RR.queue s = []) = false ->
  RR.admission (RR.currentTime s) (RR.plen s) (RR.queue s) mem = Ok ((plen, []), mem') ->
  RR_bounded (RR.idle plen s) mem' /\
  take plen mem' ++ [] ≡ₚ take (RR.plen s) mem ++ RR.queue s /\
  RR.currentTime (RR.idle plen s) = RR.currentTime s + 1 /\
  RR.currentTime s < Int64.max_int.
Proof.
  intros [Hplen Htime Hprocs] Hexit Hadmit.
  pose proof (RR_admit_perm s mem plen [] mem' Hplen Hadmit) as [Hplen' Hperm].
  unfold RR.admission in Hadmit.
  apply admit_range_nil in Hadmit as (Hqueue & -> & -> & Hlate); [|done].
  assert (Hpos : RR.plen s <> 0%nat).
  { intros Hzero. rewrite (proj2 (RR_loop_exit s)) in Hexit; done. }
  destruct (Hlate 0%nat) as (p & Hp & Hlt); [lia|].
  assert (Hin : p ∈ take (RR.plen s) mem ++ RR.queue s).
  { apply elem_of_app. left. apply list_elem_of_lookup. exists 0%nat.
    rewrite lookup_take_lt by lia. done. }
  rewrite Forall_forall in Hprocs. destruct (Hprocs p Hin) as [[_ Harr] _].
  assert (Hnext : Int64.add (RR.currentTime s) 1 = RR.currentTime s + 1).
  { unfold Int64.add. apply wrap_id. revert Htime Harr.
    unfold Int64.in_range, Int64.min_int, Int64.max_int. int64_consts. lia. }
  split; [|split; [done|split; [done|lia]]].
  split; simpl; [done|apply add_in_range|].
  rewrite Hperm. by apply Forall_forall.
Qed.

(** A dispatch: the process taken from the queue needs one dispatch less. *)
Lemma RR_dispatch_step s mem plen currentProcess queue mem' :
  RR_bounded s mem ->
  RR.admission (RR.currentTime s) (RR.plen s) (RR.queue s) mem
  = Ok ((plen, currentProcess :: queue), mem') ->
  let s' := RR.dispatch currentProcess plen queue s in
  RR_bounded s' mem' /\
  (sum_list_with weight (take (RR.plen s') mem' ++ RR.queue s')
   < sum_list_with weight (take (RR.plen s) mem ++ RR.queue s))%nat.
Proof.
  intros [Hplen Htime Hprocs] Hadmit. cbv zeta.
  apply RR_admit_perm in Hadmit as [Hplen' Hperm]; [|done].
  assert (Hperm' : take (RR.plen s) mem ++ RR.queue s
                   ≡ₚ currentProcess :: (take plen mem' ++ queue))
    by (by rewrite <- Hperm, Permutation_middle).
  rewrite Hperm'. rewrite Hperm' in Hprocs.
  apply Forall_cons in Hprocs as [[Harr Hb] Hrest].
  destruct (RR_exec_split (BurstDuration currentProcess) Hb) as (Hexec & Hq & Hleft & Hsplit).
  unfold RR.dispatch. destruct (0 <? _) eqn:Hmore; simpl.
  - apply Z.ltb_lt in Hmore. split.
    + split; simpl; [done|apply add_in_range|].
      rewrite app_assoc. apply Forall_app. split; [done|].
      constructor; [|done]. simpl. split; [apply add_in_range|apply sub_in_range].
    + rewrite app_assoc, sum_list_with_app. simpl.
      unfold weight at 2 3. simpl. unfold quantum in *.
      destruct (BurstDuration currentProcess <? 4) eqn:Hlt; lia.
  - split.
    + split; simpl; [done|apply add_in_range|done].
    + unfold weight at 2. lia.
Qed.

(** Every run of the loop ends: a dispatch takes away remaining work, and an
    idle iteration brings the clock nearer to the largest 64-bit value,
    which no arrival time exceeds. *)
Lemma RR_loop_halts work :
  forall slack s mem,
    RR_bounded s mem ->
    (sum_list_with weight (take (RR.plen s) mem ++ RR.queue s) <= work)%nat ->
    Int64.max_int - RR.currentTime s <= Z.of_nat slack ->
    exists fuel, RR_halts fuel s mem.
Proof.
  induction work as [work IHwork] using lt_wf_ind.
  induction slack as [|slack IHslack]; intros s mem Hs Hwork Hslack.
  all: destruct ((RR.plen s =? 0)%nat && bool_decide (RR.queue s = [])) eqn:Hexit;
    [apply RR_loop_exit in Hexit as [? ?]; exists 0%nat; by apply RR_halts_exit|].
  all: destruct (RR.admission (RR.currentTime s) (RR.plen s) (RR.queue s) mem)
         as [[[plen [|c q]] mem']| |] eqn:Hadmit.
  all: try (exists 1%nat; apply RR_halts_step; by rewrite Hadmit).
  - destruct (RR_idle_step s mem plen mem' Hs Hexit Hadmit) as (_ & _ & _ & Hlt). lia.
  - destruct (RR_dispatch_step s mem plen c q mem' Hs Hadmit) as [Hs' Hless].
    destruct (IHwork (sum_list_with weight
                        (take (RR.plen (RR.dispatch c plen q s)) mem'
                         ++ RR.queue (RR.dispatch c plen q s))))
      with (slack := Z.to_nat (Int64.max_int - RR.currentTime (RR.dispatch c plen q s)))
           (s := RR.dispatch c plen q s) (mem := mem') as [fuel Hfuel];
      [lia|done|lia|lia|].
    exists (Datatypes.S fuel). apply RR_halts_step. by rewrite Hadmit.
  - destruct (RR_idle_step s mem plen mem' Hs Hexit Hadmit) as (Hs' & Hperm & Htime & Hlt).
    destruct (IHslack (RR.idle plen s) mem') as [fuel Hfuel]; [done| |lia|].
    { simpl. by rewrite Hperm. }
    exists (Datatypes.S fuel). apply RR_halts_step. by rewrite Hadmit.
  - destruct (RR_dispatch_step s mem plen c q mem' Hs Hadmit) as [Hs' Hless].
    destruct (IHwork (sum_list_with weight
                        (take (RR.plen (RR.dispatch c plen q s)) mem'
                         ++ RR.queue (RR.dispatch c plen q s))))
      with (slack := Z.to_nat (Int64.max_int - RR.currentTime (RR.dispatch c plen q s)))
           (s := RR.dispatch c plen q s) (mem := mem') as [fuel Hfuel];
      [lia|done|lia|lia|].
    exists (Datatypes.S fuel). apply RR_halts_step. by rewrite Hadmit.
Qed.

Lemma RR_bounded_init `{SliceSorter} ps :
  Forall wf_process ps -> RR_bounded (RR.init (length ps)) (sortSlice RR.less ps).
Proof.
  intros Hwf. split; simpl.
  - by rewrite sortSlice_length.
  - done.
  - rewrite app_nil_r, firstn_all2 by (by rewrite sortSlice_length).
    rewrite (sortSlice_perm RR.less ps).
    eapply Forall_impl; [exact Hwf|]. by intros p (_ & ? & ? & _).
Qed.

(** [RRSchedule] ends on every input of 64-bit values, and from the fuel
    that suffices on, the result no longer depends on the fuel. *)
Lemma RRSchedule_halts `{SliceSorter} ps :
  Forall wf_process ps ->
  exists fuel,
    RRSchedule fuel ps <> OutOfFuel /\
    forall fuel', (fuel <= fuel')%nat -> RRSchedule fuel' ps = RRSchedule fuel ps.
Proof.
  intros Hwf.
  destruct (RR_loop_halts
              (sum_list_with weight (take (length ps) (sortSlice RR.less ps) ++ []))
              (Z.to_nat Int64.max_int)
              (RR.init (length ps)) (sortSlice RR.less ps))
    as [fuel Hfuel].
  - by apply RR_bounded_init.
  - done.
  - simpl. unfold Int64.max_int. int64_consts. lia.
  - exists fuel. unfold RR_halts in Hfuel. split.
    + rewrite RRSchedule_unfold, RR_run_unfold.
      by destruct (RR.loop _ _ _) as [[s mem]| |].
    + intros fuel' Hle. rewrite !RRSchedule_unfold, !RR_run_unfold.
      by rewrite (RR_loop_fuel_mono fuel _ _ fuel').
Qed.

(** ** Inputs of 64-bit values, decided *)

Lemma in_rangeb_spec z : in_rangeb z = true -> Int64.in_range z.
Proof.
  unfold in_rangeb, Int64.in_range. rewrite andb_true_iff, !Z.leb_le. tauto.
Qed.

Lemma wf_processb_spec ps : forallb wf_processb ps = true -> Forall wf_process ps.
Proof.
  rewrite forallb_forall, Forall_forall. intros Hall p Hp.
  apply list_elem_of_In, Hall in Hp. unfold wf_processb in Hp.
  rewrite !andb_true_iff in Hp. destruct Hp as [[[? ?] ?] ?].
  repeat split; by apply in_rangeb_spec.
Qed.

(** * The claims *)

(** ** Round-robin on the example input *)

(** C1: the claim gives, for the input [{id:1,burst:5,arrival:0},
    {id:2,burst:3,arrival:0}], the timeline P1 [0,4), P2 [4,7), P1 [7,8) and
    the turnarounds 7 and 8. On that input [RRSchedule] does not return: in
    the first admission pass, P1 is admitted at index 0 and removed, which
    leaves a slice of length 1; at index 1 the pass reads the stale copy of
    P2, appends it to the queue, and [processes[2:]] panics with slice
    bounds out of range [2:1]. No timeline and no row is produced, in
    whichever order [sort.Slice] leaves the two processes, which arrive
    together. *)
Theorem RRSchedule_example_panics `{SliceSorter} (fuel : nat) :
  RRSchedule (Datatypes.S fuel) [process 1 5 0; process 2 3 0]
  = Panic (SliceBoundsOutOfRange 2 1).
Proof.
  rewrite RRSchedule_unfold, RR_run_unfold.
  destruct (Permutation_length_2_inv
              (Permutation_sym (sortSlice_perm RR.less [process 1 5 0; process 2 3 0])))
    as [-> | ->]; reflexivity.
Qed.

(** The same two processes with P2 arriving at time 1 pass the admission:
    the timeline is P1 [0,4), P1 [4,5), P2 [5,8), and the rows give the
    turnarounds 1 and 11, where the completion times less the arrival times
    are 5 and 7. *)
Example RRSchedule_staggered_example :
  (fun out => (outGantt out, outSchedule out))
    <$> output_of (RRSchedule 10 [process 1 5 0; process 2 3 1])
  = Some ([mkTimeSlice 1 0 4; mkTimeSlice 1 4 5; mkTimeSlice 2 5 8],
          [Some (mkRow 1 0 1 4 0 1 5); Some (mkRow 2 0 3 (-3) 4 11 8)]).
Proof. reflexivity. Qed.

(** ** Waiting time in first-come, first-serve *)

(** C2: the claim asks for the wait [max(0, serviceTime - arrivalTime)] for
    every process. [FCFSSchedule] recomputes the wait only when
    [ArrivalTime > 0], and without the [max]: on [{1,5,0},{2,3,0}] the second
    process is given the wait 0 left by the first, where the claim asks 5;
    on [{1,5,10}] the wait is -10, where the claim asks 0. *)
Theorem FCFS_wait_is_stale_or_negative :
  waits <$> output_of (FCFSSchedule [process 1 5 0; process 2 3 0])
  = Some [Some 0; Some 0]
  /\ FCFS_claimed_waits 0 [process 1 5 0; process 2 3 0] = [0; 5]
  /\ waits <$> output_of (FCFSSchedule [process 1 5 10]) = Some [Some (-10)]
  /\ FCFS_claimed_waits 0 [process 1 5 10] = [0].
Proof. repeat split. Qed.

(** ** The identities between the columns *)

(** C4: the claim holds of [FCFSSchedule] and [SJFPrioritySchedule] (the two
    lemmas that follow) and, for its second identity, fails of [SJFSchedule], which takes the time the
    processor idles before a process for its wait. On [{1,8,0},{2,4,1}] the row of P2 has wait 1, turnaround 5
    and exit 5 for the arrival 1, and the row of P1 has wait 0, turnaround 8
    and exit 13 for the arrival 0: the turnaround is not the exit less the
    arrival, in neither row. *)
Theorem SJF_rows_break_identities :
  outSchedule <$> output_of (SJFSchedule [process 1 8 0; process 2 4 1])
  = Some [Some (mkRow 1 0 8 0 0 8 13); Some (mkRow 2 0 4 1 1 5 5)]
  /\ row_consistentb (mkRow 1 0 8 0 0 8 13) = false
  /\ row_consistentb (mkRow 2 0 4 1 1 5 5) = false
  /\ Int64.sub (rowExit (mkRow 2 0 4 1 1 5 5)) (rowArrival (mkRow 2 0 4 1 1 5 5)) = 4.
Proof. repeat split. Qed.



(** ** The admission pass *)

(** C6: at time 0 with the remaining list [{1,1,0},{2,1,0},{3,1,10}], the
    pass admits P1 only: removing P1 moves P2 to index 0, which the pass has
    left behind it, so the eligible P2 stays in the list (the [i--] of the
    source does not move the range loop back). With the remaining list
    [{1,1,0},{2,1,0}] the pass appends P2 to the queue from the stale copy at
    index 1 and panics. The claim asks, in both cases, for P1 then P2 in the
    queue. *)
Theorem RR_admit_skips_eligible :
  RR.admission 0 3 [] [process 1 1 0; process 2 1 0; process 3 1 10]
  = Ok ((2%nat, [process 1 1 0]),
        [process 2 1 0; process 3 1 10; process 3 1 10])
  /\ admission_claimed 0 [process 1 1 0; process 2 1 0; process 3 1 10] []
     = ([process 3 1 10], [process 1 1 0; process 2 1 0])
  /\ RR.admission 0 2 [] [process 1 1 0; process 2 1 0]
     = Panic (SliceBoundsOutOfRange 2 1)
  /\ admission_claimed 0 [process 1 1 0; process 2 1 0] []
     = ([], [process 1 1 0; process 2 1 0]).
Proof. repeat split. Qed.

(** *** When every remaining process has arrived *)

(** Once the pass has admitted a process, it panics before its end if every
    process of the array has arrived: the range still runs to the length the
    slice had, which the slice no longer has. *)
Lemma admit_range_all_arrived currentTime count :
  forall (i plen : nat) queue (mem : list Process),
    Forall (fun p => ArrivalTime p <= currentTime) mem ->
    (0 < count)%nat -> (plen < i + count)%nat -> (i + count <= length mem)%nat ->
    (plen <= length mem)%nat ->
    exists low high,
      for_range (RR.admit_body currentTime) i count (plen, queue) mem
      = Panic (SliceBoundsOutOfRange low high).
Proof.
  induction count as [|count IH]; intros i plen queue mem Harrived Hcount Hshort Hlen Hplen;
    [lia|].
  rewrite for_range_succ.
  destruct (mem !! i) as [p|] eqn:Hp.
  2:{ apply lookup_ge_None in Hp. lia. }
  assert (Hdue : ArrivalTime p <= currentTime).
  { rewrite Forall_forall in Harrived. apply Harrived. by eapply list_elem_of_lookup_2. }
  destruct (admit_body_cases currentTime i plen queue mem p Hp Hplen)
    as [[Hlate _]|[(_ & Hin & mem1 & Hbody & Hlen1 & _ & Hlow & Hhigh & Hmid)
                  |(_ & Hout & Hbody)]]; [lia| |].
  - rewrite Hbody. apply IH; try lia.
    rewrite Forall_forall. intros x Hx.
    rewrite Forall_forall in Harrived. apply Harrived.
    apply (admit_range_subset currentTime 1 i plen queue mem
             ((plen - 1)%nat, queue ++ [p]) mem1 Hplen); [|done].
    rewrite for_range_succ, Hbody. reflexivity.
  - rewrite Hbody. eauto.
Qed.

(** The admission pass panics on a slice of two or more processes that have
    all arrived. *)
Lemma admission_all_arrived_panics currentTime queue (mem : list Process) :
  (2 <= length mem)%nat ->
  Forall (fun p => ArrivalTime p <= currentTime) mem ->
  exists low high,
    RR.admission currentTime (length mem) queue mem
    = Panic (SliceBoundsOutOfRange low high).
Proof.
  intros Hlen Harrived. unfold RR.admission.
  destruct (length mem) as [|n] eqn:Hn; [lia|].
  rewrite for_range_succ.
  destruct (mem !! 0%nat) as [p|] eqn:Hp.
  2:{ apply lookup_ge_None in Hp. lia. }
  assert (Hdue : ArrivalTime p <= currentTime).
  { rewrite Forall_forall in Harrived. apply Harrived. by eapply list_elem_of_lookup_2. }
  destruct (admit_body_cases currentTime 0 (Datatypes.S n) queue mem p Hp ltac:(lia))
    as [[Hlate _]|[(_ & Hin & mem1 & Hbody & Hlen1 & _)|(_ & Hout & Hbody)]]; [lia| |lia].
  rewrite Hbody. apply admit_range_all_arrived; try lia.
  rewrite Forall_forall. intros x Hx.
  rewrite Forall_forall in Harrived. apply Harrived.
  apply (admit_range_subset currentTime 1 0 (Datatypes.S n) queue mem
           ((Datatypes.S n - 1)%nat, queue ++ [p]) mem1 ltac:(lia)); [|done].
  rewrite for_range_succ, Hbody. reflexivity.
Qed.

(** [RRSchedule] panics in its first admission pass on every input of two or
    more processes that have all arrived at time 0. *)
Theorem RRSchedule_all_arrived_panics `{SliceSorter} (fuel : nat) (ps : list Process) :
  (2 <= length ps)%nat ->
  Forall (fun p => ArrivalTime p <= 0) ps ->
  exists low high,
    RRSchedule (Datatypes.S fuel) ps = Panic (SliceBoundsOutOfRange low high).
Proof.
  intros Hlen Harrived. rewrite RRSchedule_unfold, RR_run_unfold, RR_loop_unfold.
  assert (Hexit : (RR.plen (RR.init (length ps)) =? 0)%nat
                  && bool_decide (RR.queue (RR.init (length ps)) = []) = false).
  { simpl. destruct (length ps); [lia|done]. }
  rewrite Hexit. simpl RR.currentTime. simpl RR.plen. simpl RR.queue.
  rewrite <- (sortSlice_length RR.less ps).
  destruct (admission_all_arrived_panics 0 [] (sortSlice RR.less ps))
    as (low & high & Hpanic).
  - by rewrite sortSlice_length.
  - by rewrite (sortSlice_perm RR.less ps).
  - rewrite Hpanic. eauto.
Qed.

Lemma RRSchedule_all_arrived_panics_witness :
  exists low high,
    RRSchedule 1 [process 1 5 0; process 2 3 0; process 3 8 0]
    = Panic (SliceBoundsOutOfRange low high).
Proof.
  apply (RRSchedule_all_arrived_panics 0 [process 1 5 0; process 2 3 0; process 3 8 0]).
  - simpl. lia.
  - repeat constructor; simpl; lia.
Defined.

(** ** The caller's slice *)

(** C3, as stated, fails: [SJFPrioritySchedule] sorts the caller's slice in
    place, and [RRSchedule] sorts it and then moves elements down in it. After
    the call on [{1,5,0},{2,3,1}] the caller of [SJFPrioritySchedule] holds
    P2 before P1, and the caller of [RRSchedule] holds P2 twice. *)
Lemma Priority_and_RR_change_caller_slice :
  caller_slice (SJFPrioritySchedule [process 1 5 0; process 2 3 1])
  = Some [process 2 3 1; process 1 5 0]
  /\ caller_slice (RRSchedule 10 [process 1 5 0; process 2 3 1])
     = Some [process 2 3 1; process 2 3 1].
Proof. split; reflexivity. Qed.

(** C3, amended: [FCFSSchedule] and [SJFSchedule] leave the caller's slice
    unchanged when they return ([SJFSchedule] sorts a copy; it returns or
    panics); [SJFPrioritySchedule] returns with the caller's slice sorted in
    place by [sort.Slice] under its comparison, a permutation of what it
    held; [RRSchedule] sorts the caller's slice in place and writes to it in
    its loop: when it returns, the slice has the length it had and holds
    only processes that it held. *)
Theorem schedulers_caller_slice `{SliceSorter} (ps : list Process) :
  caller_slice (FCFSSchedule ps) = Some ps
  /\ (caller_slice (SJFSchedule ps) = Some ps \/ exists e, SJFSchedule ps = Panic e)
  /\ caller_slice (SJFPrioritySchedule ps) = Some (sortSlice SJFPriority.less ps)
  /\ sortSlice SJFPriority.less ps ≡ₚ ps
  /\ forall fuel mem,
       caller_slice (RRSchedule fuel ps) = Some mem ->
       length mem = length ps /\ forall p, p ∈ mem -> p ∈ ps.
Proof.
  split; [by rewrite FCFSSchedule_eq|]. split.
  { destruct (SJFSchedule_frame ps) as [[out ->]|[e ->]]; [by left|right; eauto]. }
  split; [by rewrite SJFPrioritySchedule_eq|]. split; [apply sortSlice_perm|].
  intros fuel mem. rewrite RRSchedule_unfold.
  destruct (RR_run fuel ps) as [[s mem1]| |] eqn:Hrun; [|done|done].
  intros [= <-]. by eapply RR_run_caller_slice.
Qed.

Lemma schedulers_caller_slice_witness :
  length [process 2 3 1; process 2 3 1] = length [process 1 5 0; process 2 3 1]
  /\ forall p, p ∈ [process 2 3 1; process 2 3 1] -> p ∈ [process 1 5 0; process 2 3 1].
Proof.
  apply (schedulers_caller_slice [process 1 5 0; process 2 3 1]) with (fuel := 10%nat).
  vm_compute. reflexivity.
Defined.

(** ** Row placement in shortest-job-first *)







(** Whatever the ids, [SJFSchedule] panics exactly when an id lies outside
    1..N. *)
Lemma SJF_panics_iff_id_out_of_range `{SliceSorter} (ps : list Process) :
  Forall wf_process ps -> Z.of_nat (length ps) <= Int64.max_int ->
  (exists e, SJFSchedule ps = Panic e)
  <-> exists p, p ∈ ps /\ ~ (1 <= ProcessID p <= Z.of_nat (length ps)).
Proof.
  intros Hwf Hn. split.
  - intros [e He].
    destruct (decide (Forall (slot_ok (length ps)) ps)) as [Hall|Hbad].
    + rewrite Forall_forall in Hall.
      destruct (SJFSchedule_ok ps Hwf Hn Hall) as (out & Hout & _). congruence.
    + apply not_Forall_Exists in Hbad; [|intros p; apply _].
      apply Exists_exists in Hbad as (p & Hp & Hbad). eauto.
  - intros Hbad. destruct (SJFSchedule_panic ps Hwf Hn Hbad) as [i Hi]. eauto.
Qed.

Lemma SJF_panics_iff_id_out_of_range_witness :
  (exists e, SJFSchedule [process 5 1 0] = Panic e)
  <-> exists p, p ∈ [process 5 1 0] /\ ~ (1 <= ProcessID p <= Z.of_nat 1).
Proof.
  apply (SJF_panics_iff_id_out_of_range [process 5 1 0]).
  - by apply wf_processb_spec.
  - done.
Defined.

(** ** Round-robin: executed time per process *)

Lemma RR_run_served `{SliceSorter} fuel ps s mem :
  Forall wf_process ps -> RR_run fuel ps = Ok (s, mem) ->
  (forall id, served id (RR.gantt s) = demand id ps) /\
  Forall (fun ts => duration ts <= quantum) (RR.gantt s).
Proof.
  intros Hwf Hrun. rewrite RR_run_unfold in Hrun.
  pose proof (RR_work_init ps Hwf) as Hinit. split.
  - by apply (RR_loop_work _ _ _ _ _ _ Hinit Hrun).
  - by apply (RR_loop_quantum _ _ _ _ _ _ Hinit Hrun).
Qed.

(** C5, as stated, fails on an input in which an id repeats: the intervals
    carry only the id, so those of the id 1 on [{1,5,0},{1,3,1}] add up to 8,
    the burst of neither process. And no timeline is produced where the
    admission pass panics, as on [{1,5,0},{2,3,0}]. *)
Lemma RR_duplicate_ids_pool_intervals :
  outGantt <$> output_of (RRSchedule 10 [process 1 5 0; process 1 3 1])
  = Some [mkTimeSlice 1 0 4; mkTimeSlice 1 4 5; mkTimeSlice 1 5 8]
  /\ served 1 [mkTimeSlice 1 0 4; mkTimeSlice 1 4 5; mkTimeSlice 1 5 8] = 8
  /\ RRSchedule 10 [process 1 5 0; process 2 3 0] = Panic (SliceBoundsOutOfRange 2 1).
Proof. repeat split; reflexivity. Qed.

(** C5, amended: on every input of 64-bit values [RRSchedule] halts: some
    number of iterations suffices for it to return a timeline or to panic,
    and more change nothing. In every timeline it returns, the durations of
    the intervals of each process id add up to the bursts of the input
    processes with that id, which is the burst of the process when the ids
    are distinct, and no interval lasts longer than the quantum. *)
Theorem RR_intervals_sum_to_burst `{SliceSorter} (ps : list Process) :
  Forall wf_process ps ->
  (exists fuel,
     RRSchedule fuel ps <> OutOfFuel /\
     forall fuel', (fuel <= fuel')%nat -> RRSchedule fuel' ps = RRSchedule fuel ps)
  /\ forall fuel out mem,
       RRSchedule fuel ps = Ok (out, mem) ->
       (forall id, served id (outGantt out) = demand id ps)
       /\ (NoDup (ProcessID <$> ps) ->
           forall p, p ∈ ps -> served (ProcessID p) (outGantt out) = BurstDuration p)
       /\ (forall ts, ts ∈ outGantt out -> duration ts <= quantum).
Proof.
  intros Hwf. split; [by apply RRSchedule_halts|].
  intros fuel out mem Hrun.
  apply RRSchedule_Ok in Hrun as (s & Hrun & ->). simpl.
  destruct (RR_run_served fuel ps s mem Hwf Hrun) as [Hserved Hquantum].
  split; [done|]. split.
  - intros Hnodup p Hp. rewrite Hserved. by apply demand_unique.
  - by apply Forall_forall.
Qed.

Lemma RR_intervals_sum_to_burst_witness :
  exists out mem,
    RRSchedule 10 [process 1 9 0; process 2 5 1] = Ok (out, mem) /\
    (forall p, p ∈ [process 1 9 0; process 2 5 1] ->
       served (ProcessID p) (outGantt out) = BurstDuration p) /\
    (forall ts, ts ∈ outGantt out -> duration ts <= quantum).
Proof.
  eexists _, _.
  assert (Hrun : RRSchedule 10 [process 1 9 0; process 2 5 1] = Ok (_, _))
    by (vm_compute; reflexivity).
  split; [exact Hrun|].
  assert (Hwf : Forall wf_process [process 1 9 0; process 2 5 1])
    by (by apply wf_processb_spec).
  destruct (proj2 (RR_intervals_sum_to_burst [process 1 9 0; process 2 5 1] Hwf)
              10%nat _ _ Hrun) as (_ & Hsum & Hquantum).
  split; [|exact Hquantum].
  apply Hsum. apply (bool_decide_unpack _). vm_compute. exact I.
Defined.

(** ** The empty input and the divisors of the averages *)

Lemma rows_fmap_Some (schedule : list Row) : rows (Some <$> schedule) = schedule.
Proof. induction schedule as [|r l IH]; [done|]. unfold rows in *. simpl. by f_equal. Qed.

(** C8, as stated, fails: no scheduler special-cases the empty list. On the
    empty input [FCFSSchedule] divides [0.0] by [float64(0)], which in
    floating point is not a panic but NaN, for each of the three averages. *)
Lemma FCFS_empty_divides_by_zero :
  FCFSSchedule []
  = Ok (mkOutput [] [] (fdiv fzero (float64 0)) (fdiv fzero (float64 0))
          (fdiv (float64 0) fzero), [])
  /\ PrimFloat.is_nan (fdiv fzero (float64 0)) = true
  /\ PrimFloat.is_nan (fdiv (float64 0) fzero) = true.
Proof. repeat split. Qed.

(** C8, amended: on the empty input each scheduler returns an empty timeline
    and an empty table, and computes its averages by the unguarded
    floating-point divisions [0/0], which give NaN; in [RRSchedule] the
    divisor of the average wait and of the average turnaround is the number
    of rows, that is of completed processes, and throughput divides that
    number by the completion time of the last row ([0.0] when there is
    none), again without a guard. *)
Theorem empty_input_averages `{SliceSorter} (fuel : nat) :
  FCFSSchedule [] = Ok (empty_output, [])
  /\ SJFSchedule [] = Ok (empty_output, [])
  /\ SJFPrioritySchedule [] = Ok (empty_output, [])
  /\ RRSchedule fuel [] = Ok (empty_output, [])
  /\ forall ps out mem,
       RRSchedule fuel ps = Ok (out, mem) ->
       let count := float64 (Z.of_nat (length (outSchedule out))) in
       exists s,
         RR_run fuel ps = Ok (s, mem) /\
         aveWait out = fdiv (fsum (RR.dWait <$> RR.trace s)) count /\
         aveTurnaround out
         = fdiv (fsum (rowTurnaround <$> rows (outSchedule out))) count /\
         aveThroughput out = fdiv count (last_exit (rows (outSchedule out))).
Proof.
  split; [reflexivity|]. split.
  { rewrite SJFSchedule_unfold, sortSlice_nil. reflexivity. }
  split.
  { rewrite SJFPrioritySchedule_eq, sortSlice_nil. reflexivity. }
  split.
  { rewrite RRSchedule_unfold, RR_run_unfold, sortSlice_nil, RR_loop_unfold.
    reflexivity. }
  intros ps out mem Hrun count.
  apply RRSchedule_Ok in Hrun as (s & Hrun & ->). exists s. split; [done|].
  destruct (RR_run_accounts fuel ps s mem Hrun) as [_ Hwait Hturn Hlast _ _ _].
  subst count. simpl. rewrite rows_fmap_Some, length_fmap.
  by rewrite Hwait, Hturn, Hlast.
Qed.

Lemma empty_input_averages_witness :
  exists out mem s,
    RRSchedule 10 [process 1 4 0; process 2 5 1] = Ok (out, mem) /\
    RR_run 10 [process 1 4 0; process 2 5 1] = Ok (s, mem) /\
    aveWait out
    = fdiv (fsum (RR.dWait <$> RR.trace s))
        (float64 (Z.of_nat (length (outSchedule out)))) /\
    aveTurnaround out
    = fdiv (fsum (rowTurnaround <$> rows (outSchedule out)))
        (float64 (Z.of_nat (length (outSchedule out)))) /\
    aveThroughput out
    = fdiv (float64 (Z.of_nat (length (outSchedule out))))
        (last_exit (rows (outSchedule out))).
Proof.
  eexists _, _.
  assert (Hrun : RRSchedule 10 [process 1 4 0; process 2 5 1] = Ok (_, _))
    by (vm_compute; reflexivity).
  destruct (proj2 (proj2 (proj2 (proj2 (empty_input_averages 10)))) _ _ _ Hrun)
    as (s & Hs & Haves).
  exists s. split; [exact Hrun|]. split; [exact Hs|exact Haves].
Defined.

(** ** Termination *)







(** ** Round-robin: the wait of a row and the average wait *)

Lemma copy_seeded_mono input tr d p :
  copy_seeded input tr p -> copy_seeded input (tr ++ [d]) p.
Proof.
  intros [Hin|(d' & Hd' & Hrest)]; [by left|right].
  exists d'. split; [|done]. apply elem_of_app. by left.
Qed.

Lemma RR_seeded_idle input s mem plen mem' :
  RR_seeded input s mem ->
  RR.admission (RR.currentTime s) (RR.plen s) (RR.queue s) mem = Ok ((plen, []), mem') ->
  RR_seeded input (RR.idle plen s) mem'.
Proof.
  intros [Hplen Hcopies Htrace] Hadmit.
  apply RR_admit_perm in Hadmit as [Hplen' Hperm]; [|done].
  split; simpl; [done| |done]. by rewrite Hperm.
Qed.

Lemma RR_seeded_dispatch input s mem plen currentProcess queue mem' :
  RR_seeded input s mem ->
  RR.admission (RR.currentTime s) (RR.plen s) (RR.queue s) mem
  = Ok ((plen, currentProcess :: queue), mem') ->
  RR_seeded input (RR.dispatch currentProcess plen queue s) mem'.
Proof.
  intros [Hplen Hcopies Htrace] Hadmit.
  apply RR_admit_perm in Hadmit as [Hplen' Hperm]; [|done].
  rewrite <- Hperm in Hcopies.
  assert (Hperm' : take plen mem' ++ currentProcess :: queue
                   ≡ₚ currentProcess :: (take plen mem' ++ queue))
    by (by rewrite Permutation_middle).
  rewrite Hperm' in Hcopies. apply Forall_cons in Hcopies as [Hcur Hrest].
  assert (Hevent : forall d,
            RR.dPID d = ProcessID currentProcess ->
            RR.dArrival d = ArrivalTime currentProcess ->
            first_dispatch input d \/ resumed (RR.trace s) d).
  { intros d Hpid Harr. destruct Hcur as [Hin|(d' & Hd' & Hpid' & Hdone & Harr')].
    - left. exists currentProcess. by rewrite Hpid, Harr.
    - right. exists d'. by rewrite Hpid, Harr. }
  unfold RR.dispatch. rewrite !map_get_insert.
  destruct (0 <? _) eqn:Hmore; split; simpl; try done.
  - rewrite app_assoc. apply Forall_app. split.
    + eapply Forall_impl; [exact Hrest|]. intros p. apply copy_seeded_mono.
    + constructor; [|done]. right. eexists. split.
      * apply elem_of_app. right. apply list_elem_of_singleton. reflexivity.
      * done.
  - constructor; [done|]. by apply Hevent.
  - eapply Forall_impl; [exact Hrest|]. intros p. apply copy_seeded_mono.
  - constructor; [done|]. by apply Hevent.
Qed.

Lemma RR_run_seeded `{SliceSorter} fuel ps s mem :
  RR_run fuel ps = Ok (s, mem) -> seeded ps (RR.trace s).
Proof.
  rewrite RR_run_unfold. intros Hrun.
  apply (RR_loop_invariant (RR_seeded ps)) in Hrun as [[_ _ ?] _]; try done.
  - intros. by eapply RR_seeded_idle.
  - intros. by eapply RR_seeded_dispatch.
  - split; simpl; [by rewrite sortSlice_length| |constructor].
    rewrite app_nil_r, firstn_all2 by (by rewrite sortSlice_length).
    rewrite (sortSlice_perm RR.less ps). apply Forall_forall. intros p Hp. by left.
Qed.

(** C10: when [RRSchedule] returns, its timeline is the sequence of its
    dispatches; the wait of each dispatch is [currentTime] at the dispatch
    less the [ArrivalTime] of the working copy, which is the arrival time of
    the input process or the time at which an earlier dispatch preempted it;
    the Wait column
    of each row is the wait of the one dispatch that completed the process;
    and the average wait is the float sum of the waits of all the dispatches
    divided by the number of rows. On [{1,4,0},{2,5,1}] the dispatches have
    the waits 0, 3 and 0, the two rows show the waits 0 and 0, and the
    average wait is 3/2, where the mean of the column is 0. *)
Theorem RR_wait_column_and_average :
  (forall (sorter : SliceSorter) (fuel : nat) (ps : list Process)
          (s : RR.State) (mem : list Process),
      RR_run fuel ps = Ok (s, mem) ->
      let out := RR.finish s in
      outGantt out = slice_of <$> RR.trace s
      /\ seeded ps (RR.trace s)
      /\ Forall (fun d => RR.dWait d = Int64.sub (RR.dTime d) (RR.dArrival d))
           (RR.trace s)
      /\ Forall2 row_of_dispatch (rows (outSchedule out))
           (List.filter RR.dDone (RR.trace s))
      /\ aveWait out
         = fdiv (fsum (RR.dWait <$> RR.trace s))
             (float64 (Z.of_nat (length (outSchedule out)))))
  /\ (exists s mem,
        RR_run (H := insertion_sorter) 10 [process 1 4 0; process 2 5 1] = Ok (s, mem)
        /\ RR.dWait <$> RR.trace s = [0; 3; 0]
        /\ RR.dArrival <$> RR.trace s = [0; 1; 8]
        /\ rowWait <$> rows (outSchedule (RR.finish s)) = [0; 0]
        /\ aveWait (RR.finish s) = fdiv (float64 3) (float64 2)
        /\ fdiv (fsum (rowWait <$> rows (outSchedule (RR.finish s)))) (float64 2)
           = fzero).
Proof.
  split.
  - intros sorter fuel ps s mem Hrun out.
    destruct (RR_run_accounts fuel ps s mem Hrun) as [_ Hwait _ _ Hgantt Hdwait Hrows].
    subst out. simpl. rewrite rows_fmap_Some, length_fmap.
    split; [done|]. split; [by eapply RR_run_seeded|].
    split; [done|]. split; [done|]. by rewrite Hwait.
  - eexists _, _. split; [vm_compute; reflexivity|]. repeat split.
Qed.

Lemma RR_wait_column_and_average_witness :
  exists s mem,
    RR_run 10 [process 1 9 0; process 2 5 1] = Ok (s, mem) /\
    Forall2 row_of_dispatch (rows (outSchedule (RR.finish s)))
      (List.filter RR.dDone (RR.trace s)) /\
    aveWait (RR.finish s)
    = fdiv (fsum (RR.dWait <$> RR.trace s))
        (float64 (Z.of_nat (length (outSchedule (RR.finish s))))).
Proof.
  eexists _, _.
  assert (Hrun : RR_run 10 [process 1 9 0; process 2 5 1] = Ok (_, _))
    by (vm_compute; reflexivity).
  split; [exact Hrun|].
  destruct (proj1 RR_wait_column_and_average _ _ _ _ _ Hrun) as (_ & _ & _ & Hrows & Have).
  split; [exact Hrows|exact Have].
Defined.

(** * The program around the schedulers *)

(** ** Numerals *)

Lemma byte_range c : 0 <= byte c < 256.
Proof.
  unfold byte. pose proof (N_ascii_bounded c) as Hc. lia.
Qed.

Lemma is_digit_spec c :
  is_digit c = true <-> 48 <= byte c <= 57.
Proof.
  unfold is_digit. change (byte "0") with 48. change (byte "9") with 57.
  rewrite andb_true_iff, !Z.leb_le. done.
Qed.

Lemma lower_letter c : 97 <= strconv.lower c <= 122 -> ~ 48 <= byte c <= 57.
Proof.
  unfold strconv.lower. intros Hl Hc.
  assert (Hcases : byte c = 48 \/ byte c = 49 \/ byte c = 50 \/ byte c = 51 \/ byte c = 52 \/
                   byte c = 53 \/ byte c = 54 \/ byte c = 55 \/ byte c = 56 \/ byte c = 57) by lia.
  destruct Hcases as [H|[H|[H|[H|[H|[H|[H|[H|[H|H]]]]]]]]]; rewrite H in Hl;
    vm_compute in Hl; destruct Hl as [H1 H2]; by (apply H1 || apply H2).
Qed.

(** A byte is a digit for [ParseInt] in base 10 when it is a decimal digit. *)
Lemma digit_of_spec c :
  match strconv.digit_of c with
  | Some d => if is_digit c then d = byte c - 48 /\ 0 <= d < 10 else 10 <= d
  | None => is_digit c = false
  end.
Proof.
  unfold strconv.digit_of. fold (is_digit c).
  destruct (is_digit c) eqn:Hd.
  - apply is_digit_spec in Hd. change (byte "0") with 48. lia.
  - change (byte "a") with 97. change (byte "z") with 122.
    destruct ((97 <=? strconv.lower c) && (strconv.lower c <=? 122)) eqn:Hl; [|done].
    apply andb_true_iff in Hl as [H1 H2]. apply Z.leb_le in H1. lia.
Qed.

Lemma digits_value_ge s : forall n v, 0 <= n -> digits_value s n = Some v -> n <= v.
Proof.
  induction s as [|c s IH]; intros n v Hn; simpl.
  - intros [= <-]. lia.
  - destruct (is_digit c) eqn:Hd; [|done]. apply is_digit_spec in Hd.
    change (byte "0") with 48. intros Hv. apply IH in Hv; lia.
Qed.

Ltac uint64_consts :=
  change strconv.maxUint64 with 18446744073709551615 in *;
  change strconv.cutoff with 1844674407370955162 in *;
  change (2 ^ 64) with 18446744073709551616 in *;
  change (2 ^ 63) with 9223372036854775808 in *.

(** The loop of [ParseUint] computes the value of the digits, and detects
    every overflow of 64 bits. *)
Lemma parse_digits_spec s : forall n,
  0 <= n <= strconv.maxUint64 ->
  match digits_value s n with
  | Some v =>
      if v <=? strconv.maxUint64 then strconv.parse_digits s n = (v, None)
      else strconv.parse_digits s n = (strconv.maxUint64, Some strconv.ErrRange)
  | None =>
      strconv.parse_digits s n = (0, Some strconv.ErrSyntax) \/
      strconv.parse_digits s n = (strconv.maxUint64, Some strconv.ErrRange)
  end.
Proof.
  induction s as [|c s IH]; intros n Hn; simpl.
  - destruct (Z.leb_spec n strconv.maxUint64); [done|lia].
  - pose proof (digit_of_spec c) as Hc.
    destruct (strconv.digit_of c) as [d|]; destruct (is_digit c) eqn:Hd;
      try discriminate; [| |by left].
    2:{ destruct (Z.leb_spec 10 d); [by left|lia]. }
    destruct Hc as [-> Hd10]. change (byte "0") with 48.
    destruct (Z.leb_spec 10 (byte c - 48)); [lia|].
    destruct (Z.leb_spec strconv.cutoff n) as [Hcut|Hcut].
    { destruct (digits_value s (10 * n + (byte c - 48))) as [v|] eqn:Hv; [|by right].
      apply digits_value_ge in Hv; [|lia].
      destruct (Z.leb_spec v strconv.maxUint64); [|done]. uint64_consts. lia. }
    cbv zeta.
    destruct (Z.leb_spec (2 ^ 64) (n * 10 + (byte c - 48))) as [Hover|Hfit].
    { assert (Hmod : (n * 10 + (byte c - 48)) mod 2 ^ 64 = n * 10 + (byte c - 48) - 2 ^ 64).
      { symmetry. apply Z.mod_unique_pos with (q := 1); uint64_consts; lia. }
      rewrite Hmod.
      destruct (Z.ltb_spec (n * 10 + (byte c - 48) - 2 ^ 64) (n * 10)); [|uint64_consts; lia].
      simpl.
      destruct (digits_value s (10 * n + (byte c - 48))) as [v|] eqn:Hv; [|by right].
      apply digits_value_ge in Hv; [|lia].
      destruct (Z.leb_spec v strconv.maxUint64); [|done]. uint64_consts. lia. }
    rewrite Z.mod_small by (uint64_consts; lia).
    destruct (Z.ltb_spec (n * 10 + (byte c - 48)) (n * 10)); [lia|].
    destruct (Z.ltb_spec strconv.maxUint64 (n * 10 + (byte c - 48))); [uint64_consts; lia|].
    simpl. replace (10 * n) with (n * 10) by lia.
    apply IH. uint64_consts. lia.
Qed.

Lemma ParseUint_spec s :
  s <> EmptyString ->
  match digits_value s 0 with
  | Some v =>
      if v <=? strconv.maxUint64 then strconv.ParseUint s = (v, None)
      else strconv.ParseUint s = (strconv.maxUint64, Some strconv.ErrRange)
  | None =>
      strconv.ParseUint s = (0, Some strconv.ErrSyntax) \/
      strconv.ParseUint s = (strconv.maxUint64, Some strconv.ErrRange)
  end.
Proof.
  intros Hs. pose proof (parse_digits_spec s 0) as H.
  destruct s; [done|]. apply H. uint64_consts. lia.
Qed.

Lemma signed_spec (s0 : string) (neg : bool) (s : string) :
  s <> EmptyString ->
  match (fun v : Z => if neg then - v else v) <$> digits_value s 0 with
  | Some n =>
      if in_rangeb n then strconv.signed s0 neg s = (n, None)
      else exists v, strconv.signed s0 neg s = (v, Some (strconv.mkNumError "ParseInt" s0 strconv.ErrRange))
  | None => exists v r, strconv.signed s0 neg s = (v, Some (strconv.mkNumError "ParseInt" s0 r))
  end.
Proof.
  intros Hs. pose proof (ParseUint_spec s Hs) as HU. unfold strconv.signed.
  destruct (digits_value s 0) as [n|] eqn:Hn; simpl fmap.
  2:{ destruct HU as [-> | ->]; [by eexists _, _|].
      destruct neg; simpl negb; simpl andb.
      - destruct (Z.ltb_spec (2 ^ 63) strconv.maxUint64); [|uint64_consts; lia]. by eexists _, _.
      - destruct (Z.leb_spec (2 ^ 63) strconv.maxUint64); [|uint64_consts; lia]. by eexists _, _. }
  pose proof (digits_value_ge _ _ _ (Z.le_refl 0) Hn) as Hn0.
  unfold in_rangeb, Int64.min_int, Int64.max_int.
  destruct (Z.leb_spec n strconv.maxUint64) as [Hmax|Hmax]; rewrite HU;
    destruct neg; simpl negb; simpl andb; cbv zeta.
  - destruct (Z.ltb_spec (2 ^ 63) n) as [Hbig|Hsmall].
    + destruct (Z.leb_spec (- 2 ^ 63) (- n)); [lia|]. simpl. by eexists.
    + destruct (Z.leb_spec (- 2 ^ 63) (- n)); [|lia].
      destruct (Z.leb_spec (- n) (2 ^ 63 - 1)); [|lia]. simpl.
      change (- Int64.wrap n) with (0 - Int64.wrap n). rewrite wrap_sub_r. f_equal.
      apply wrap_id. unfold Int64.in_range, Int64.min_int, Int64.max_int. lia.
  - destruct (Z.leb_spec (2 ^ 63) n) as [Hbig|Hsmall].
    + destruct (Z.leb_spec n (2 ^ 63 - 1)); [lia|]. rewrite andb_false_r. by eexists.
    + destruct (Z.leb_spec n (2 ^ 63 - 1)); [|lia].
      destruct (Z.leb_spec (- 2 ^ 63) n); [|lia]. simpl.
      rewrite wrap_id; [done|]. unfold Int64.in_range, Int64.min_int, Int64.max_int. lia.
  - destruct (Z.leb_spec (- 2 ^ 63) (- n)); [uint64_consts; lia|]. simpl.
    destruct (Z.ltb_spec (2 ^ 63) strconv.maxUint64); [|uint64_consts; lia]. by eexists.
  - destruct (Z.leb_spec n (2 ^ 63 - 1)); [uint64_consts; lia|]. rewrite andb_false_r.
    destruct (Z.leb_spec (2 ^ 63) strconv.maxUint64); [|uint64_consts; lia]. by eexists.
Qed.

(** [ParseInt] returns without an error exactly on the decimal numerals of
    the 64-bit integers, and returns the integer then. *)
Lemma ParseInt_spec s :
  match numeral s with
  | Some n =>
      if in_rangeb n then strconv.ParseInt s = (n, None)
      else exists v, strconv.ParseInt s = (v, Some (strconv.mkNumError "ParseInt" s strconv.ErrRange))
  | None => exists v r, strconv.ParseInt s = (v, Some (strconv.mkNumError "ParseInt" s r))
  end.
Proof.
  destruct s as [|c rest]; [by eexists _, _|].
  unfold numeral, strconv.ParseInt.
  destruct (Ascii.eqb c "+") eqn:Hplus.
  { destruct rest as [|c' rest']; [by eexists _, _|].
    pose proof (signed_spec (String c (String c' rest')) false (String c' rest')) as H.
    destruct (digits_value (String c' rest') 0); by apply H. }
  destruct (Ascii.eqb c "-") eqn:Hminus.
  { destruct rest as [|c' rest']; [by eexists _, _|].
    pose proof (signed_spec (String c (String c' rest')) true (String c' rest')) as H.
    destruct (digits_value (String c' rest') 0); by apply H. }
  pose proof (signed_spec (String c rest) false (String c rest)) as H.
  destruct (digits_value (String c rest) 0); by apply H.
Qed.

(** *** The numeral that [fmt.Sprint] prints *)

Lemma byte_digit d : 0 <= d < 10 -> byte (fmt.digit d) = 48 + d.
Proof.
  intros Hd. unfold byte, fmt.digit. change (byte "0") with 48.
  rewrite N_ascii_embedding; lia.
Qed.

Lemma is_digit_digit d : 0 <= d < 10 -> is_digit (fmt.digit d) = true.
Proof. intros Hd. apply is_digit_spec. rewrite byte_digit; lia. Qed.

Lemma digits_head b u acc :
  exists d rest, 0 <= d < 10 /\ fmt.digits (S b) u acc = String (fmt.digit d) rest.
Proof.
  revert u acc. induction b as [|b IH]; intros u acc.
  - exists (u mod 10), acc. split; [apply Z.mod_pos_bound; lia|].
    simpl. by destruct (u <? 10).
  - change (fmt.digits (S (S b)) u acc)
      with (if u <? 10 then String (fmt.digit (u mod 10)) acc
            else fmt.digits (S b) (u / 10) (String (fmt.digit (u mod 10)) acc)).
    destruct (u <? 10); [|apply IH].
    exists (u mod 10), acc. split; [apply Z.mod_pos_bound; lia|done].
Qed.

Lemma digits_value_digits b : forall u acc,
  0 <= u < 10 ^ Z.of_nat b ->
  digits_value (fmt.digits b u acc) 0 = digits_value acc u.
Proof.
  induction b as [|b IH]; intros u acc Hu.
  - simpl in *. by replace u with 0 by lia.
  - simpl fmt.digits. pose proof (Z.mod_pos_bound u 10 eq_refl) as Hmod.
    destruct (Z.ltb_spec u 10) as [Hsmall|Hbig].
    + simpl. rewrite is_digit_digit, byte_digit by done. change (byte "0") with 48.
      rewrite Z.mod_small by lia. f_equal. lia.
    + rewrite IH.
      * simpl. rewrite is_digit_digit, byte_digit by done. change (byte "0") with 48.
        f_equal. pose proof (Z.div_mod u 10). lia.
      * rewrite Nat2Z.inj_succ, Z.pow_succ_r in Hu by lia.
        split; [apply Z.div_pos; lia|]. apply Z.div_lt_upper_bound; lia.
Qed.

Lemma in_range_digits i : Int64.in_range i -> 0 <= Z.abs i < 10 ^ Z.of_nat 20.
Proof.
  unfold Int64.in_range, Int64.min_int, Int64.max_int. int64_consts.
  change (10 ^ Z.of_nat 20) with 100000000000000000000. lia.
Qed.

(** What [fmt.Sprint] prints denotes the value printed. *)
Lemma numeral_Sprint i : Int64.in_range i -> numeral (fmt.Sprint i) = Some i.
Proof.
  intros Hi. apply in_range_digits in Hi. unfold fmt.Sprint.
  destruct (Z.ltb_spec i 0) as [Hneg|Hpos].
  - unfold numeral. change (Ascii.eqb "-" "+") with false. change (Ascii.eqb "-" "-") with true.
    cbv iota.
    destruct (digits_head 19 (- i) "") as (d & rest & Hd & Heq).
    rewrite Heq, <- Heq, digits_value_digits by lia. simpl. f_equal. lia.
  - destruct (digits_head 19 i "") as (d & rest & Hd & Heq).
    rewrite Heq. unfold numeral.
    assert (Hplus : Ascii.eqb (fmt.digit d) "+" = false).
    { apply Ascii.eqb_neq. intros H%(f_equal byte). rewrite byte_digit in H by done.
      change (byte "+") with 43 in H. lia. }
    assert (Hminus : Ascii.eqb (fmt.digit d) "-" = false).
    { apply Ascii.eqb_neq. intros H%(f_equal byte). rewrite byte_digit in H by done.
      change (byte "-") with 45 in H. lia. }
    rewrite Hplus, Hminus, <- Heq, digits_value_digits by lia. done.
Qed.

Lemma in_rangeb_true z : Int64.in_range z -> in_rangeb z = true.
Proof.
  unfold in_rangeb, Int64.in_range. intros [H1 H2].
  apply andb_true_iff. by rewrite !Z.leb_le.
Qed.

Lemma in_rangeb_iff z : in_rangeb z = true <-> Int64.in_range z.
Proof. split; [apply in_rangeb_spec|apply in_rangeb_true]. Qed.

(** *** [mustStrToInt] *)

Lemma mustStrToInt_cases s w :
  (exists n, int64_numeral s n /\ mustStrToInt s w = (Returned n, w)) \/
  ((forall n, ~ int64_numeral s n) /\ exits_on s w (mustStrToInt s w)).
Proof.
  pose proof (ParseInt_spec s) as H. unfold mustStrToInt, exits_on, int64_numeral.
  destruct (numeral s) as [n|]; [destruct (in_rangeb n) eqn:Hn|].
  - left. exists n. rewrite H. by apply in_rangeb_spec in Hn.
  - right. split.
    + intros n' [[= <-] Hr%in_rangeb_true]. congruence.
    + destruct H as [v ->]. by eexists.
  - right. split; [by intros n' [? _]|]. destruct H as (v & r & ->). by eexists.
Qed.

Lemma int64_numeral_inj s n n' : int64_numeral s n -> int64_numeral s n' -> n = n'.
Proof. intros [H _] [H' _]. congruence. Qed.

Lemma mustStrToInt_returns s n w :
  int64_numeral s n -> mustStrToInt s w = (Returned n, w).
Proof.
  intros Hn. destruct (mustStrToInt_cases s w) as [(n' & Hn' & ->)|[Hno _]].
  - by rewrite (int64_numeral_inj _ _ _ Hn Hn').
  - by destruct (Hno n).
Qed.

Lemma mustStrToInt_Sprint n w :
  Int64.in_range n -> mustStrToInt (fmt.Sprint n) w = (Returned n, w).
Proof.
  intros Hn. apply mustStrToInt_returns. split; [by apply numeral_Sprint|done].
Qed.

(** *** [loadProcesses] *)

Lemma IO_bind_unfold {A B} (m : IO A) (k : A -> IO B) w :
  (m ≫= k) w =
  match m w with
  | (Returned a, w') => k a w'
  | (Panicked v, w') => (Panicked v, w')
  | (Exited code, w') => (Exited code, w')
  | (NoFuel, w') => (NoFuel, w')
  end.
Proof. done. Qed.

Lemma IO_bind_returned {A B} (m : IO A) (k : A -> IO B) w a w' :
  m w = (Returned a, w') -> (m ≫= k) w = k a w'.
Proof. intros H. by rewrite IO_bind_unfold, H. Qed.

Lemma IO_bind_exited {A B} (m : IO A) (k : A -> IO B) w code w' :
  m w = (Exited code, w') -> (m ≫= k) w = (Exited code, w').
Proof. intros H. by rewrite IO_bind_unfold, H. Qed.

Lemma IO_bind_panicked {A B} (m : IO A) (k : A -> IO B) w v w' :
  m w = (Panicked v, w') -> (m ≫= k) w = (Panicked v, w').
Proof. intros H. by rewrite IO_bind_unfold, H. Qed.

Lemma IO_bind_ret {A B} (a : A) (k : A -> IO B) w : (mret a ≫= k) w = k a w.
Proof. done. Qed.

(** A field that is read and converted: the bind either goes on with the
    number, or the process exits. *)
Ltac step_field s w n Hn :=
  let Hno := fresh "Hno" in let r := fresh "r" in let Hex := fresh "Hex" in
  destruct (mustStrToInt_cases s w) as [(n & Hn & Hex)|[Hno [r Hex]]];
  [ rewrite (IO_bind_returned _ _ _ _ _ Hex)
  | rewrite (IO_bind_exited _ _ _ _ _ Hex); apply row_refused; [|done] ].

Lemma elem_of_converted row s k :
  row !! k = Some s -> (k < 3)%nat \/ length row = 4%nat -> s ∈ converted row.
Proof.
  intros Hs Hk. unfold converted.
  destruct (Nat.eqb_spec (length row) 4) as [Hlen|Hlen].
  - by eapply list_elem_of_lookup_2.
  - apply (list_elem_of_lookup_2 _ k). rewrite lookup_take_lt; [done|lia].
Qed.

Lemma load_row_outcome row w : row_outcome row w (load_row row w).
Proof.
  unfold load_row.
  destruct row as [|id row]; [by apply row_short; simpl; lia|].
  change (field (id :: row) 0) with (mret (M:=IO) id). rewrite IO_bind_ret.
  step_field id w n0 Hn0; [|by apply (elem_of_converted _ _ 0%nat); [|lia]].
  destruct row as [|burst row]; [by apply (row_short [id]); simpl; lia|].
  change (field (id :: burst :: row) 1) with (mret (M:=IO) burst). rewrite IO_bind_ret.
  step_field burst w n1 Hn1; [|by apply (elem_of_converted _ _ 1%nat); [|lia]].
  destruct row as [|arrival row]; [by apply (row_short [id; burst]); simpl; lia|].
  change (field (id :: burst :: arrival :: row) 2) with (mret (M:=IO) arrival).
  rewrite IO_bind_ret.
  step_field arrival w n2 Hn2; [|by apply (elem_of_converted _ _ 2%nat); [|lia]].
  destruct row as [|priority [|extra row]].
  - apply row_loaded. exists id, burst, arrival, []. done.
  - change (length [id; burst; arrival; priority] =? 4)%nat with true. cbv iota.
    change (field [id; burst; arrival; priority] 3) with (mret (M:=IO) priority).
    rewrite IO_bind_unfold, IO_bind_ret.
    destruct (mustStrToInt_cases priority w) as [(n3 & Hn3 & ->)|[Hno [r ->]]].
    + apply row_loaded. exists id, burst, arrival, [priority]. done.
    + apply row_refused; [|done]. by apply (elem_of_converted _ _ 3%nat); [|right].
  - apply row_loaded. exists id, burst, arrival, (priority :: extra :: row). done.
Qed.

Lemma row_of_wf row p : row_of row p -> wf_process p.
Proof.
  intros (id & burst & arrival & rest & _ & [_ Hid] & [_ Hb] & [_ Ha] & Hp).
  repeat split; try apply Hid; try apply Hb; try apply Ha.
  - destruct rest as [|? [|]]; try (rewrite Hp; done). apply Hp.
  - destruct rest as [|? [|]]; try (rewrite Hp; done). apply Hp.
Qed.

Lemma row_of_inj row p p' : row_of row p -> row_of row p' -> p = p'.
Proof.
  intros (id & burst & arrival & rest & -> & Hid & Hb & Ha & Hp)
         (id' & burst' & arrival' & rest' & [= <- <- <- <-] & Hid' & Hb' & Ha' & Hp').
  destruct p, p'; simpl in *. f_equal; try by eapply int64_numeral_inj.
  destruct rest as [|? [|]]; try congruence. by eapply int64_numeral_inj.
Qed.

Lemma row_of_length row p : row_of row p -> (3 <= length row)%nat.
Proof. intros (id & burst & arrival & rest & -> & _). simpl. lia. Qed.

Lemma row_of_converted row p s :
  row_of row p -> s ∈ converted row -> exists n, int64_numeral s n.
Proof.
  intros (id & burst & arrival & rest & -> & Hid & Hb & Ha & Hp) Hs.
  unfold converted in Hs. destruct rest as [|priority [|extra rest]]; simpl in Hs;
    repeat (apply elem_of_cons in Hs as [->|Hs]); try (by eexists);
    by apply elem_of_nil in Hs.
Qed.

Lemma load_row_returns row p w : row_of row p -> load_row row w = (Returned p, w).
Proof.
  intros Hp. destruct (load_row_outcome row w) as [p' Hp'| s r Hs Hno|Hshort].
  - by rewrite (row_of_inj _ _ _ Hp Hp').
  - destruct (row_of_converted _ _ _ Hp Hs) as [n Hn]. by destruct (Hno n).
  - apply row_of_length in Hp. lia.
Qed.

Lemma first_bad_here row rest : first_bad (row :: rest) row.
Proof. exists [], [], rest. by split. Qed.

Lemma first_bad_later row0 p rows row :
  row_of row0 p -> first_bad rows row -> first_bad (row0 :: rows) row.
Proof.
  intros Hp (good & ps & rest & -> & Hgood).
  exists (row0 :: good), (p :: ps), rest. split; [done|by constructor].
Qed.

Lemma load_rows_outcome rows w :
  load_outcome rows w ((ps ← load_rows rows; mret (inl ps)) w).
Proof.
  induction rows as [|row rows IH]; [done|].
  simpl load_rows. rewrite !IO_bind_unfold.
  destruct (load_row_outcome row w) as [p Hp|s r Hs Hno|Hshort].
  - rewrite IO_bind_unfold in IH. rewrite IO_bind_unfold.
    destruct (load_rows rows w) as [[ps|v|code|] w']; simpl in *.
    + destruct IH as [Hps ->]. split; [by constructor|done].
    + destruct IH as (bad & Hbad & Hlen & -> & ->).
      exists bad. split; [by eapply first_bad_later|done].
    + destruct IH as (-> & bad & s & r & Hbad & Hs & Hno & ->).
      split; [done|]. exists bad, s, r. split; [by eapply first_bad_later|done].
    + done.
  - simpl. split; [done|]. exists row, s, r. split; [apply first_bad_here|done].
  - simpl. exists row. split; [apply first_bad_here|done].
Qed.

Lemma load_rows_returns rows ps w :
  Forall2 row_of rows ps -> load_rows rows w = (Returned ps, w).
Proof.
  induction 1 as [|row p rows ps Hp _ IH]; [done|].
  simpl. rewrite (IO_bind_returned _ _ _ _ _ (load_row_returns _ _ w Hp)).
  by rewrite (IO_bind_returned _ _ _ _ _ IH).
Qed.

Lemma record_of_row p : wf_process p -> row_of (record_of p) p.
Proof.
  intros (Hid & Ha & Hb & Hp).
  exists (fmt.Sprint (ProcessID p)), (fmt.Sprint (BurstDuration p)),
         (fmt.Sprint (ArrivalTime p)), [fmt.Sprint (Priority p)].
  split; [done|]. unfold int64_numeral. by rewrite !numeral_Sprint.
Qed.

Lemma records_of_rows ps :
  Forall wf_process ps -> Forall2 row_of (record_of <$> ps) ps.
Proof.
  induction 1 as [|p ps Hp _ IH]; constructor; [|done]. by apply record_of_row.
Qed.

(** *** The loader, stated *)

(** [mustStrToInt] returns on the decimal numerals of the 64-bit integers (an
    optional sign, then digits only and at least one), with the integer and
    without writing anything. On every other string it prints the
    [*NumError] of [ParseInt] on the standard error and exits the process
    with status 1. *)
Theorem mustStrToInt_spec s w :
  match numeral s with
  | Some n =>
      if in_rangeb n then mustStrToInt s w = (Returned n, w)
      else exits_on s w (mustStrToInt s w)
  | None => exits_on s w (mustStrToInt s w)
  end.
Proof.
  destruct (mustStrToInt_cases s w) as [(n & [Hn Hr] & ->)|[Hno Hex]].
  - by rewrite Hn, in_rangeb_true.
  - destruct (numeral s) as [n|] eqn:Hn; [|done].
    destruct (in_rangeb n) eqn:Hr; [|done].
    destruct (Hno n). split; [done|by apply in_rangeb_spec].
Qed.

(** On the records of a file [loadProcesses] ends as [load_outcome] says. It
    returns one process per record when every record gives one: the first
    three fields are the id, the burst and the arrival time, a fourth field
    is the priority in a record of exactly four fields, and the priority is 0
    in a record of any other length, whose fields beyond the third are not
    read. Otherwise the first record that gives no process decides: a field
    that is no numeral of a 64-bit integer exits the process with status 1,
    and a record of fewer than three fields is a panic, index out of range.
    No error is returned for records that were read. *)
Theorem loadProcesses_outcomes rows w :
  load_outcome rows w (loadProcesses (Records rows) w) /\
  (forall ps, Forall2 row_of rows ps ->
              loadProcesses (Records rows) w = (Returned (inl ps), w)).
Proof.
  split; [apply load_rows_outcome|].
  intros ps Hps. unfold loadProcesses.
  by rewrite (IO_bind_returned _ _ _ _ _ (load_rows_returns _ _ w Hps)).
Qed.

Lemma loadProcesses_outcomes_witness :
  loadProcesses (Records [["1"; "5"; "0"]; ["2"; "3"; "1"]]) (mkWorld "" [])
  = (Returned (inl [process 1 5 0; process 2 3 1]), mkWorld "" []).
Proof.
  apply (proj2 (loadProcesses_outcomes [["1"; "5"; "0"]; ["2"; "3"; "1"]]
                  (mkWorld "" []))).
  repeat constructor;
    (eexists _, _, _, _; split; [reflexivity|]);
    repeat split; try reflexivity; by apply in_rangeb_spec.
Defined.

(** What [loadProcesses] returns holds 64-bit values: one process per record
    of the file, in the order of the file, with nothing written to the
    streams. *)
Theorem loadProcesses_int64 r w ps w' :
  loadProcesses r w = (Returned (inl ps), w') ->
  Forall wf_process ps /\
  exists rows, r = Records rows /\ length ps = length rows /\ w' = w.
Proof.
  destruct r as [rows|err]; [|done]. intros Hload.
  pose proof (load_rows_outcome rows w) as H. unfold loadProcesses in Hload.
  rewrite Hload in H. destruct H as [Hps ->]. split.
  - clear Hload. induction Hps as [|row p rows ps Hp _ IH]; constructor; [|done].
    by eapply row_of_wf.
  - exists rows. split; [done|]. split; [|done]. symmetry. by eapply Forall2_length.
Qed.

Lemma loadProcesses_int64_witness :
  Forall wf_process [mkProcess 1 0 5 2; mkProcess 2 1 3 7] /\
  exists rows,
    Records [["1"; "5"; "0"; "2"]; ["2"; "3"; "1"; "7"]] = Records rows /\
    length [mkProcess 1 0 5 2; mkProcess 2 1 3 7] = length rows /\
    mkWorld "" [] = mkWorld "" [].
Proof.
  apply (loadProcesses_int64 (Records [["1"; "5"; "0"; "2"]; ["2"; "3"; "1"; "7"]])
           (mkWorld "" []) [mkProcess 1 0 5 2; mkProcess 2 1 3 7] (mkWorld "" [])).
  vm_compute. reflexivity.
Defined.

(** The records that hold the id, the burst, the arrival time and the
    priority of processes, as [fmt.Sprint] prints them, load as these
    processes. *)
Theorem loadProcesses_round_trip ps w :
  Forall wf_process ps ->
  loadProcesses (Records (record_of <$> ps)) w = (Returned (inl ps), w).
Proof.
  intros Hps. unfold loadProcesses.
  rewrite (IO_bind_returned _ _ w ps w); [done|].
  by apply load_rows_returns, records_of_rows.
Qed.

Lemma loadProcesses_round_trip_witness :
  loadProcesses (Records (record_of <$> [process 1 5 0; mkProcess 2 1 3 (-7)]))
    (mkWorld "" [])
  = (Returned (inl [process 1 5 0; mkProcess 2 1 3 (-7)]), mkWorld "" []).
Proof.
  apply (loadProcesses_round_trip [process 1 5 0; mkProcess 2 1 3 (-7)] (mkWorld "" [])).
  by apply wf_processb_spec.
Defined.

(** ** The output helpers *)

Lemma digits_length_acc b : forall u acc,
  (String.length acc <= String.length (fmt.digits b u acc))%nat.
Proof.
  induction b as [|b IH]; intros u acc; simpl; [done|].
  destruct (u <? 10); [simpl; lia|].
  etrans; [|apply IH]. simpl. lia.
Qed.

Lemma digits_length_le b : forall k u acc,
  0 <= u < 10 ^ Z.of_nat (S k) ->
  (String.length (fmt.digits b u acc) <= String.length acc + S k)%nat.
Proof.
  induction b as [|b IH]; intros k u acc Hu; simpl; [lia|].
  destruct (Z.ltb_spec u 10) as [Hsmall|Hbig]; [simpl; lia|].
  destruct k as [|k]; [change (10 ^ Z.of_nat 1) with 10 in Hu; lia|].
  etrans; [apply (IH k)|simpl; lia].
  rewrite (Nat2Z.inj_succ (S k)), Z.pow_succ_r in Hu by lia.
  split; [apply Z.div_pos; lia|]. apply Z.div_lt_upper_bound; lia.
Qed.

Lemma digits_length_ge k : forall b u acc,
  (k < b)%nat -> 10 ^ Z.of_nat k <= u ->
  (String.length acc + S k <= String.length (fmt.digits b u acc))%nat.
Proof.
  induction k as [|k IH]; intros b u acc Hb Hu; (destruct b as [|b]; [lia|]); simpl fmt.digits.
  - destruct (u <? 10); [simpl; lia|].
    etrans; [|apply digits_length_acc]. simpl. lia.
  - rewrite Nat2Z.inj_succ, Z.pow_succ_r in Hu by lia.
    assert (0 < 10 ^ Z.of_nat k) by (apply Z.pow_pos_nonneg; lia).
    destruct (Z.ltb_spec u 10) as [Hsmall|Hbig]; [lia|].
    etrans; [|apply IH]; [simpl; lia|lia|].
    apply Z.div_le_lower_bound; lia.
Qed.

(** An [int64] prints with ten characters or more exactly when it is at
    least [10^9] or at most [-10^8]. *)
Lemma Sprint_wide pid :
  Int64.in_range pid -> (10 <=? strlen (fmt.Sprint pid)) = wide pid.
Proof.
  intros Hpid%in_range_digits. unfold wide, strlen, fmt.Sprint.
  destruct (Z.ltb_spec pid 0) as [Hneg|Hpos].
  - destruct (Z.leb_spec 1000000000 pid); [lia|]. simpl orb.
    change (String.length (String "-" ?s)) with (S (String.length s)).
    destruct (Z.leb_spec pid (-100000000)) as [Hw|Hw].
    + assert (HL : (String.length "" + 9 <= String.length (fmt.digits 20 (- pid) ""))%nat).
      { apply (digits_length_ge 8); [lia|]. change (10 ^ Z.of_nat 8) with 100000000. lia. }
      change (String.length "") with 0%nat in HL. apply Z.leb_le. lia.
    + assert (HL : (String.length (fmt.digits 20 (- pid) "") <= String.length "" + 8)%nat).
      { apply (digits_length_le _ 7). change (10 ^ Z.of_nat 8) with 100000000. lia. }
      change (String.length "") with 0%nat in HL. apply Z.leb_gt. lia.
  - destruct (Z.leb_spec pid (-100000000)); [lia|]. rewrite orb_false_r.
    destruct (Z.leb_spec 1000000000 pid) as [Hw|Hw].
    + assert (HL : (String.length "" + 10 <= String.length (fmt.digits 20 pid ""))%nat).
      { apply (digits_length_ge 9); [lia|]. change (10 ^ Z.of_nat 9) with 1000000000. lia. }
      change (String.length "") with 0%nat in HL. apply Z.leb_le. lia.
    + assert (HL : (String.length (fmt.digits 20 pid "") <= String.length "" + 9)%nat).
      { apply (digits_length_le _ 8). change (10 ^ Z.of_nat 9) with 1000000000. lia. }
      change (String.length "") with 0%nat in HL. apply Z.leb_gt. lia.
Qed.

Lemma padding_negative len : 0 <= len -> ((8 - len) ÷ 2 <? 0) = (10 <=? len).
Proof.
  intros Hlen.
  destruct (Z.leb_spec 10 len) as [Hw|Hw]; [apply Z.ltb_lt|apply Z.ltb_ge];
    Z.quot_rem_to_equations; lia.
Qed.

Lemma Repeat_returns s count w :
  0 <= count ->
  Repeat s count w = (Returned (String.concat "" (replicate (Z.to_nat count) s)), w).
Proof. intros Hc. unfold Repeat. by destruct (Z.ltb_spec count 0); [lia|]. Qed.

Lemma Repeat_panics s count w :
  count < 0 -> Repeat s count w = (Panicked negative_repeat, w).
Proof. intros Hc. unfold Repeat. by destruct (Z.ltb_spec count 0); [|lia]. Qed.

Lemma append_assoc (s1 s2 s3 : string) : (s1 +:+ s2) +:+ s3 = s1 +:+ (s2 +:+ s3).
Proof.
  induction s1 as [|c s1 IH]; [done|].
  change (String c ((s1 +:+ s2) +:+ s3) = String c (s1 +:+ (s2 +:+ s3))). by f_equal.
Qed.

Lemma append_nil_r (s : string) : s +:+ "" = s.
Proof.
  induction s as [|c s IH]; [done|].
  change (String c (s +:+ "") = String c s). by f_equal.
Qed.

Lemma printed_refl w : printed w w.
Proof. exists "". destruct w. simpl. by rewrite append_nil_r. Qed.

Lemma printed_trans w1 w2 w3 : printed w1 w2 -> printed w2 w3 -> printed w1 w3.
Proof.
  intros [t1 ->] [t2 ->]. exists (t1 +:+ t2). simpl. by rewrite append_assoc.
Qed.

Lemma Fprint_printed text w : exists w', Fprint text w = (Returned tt, w') /\ printed w w'.
Proof. eexists. split; [done|]. by exists text. Qed.

Lemma Fprintln_printed operands w :
  exists w', Fprintln operands w = (Returned tt, w') /\ printed w w'.
Proof. apply Fprint_printed. Qed.

(** The cell of an interval: the padding is negative, and [strings.Repeat]
    panics, when the id prints with ten characters or more. *)
Lemma gantt_cell_spec ts w :
  Int64.in_range (PID ts) ->
  exists w', printed w w' /\
    gantt_cell ts w = ((if wide (PID ts) then Panicked negative_repeat else Returned tt), w').
Proof.
  intros Hpid. unfold gantt_cell. rewrite IO_bind_unfold.
  pose proof (Sprint_wide _ Hpid) as Hw.
  pose proof (padding_negative (strlen (fmt.Sprint (PID ts)))) as Hpad.
  rewrite Hw in Hpad.
  destruct (wide (PID ts)).
  - rewrite Repeat_panics.
    + exists w. split; [apply printed_refl|done].
    + apply Z.ltb_lt, Hpad. unfold strlen. lia.
  - rewrite Repeat_returns.
    + eexists. split; [|done]. by eexists.
    + apply Z.ltb_ge, Hpad. unfold strlen. lia.
Qed.

Lemma gantt_cells_spec gantt : forall i w,
  Forall (fun ts => Int64.in_range (PID ts)) gantt ->
  exists w', printed w w' /\
    for_each (fun _ => gantt_cell) i gantt w
    = ((if existsb (fun ts => wide (PID ts)) gantt then Panicked negative_repeat
        else Returned tt), w').
Proof.
  induction gantt as [|ts gantt IH]; intros i w Hpids.
  - exists w. split; [apply printed_refl|done].
  - apply Forall_cons in Hpids as [Hpid Hpids]. simpl. rewrite IO_bind_unfold.
    destruct (gantt_cell_spec ts w Hpid) as (w1 & Hw1 & ->).
    destruct (wide (PID ts)); simpl.
    + by exists w1.
    + destruct (IH (S i) w1 Hpids) as (w2 & Hw2 & ->).
      exists w2. split; [by eapply printed_trans|done].
Qed.

Lemma gantt_times_spec n gantt : forall i w,
  exists w', printed w w' /\ for_each (gantt_time n) i gantt w = (Returned tt, w').
Proof.
  induction gantt as [|ts gantt IH]; intros i w.
  - exists w. split; [apply printed_refl|done].
  - simpl. rewrite IO_bind_unfold. unfold gantt_time at 1. rewrite IO_bind_unfold.
    destruct (Fprint_printed (fmt.Sprint (Start ts) +:+ TAB) w) as (w1 & -> & Hw1).
    destruct (Z.of_nat n - 1 =? Z.of_nat i).
    + destruct (Fprint_printed (fmt.Sprint (Stop ts)) w1) as (w2 & -> & Hw2).
      destruct (IH (S i) w2) as (w3 & Hw3 & ->).
      exists w3. split; [|done]. eauto using printed_trans.
    + simpl. destruct (IH (S i) w1) as (w3 & Hw3 & ->).
      exists w3. split; [|done]. eauto using printed_trans.
Qed.

Lemma outputGantt_spec gantt w :
  Forall (fun ts => Int64.in_range (PID ts)) gantt ->
  exists w', printed w w' /\
    outputGantt gantt w
    = ((if existsb (fun ts => wide (PID ts)) gantt then Panicked negative_repeat
        else Returned tt), w').
Proof.
  intros Hpids. unfold outputGantt.
  rewrite IO_bind_unfold.
  destruct (Fprintln_printed ["Gantt schedule"] w) as (w1 & -> & Hw1).
  rewrite IO_bind_unfold.
  destruct (Fprint_printed "|" w1) as (w2 & -> & Hw2).
  rewrite IO_bind_unfold.
  destruct (gantt_cells_spec gantt 0%nat w2 Hpids) as (w3 & Hw3 & ->).
  destruct (existsb _ gantt).
  { exists w3. split; [|done]. eauto using printed_trans. }
  rewrite IO_bind_unfold.
  destruct (Fprintln_printed [] w3) as (w4 & -> & Hw4).
  rewrite IO_bind_unfold.
  destruct (gantt_times_spec (length gantt) gantt 0%nat w4) as (w5 & Hw5 & ->).
  destruct (Fprint_printed (LF +:+ LF) w5) as (w6 & -> & Hw6).
  exists w6. split; [|done]. eauto 10 using printed_trans.
Qed.

Lemma outputTitle_spec title w :
  exists w', printed w w' /\ outputTitle title w = (Returned tt, w').
Proof.
  unfold outputTitle.
  assert (0 <= strlen title) by (unfold strlen; lia).
  rewrite IO_bind_unfold, Repeat_returns by lia.
  rewrite IO_bind_unfold.
  destruct (Fprintln_printed [String.concat "" (replicate (Z.to_nat (strlen title * 2)) "-")] w)
    as (w1 & -> & Hw1).
  rewrite IO_bind_unfold, Repeat_returns by (apply Z.quot_pos; lia).
  rewrite IO_bind_unfold.
  destruct (Fprintln_printed
              [String.concat "" (replicate (Z.to_nat (strlen title ÷ 2)) " "); title] w1)
    as (w2 & -> & Hw2).
  rewrite IO_bind_unfold, Repeat_returns by lia.
  destruct (Fprintln_printed [String.concat "" (replicate (Z.to_nat (strlen title * 2)) "-")] w2)
    as (w3 & -> & Hw3).
  exists w3. split; [|done]. eauto using printed_trans.
Qed.

Lemma outputSchedule_spec `{Renderer} rows wait turnaround throughput w :
  exists w', printed w w' /\
    outputSchedule rows wait turnaround throughput w = (Returned tt, w').
Proof.
  unfold outputSchedule. rewrite IO_bind_unfold.
  destruct (Fprintln_printed ["Schedule table"] w) as (w1 & -> & Hw1).
  match goal with |- context [Fprint ?text w1] =>
    destruct (Fprint_printed text w1) as (w2 & -> & Hw2) end.
  exists w2. split; [|done]. eauto using printed_trans.
Qed.

(** The three output calls of a scheduler: they panic exactly when an id of
    the timeline prints with ten characters or more. *)
Lemma output_spec `{Renderer} title out w :
  Forall (fun ts => Int64.in_range (PID ts)) (outGantt out) ->
  exists w', printed w w' /\
    output title out w
    = ((if existsb (fun ts => wide (PID ts)) (outGantt out) then Panicked negative_repeat
        else Returned tt), w').
Proof.
  intros Hpids. unfold output. rewrite IO_bind_unfold.
  destruct (outputTitle_spec title w) as (w1 & Hw1 & ->).
  rewrite IO_bind_unfold.
  destruct (outputGantt_spec (outGantt out) w1 Hpids) as (w2 & Hw2 & ->).
  destruct (existsb _ (outGantt out)).
  { exists w2. split; [|done]. eauto using printed_trans. }
  destruct (outputSchedule_spec (outSchedule out) (aveWait out) (aveTurnaround out)
              (aveThroughput out) w2) as (w3 & Hw3 & ->).
  exists w3. split; [|done]. eauto using printed_trans.
Qed.

(** [outputGantt] panics, in [strings.Repeat] with a negative count, exactly
    when the process id of some interval prints with ten characters or more,
    that is when it is at least [10^9] or at most [-10^8]; what was printed
    before stays printed. Otherwise it returns. It writes to the standard
    output only. *)
Theorem outputGantt_panics_on_wide_id (gantt : list TimeSlice) (w : World) :
  Forall (fun ts => Int64.in_range (PID ts)) gantt ->
  exists w', printed w w' /\
    outputGantt gantt w
    = ((if existsb (fun ts => wide (PID ts)) gantt then Panicked negative_repeat
        else Returned tt), w').
Proof. apply outputGantt_spec. Qed.

Lemma outputGantt_panics_on_wide_id_witness :
  exists w', printed (mkWorld "" []) w' /\
    outputGantt [mkTimeSlice 1 0 5; mkTimeSlice 1000000000 5 8] (mkWorld "" [])
    = (Panicked negative_repeat, w').
Proof.
  apply (outputGantt_panics_on_wide_id
           [mkTimeSlice 1 0 5; mkTimeSlice 1000000000 5 8] (mkWorld "" [])).
  repeat constructor; by apply in_rangeb_spec.
Defined.

(** ** Timelines of the non-preemptive schedulers *)

Lemma fold_indexed_prefix {S : Type} (f : nat -> Process -> S -> S)
    (all : list Process) (I : list Process -> S -> Prop) :
  (forall done p rest s,
     all = done ++ p :: rest -> I done s -> I (done ++ [p]) (f (length done) p s)) ->
  forall ps done s,
    all = done ++ ps -> I done s -> I all (fold_indexed f (length done) ps s).
Proof.
  intros Hstep ps. induction ps as [|p ps IH]; intros done s Hall Hs; simpl.
  - by rewrite Hall, app_nil_r.
  - specialize (IH (done ++ [p]) (f (length done) p s)).
    rewrite length_app, Nat.add_1_r in IH. apply IH.
    + by rewrite <- app_assoc.
    + by eapply Hstep.
Qed.

Lemma Zsum_fmap_one {A} (f : A -> Z) x : Zsum (f <$> [x]) = f x.
Proof. unfold Zsum. simpl. lia. Qed.

Lemma service_snoc done p :
  service (done ++ [p]) = Int64.add (service done) (BurstDuration p).
Proof. unfold service. by rewrite fold_left_app. Qed.

Lemma service_in_range ps : Int64.in_range (service ps).
Proof.
  induction ps as [|p ps _] using rev_ind.
  - unfold service. simpl. unfold Int64.in_range, Int64.min_int, Int64.max_int. lia.
  - rewrite service_snoc. apply add_in_range.
Qed.

(** The table begins with the rows [rs]; the slots that follow are empty. *)
Lemma insert_next_row (rs : list Row) (r : Row) (k : nat) :
  <[length rs := Some r]> ((Some <$> rs) ++ replicate (S k) None)
  = (Some <$> (rs ++ [r])) ++ replicate k None.
Proof.
  rewrite insert_app_r_alt by (rewrite length_fmap; lia).
  rewrite length_fmap, Nat.sub_diag. simpl.
  by rewrite fmap_app, <- app_assoc.
Qed.

Lemma FCFS_after_step all done p rest s rs :
  all = done ++ p :: rest -> FCFS_after all done s rs ->
  exists r, FCFS_after all (done ++ [p]) (FCFS.step (length done) p s) (rs ++ [r]).
Proof.
  intros Hall [Hsched Hwait Hturn Hlast Hserv Hfirst Hrows Hgantt Hentries].
  eexists. split; simpl.
  - rewrite Hsched, <- Hrows.
    replace (length all - length rs)%nat with (S (length all - length (done ++ [p]))).
    + apply insert_next_row.
    + rewrite Hall, !length_app. simpl. lia.
  - rewrite fmap_app. cbn [fmap list_fmap]. by rewrite fsum_snoc, Hwait.
  - rewrite fmap_app. cbn [fmap list_fmap]. by rewrite fsum_snoc, Hturn.
  - by rewrite last_exit_snoc.
  - by rewrite service_snoc, Hserv.
  - intros Hnil. by apply app_eq_nil in Hnil as [_ ?].
  - rewrite !length_app. simpl. lia.
  - rewrite !length_app. simpl. lia.
  - intros i p' r ts Hp' Hr Hts.
    destruct (decide (i < length done)%nat) as [Hi|Hi].
    + rewrite lookup_app_l in Hr by lia. rewrite lookup_app_l in Hts by lia. eauto.
    + assert (i = length done) as ->.
      { apply lookup_lt_Some in Hr. rewrite length_app in Hr. simpl in Hr. lia. }
      rewrite <- Hrows, list_lookup_middle in Hr by done. injection Hr as <-.
      rewrite <- Hgantt, list_lookup_middle in Hts by done. injection Hts as <-.
      rewrite Hall, list_lookup_middle in Hp' by done. injection Hp' as <-.
      assert (Htake : take (length done) all = done).
      { by rewrite Hall, take_app_length. }
      assert (HtakeS : take (S (length done)) all = done ++ [p]).
      { rewrite Hall.
        replace (done ++ p :: rest) with ((done ++ [p]) ++ rest) by (by rewrite <- app_assoc).
        rewrite take_app_length'; [done|rewrite length_app; simpl; lia]. }
      unfold FCFS_entry. simpl. rewrite Htake, HtakeS, service_snoc, Hserv.
      split; [done|]. split; [done|]. split; [done|]. split; [done|].
      pose proof (service_in_range done) as Hin.
      destruct (Z.ltb_spec 0 (ArrivalTime p)) as [Hpos|Hneg].
      * split; [wrap_norm|]. split; [|lia]. intros _.
        split; [|split; [done|wrap_norm]].
        unfold Int64.add, Int64.sub. rewrite wrap_add_l.
        replace (service done - ArrivalTime p + ArrivalTime p)
          with (service done) by lia. by apply wrap_id.
      * split; [wrap_norm|]. split; [lia|]. intros Hzero _ Harr.
        apply length_zero_iff_nil in Hzero. rewrite (Hfirst Hzero).
        split; [|done]. unfold Int64.add. rewrite Z.add_0_l. by apply wrap_id.
Qed.

Lemma FCFS_after_init all : FCFS_after all [] (FCFS.init (length all)) [].
Proof.
  split; simpl; try done. by rewrite Nat.sub_0_r.
Qed.

(** [FCFSSchedule] on [ps]: the state on which it computes its averages. *)
Lemma FCFS_run ps :
  exists s rs,
    FCFSSchedule ps = Ok (FCFS.finish (length ps) s, ps) /\ FCFS_after ps ps s rs.
Proof.
  rewrite FCFSSchedule_eq.
  pose proof (fold_indexed_prefix FCFS.step ps
                (fun done s => exists rs, FCFS_after ps done s rs)) as H.
  destruct (H (fun done p rest s Hall '(ex_intro _ rs Hrs) =>
                 match FCFS_after_step ps done p rest s rs Hall Hrs with
                 | ex_intro _ r Hr => ex_intro _ (rs ++ [r]) Hr
                 end)
              ps [] (FCFS.init (length ps)) eq_refl
              (ex_intro _ [] (FCFS_after_init ps))) as [rs Hrs].
  by eexists _, rs.
Qed.

Lemma FCFS_after_schedule ps s rs :
  FCFS_after ps ps s rs -> column_means (length ps) rs (FCFS.finish (length ps) s).
Proof.
  intros [Hsched Hwait Hturn Hlast _ _ _ _ _]. unfold column_means, FCFS.finish. simpl.
  rewrite Hsched, Hwait, Hturn, Hlast, Nat.sub_diag. simpl. by rewrite app_nil_r.
Qed.


(** *** First-come, first-serve on an input that keeps the processor busy *)

Lemma nonpreemptive_length ps : forall t, length (nonpreemptive t ps) = length ps.
Proof. induction ps as [|p ps IH]; intros t; simpl; [done|]. by rewrite IH. Qed.

Lemma Zsum_cons z zs : Zsum (z :: zs) = z + Zsum zs.
Proof. done. Qed.

(** When no process arrives after the processor is free, the intervals are
    those of the sums of the bursts. *)
Lemma nonpreemptive_lookup ps : forall t i p,
  (forall j q, ps !! j = Some q ->
               ArrivalTime q <= t + Zsum (BurstDuration <$> take j ps)) ->
  ps !! i = Some p ->
  nonpreemptive t ps !! i
  = Some (mkTimeSlice (ProcessID p) (t + Zsum (BurstDuration <$> take i ps))
            (t + Zsum (BurstDuration <$> take (S i) ps))).
Proof.
  induction ps as [|p0 ps IH]; intros t i p Hbusy Hp; [done|].
  assert (Hmax : Z.max t (ArrivalTime p0) = t).
  { specialize (Hbusy 0%nat p0 eq_refl). simpl in Hbusy. change (Zsum []) with 0 in Hbusy. lia. }
  destruct i as [|i]; simpl in Hp.
  - injection Hp as <-. simpl. rewrite Hmax. unfold Zsum. simpl. do 2 f_equal; lia.
  - change (nonpreemptive t (p0 :: ps) !! S i)
      with (nonpreemptive (Z.max t (ArrivalTime p0) + BurstDuration p0) ps !! i).
    rewrite Hmax, (IH (t + BurstDuration p0) i p).
    + replace (take (S i) (p0 :: ps)) with (p0 :: take i ps) by done.
      replace (take (S (S i)) (p0 :: ps)) with (p0 :: take (S i) ps) by done.
      rewrite !fmap_cons, !Zsum_cons. do 2 f_equal; lia.
    + intros j q Hq. specialize (Hbusy (S j) q Hq).
      replace (take (S j) (p0 :: ps)) with (p0 :: take j ps) in Hbusy by done.
      rewrite fmap_cons, Zsum_cons in Hbusy. lia.
    + done.
Qed.

Lemma service_exact ps :
  (forall k, (k <= length ps)%nat -> Int64.in_range (Zsum (BurstDuration <$> take k ps))) ->
  forall k, (k <= length ps)%nat -> service (take k ps) = Zsum (BurstDuration <$> take k ps).
Proof.
  intros Hfit k. induction k as [|k IH]; intros Hk.
  - by rewrite take_0.
  - destruct (ps !! k) as [p|] eqn:Hp.
    2:{ apply lookup_ge_None in Hp. lia. }
    specialize (Hfit (S k) Hk).
    rewrite (take_S_r _ _ _ Hp) in *. rewrite service_snoc, IH by lia.
    rewrite fmap_app, Zsum_app, Zsum_fmap_one in *. unfold Int64.add. by apply wrap_id.
Qed.

(** *** Priority *)

Lemma Priority_after_step all done p rest s rs :
  all = done ++ p :: rest -> Priority_after (length all) (length done) s rs ->
  exists r,
    Priority_after (length all) (length (done ++ [p]))
      (SJFPriority.step (length done) p s) (rs ++ [r]).
Proof.
  intros Hall [Hsched Hwait Hturn Hlast Hrows].
  unfold SJFPriority.step.
  destruct (if SJFPriority.serviceTime s <? ArrivalTime p
            then (0, ArrivalTime p)
            else (Int64.sub (SJFPriority.serviceTime s) (ArrivalTime p),
                  SJFPriority.serviceTime s)) as [waitingTime serviceTime].
  eexists. split; simpl.
  - rewrite Hsched, <- Hrows.
    replace (length all - length rs)%nat with (S (length all - length (done ++ [p]))).
    + apply insert_next_row.
    + rewrite Hall, Hrows, !length_app. simpl. lia.
  - rewrite fmap_app. cbn [fmap list_fmap]. by rewrite fsum_snoc, Hwait.
  - rewrite fmap_app. cbn [fmap list_fmap]. by rewrite fsum_snoc, Hturn.
  - by rewrite last_exit_snoc.
  - rewrite !length_app. simpl. lia.
Qed.

Lemma Priority_run `{SliceSorter} ps :
  exists s rs,
    SJFPrioritySchedule ps
    = Ok (SJFPriority.finish (length ps) s, sortSlice SJFPriority.less ps) /\
    Priority_after (length ps) (length ps) s rs.
Proof.
  rewrite SJFPrioritySchedule_eq. cbv zeta.
  set (sorted := sortSlice SJFPriority.less ps).
  assert (Hlen : length sorted = length ps) by apply sortSlice_length.
  pose proof (fold_indexed_prefix SJFPriority.step sorted
                (fun done s => exists rs,
                   Priority_after (length sorted) (length done) s rs)) as Hfold.
  destruct (Hfold (fun done p rest s Hall '(ex_intro _ rs Hrs) =>
                 match Priority_after_step sorted done p rest s rs Hall Hrs with
                 | ex_intro _ r Hr => ex_intro _ (rs ++ [r]) Hr
                 end)
              sorted [] (SJFPriority.init (length ps)) eq_refl) as [rs Hrs].
  { exists []. split; simpl; try done. by rewrite Nat.sub_0_r, Hlen. }
  rewrite Hlen in Hrs. by eexists _, rs.
Qed.

Lemma Priority_after_schedule n s rs :
  Priority_after n n s rs -> column_means n rs (SJFPriority.finish n s).
Proof.
  intros [Hsched Hwait Hturn Hlast _]. unfold column_means, SJFPriority.finish. simpl.
  rewrite Hsched, Hwait, Hturn, Hlast, Nat.sub_diag. simpl. by rewrite app_nil_r.
Qed.

Lemma in_range_0 : Int64.in_range 0.
Proof. unfold Int64.in_range, Int64.min_int, Int64.max_int. lia. Qed.

(** The timeline and the rows of [SJFPrioritySchedule] when no time exceeds
    64 bits. *)
Lemma Priority_fold ps : forall s rs0 k,
  SJFPriority.schedule s = (Some <$> rs0) ++ replicate (length ps + k) None ->
  Int64.in_range (SJFPriority.serviceTime s) ->
  Forall wf_process ps -> Forall (fun p => 0 <= ArrivalTime p) ps ->
  fits (nonpreemptive (SJFPriority.serviceTime s) ps) ->
  let s' := fold_indexed SJFPriority.step (length rs0) ps s in
  exists rs,
    SJFPriority.schedule s' = (Some <$> (rs0 ++ rs)) ++ replicate k None /\
    SJFPriority.gantt s'
    = SJFPriority.gantt s ++ nonpreemptive (SJFPriority.serviceTime s) ps /\
    Forall2 row_for ps rs /\
    Forall2 row_of_slice rs (nonpreemptive (SJFPriority.serviceTime s) ps).
Proof.
  induction ps as [|p ps IH]; intros s rs0 k Hsched Ht Hwf Harr Hfits; simpl.
  - exists []. rewrite !app_nil_r. done.
  - apply Forall_cons in Hwf as [(Hid & Ha & Hb & Hp) Hwf].
    apply Forall_cons in Harr as [Ha0 Harr].
    simpl in Hfits. apply Forall_cons in Hfits as [Hstop Hfits]. simpl in Hstop.
    change (length (p :: ps) + k)%nat with (S (length ps + k)) in Hsched.
    set (t := SJFPriority.serviceTime s) in *.
    set (start := Z.max t (ArrivalTime p)) in *.
    set (s1 := SJFPriority.step (length rs0) p s).
    assert (Hstart : Int64.in_range start).
    { unfold start, Int64.in_range in *. lia. }
    assert (Hs1 : exists r,
      SJFPriority.schedule s1 = (Some <$> (rs0 ++ [r])) ++ replicate (length ps + k) None /\
      SJFPriority.gantt s1
      = SJFPriority.gantt s ++ [mkTimeSlice (ProcessID p) start (start + BurstDuration p)] /\
      SJFPriority.serviceTime s1 = start + BurstDuration p /\
      row_for p r /\
      row_of_slice r (mkTimeSlice (ProcessID p) start (start + BurstDuration p))).
    { unfold s1, SJFPriority.step. fold t.
      destruct (Z.ltb_spec t (ArrivalTime p)) as [Hlt|Hge].
      - assert (start = ArrivalTime p) as Hs by (unfold start; lia).
        eexists. simpl. rewrite Hsched, insert_next_row.
        split; [done|]. rewrite <- Hs. unfold Int64.add at 1 2. rewrite (wrap_id _ Hstop).
        split; [done|]. split; [done|]. split; [done|].
        unfold row_of_slice. simpl. split; [done|]. split; [lia|].
        split; [|unfold Int64.add; by rewrite wrap_id].
        unfold Int64.add. rewrite Z.add_0_r. rewrite wrap_id by done. lia.
      - assert (start = t) as Hs by (unfold start; lia).
        assert (Hw : Int64.sub t (ArrivalTime p) = t - ArrivalTime p).
        { apply wrap_id. unfold Int64.in_range, Int64.min_int, Int64.max_int in *.
          int64_consts. lia. }
        eexists. simpl. rewrite Hsched, insert_next_row.
        split; [done|]. rewrite <- Hs. unfold Int64.add at 1 2. rewrite (wrap_id _ Hstop).
        split; [done|]. split; [done|]. split; [done|].
        unfold row_of_slice. simpl. rewrite <- Hs in Hw. rewrite Hw.
        split; [done|]. split; [done|].
        split; [|unfold Int64.add; by rewrite wrap_id].
        unfold Int64.add.
        replace (BurstDuration p + (start - ArrivalTime p))
          with (start + BurstDuration p - ArrivalTime p) by lia.
        apply wrap_id. unfold Int64.in_range, Int64.min_int, Int64.max_int in *.
        int64_consts. lia. }
    destruct Hs1 as (r & Hsched1 & Hgantt1 & Hserv1 & Hrow & Hslice).
    destruct (IH s1 (rs0 ++ [r]) k) as (rs & Hsched' & Hgantt' & Hrows & Hslices);
      try done.
    { by rewrite Hserv1. }
    { by rewrite Hserv1. }
    rewrite length_app, Nat.add_1_r in Hsched', Hgantt'.
    exists (r :: rs). rewrite Hsched', Hgantt', Hgantt1, Hserv1, <- !app_assoc.
    split; [done|]. split; [done|].
    split; (constructor; [assumption|]); [exact Hrows|by rewrite <- Hserv1].
Qed.

(** *** Shortest-job-first *)

Lemma SJF_step_gantt current s mem s' mem' :
  SJF.step current s mem = Ok (s', mem') ->
  exists start stop,
    SJF.gantt s' = SJF.gantt s ++ [mkTimeSlice (ProcessID current) start stop] /\
    SJF.currentTime s' = stop /\
    (Int64.in_range (SJF.currentTime s) -> Int64.in_range (ArrivalTime current) ->
     start = Z.max (SJF.currentTime s) (ArrivalTime current) /\
     stop = Int64.wrap (start + BurstDuration current)).
Proof.
  unfold SJF.step, bind, store_row.
  destruct ((0 <=? _) && (_ <? _)); [|done]. intros [= <- <-]. simpl.
  eexists _, _. split; [done|]. split; [done|]. intros Ht Ha.
  destruct (Z.ltb_spec (SJF.currentTime s) (ArrivalTime current)) as [Hlt|Hge].
  - assert (Hstart : Int64.add (SJF.currentTime s)
                       (Int64.sub (ArrivalTime current) (SJF.currentTime s))
                     = ArrivalTime current).
    { unfold Int64.add, Int64.sub. rewrite wrap_add_r.
      replace (SJF.currentTime s + (ArrivalTime current - SJF.currentTime s))
        with (ArrivalTime current) by lia. by apply wrap_id. }
    rewrite Hstart. split; [lia|]. unfold Int64.add. f_equal. lia.
  - assert (Hstart : Int64.add (SJF.currentTime s) 0 = SJF.currentTime s).
    { unfold Int64.add. rewrite Z.add_0_r. by apply wrap_id. }
    rewrite Hstart. split; [lia|]. unfold Int64.add. f_equal. lia.
Qed.

Lemma SJF_loop_pids remaining : forall s mem s' mem',
  SJF.loop remaining s mem = Ok (s', mem') ->
  PID <$> SJF.gantt s' = (PID <$> SJF.gantt s) ++ (ProcessID <$> remaining).
Proof.
  induction remaining as [|current remaining IH]; intros s mem s' mem' Hrun; simpl in Hrun.
  - injection Hrun as <- <-. by rewrite app_nil_r.
  - unfold bind in Hrun.
    destruct (SJF.step current s mem) as [[s1 mem1]| |] eqn:Hstep; [|done|done].
    apply SJF_step_gantt in Hstep as (start & stop & Hgantt & _).
    rewrite (IH _ _ _ _ Hrun), Hgantt, fmap_app. simpl. by rewrite <- app_assoc.
Qed.

Lemma SJF_loop_gantt remaining : forall s mem s' mem',
  Int64.in_range (SJF.currentTime s) -> Forall wf_process remaining ->
  fits (nonpreemptive (SJF.currentTime s) remaining) ->
  SJF.loop remaining s mem = Ok (s', mem') ->
  SJF.gantt s' = SJF.gantt s ++ nonpreemptive (SJF.currentTime s) remaining.
Proof.
  induction remaining as [|current remaining IH]; intros s mem s' mem' Ht Hwf Hfits Hrun;
    simpl in Hrun.
  - injection Hrun as <- <-. simpl. by rewrite app_nil_r.
  - unfold bind in Hrun.
    destruct (SJF.step current s mem) as [[s1 mem1]| |] eqn:Hstep; [|done|done].
    apply Forall_cons in Hwf as [(_ & Ha & _) Hwf].
    simpl in Hfits. apply Forall_cons in Hfits as [Hstop Hfits]. simpl in Hstop.
    apply SJF_step_gantt in Hstep as (start & stop & Hgantt & Htime & Hexact).
    destruct (Hexact Ht Ha) as [-> ->]. rewrite wrap_id in * by done.
    rewrite (IH s1 mem1 s' mem'); rewrite ?Htime; try done.
    rewrite Hgantt. simpl. by rewrite <- app_assoc.
Qed.

(** *** The timelines, stated *)

(** [FCFSSchedule] returns one row and one interval per process, in the order
    of its input. The interval of a process stops at the sum of the bursts up
    to it, whatever the arrival times: the processor counts as busy from time
    0 on. A process with a positive arrival time starts at the sum of the
    bursts before it and waits that sum less its arrival time, which is
    negative when it arrives later. *)
Theorem FCFS_timeline (ps : list Process) :
  exists out rs,
    FCFSSchedule ps = Ok (out, ps) /\
    outSchedule out = Some <$> rs /\
    length rs = length ps /\ length (outGantt out) = length ps /\
    forall i p r ts,
      ps !! i = Some p -> rs !! i = Some r -> outGantt out !! i = Some ts ->
      FCFS_entry ps i p r ts.
Proof.
  destruct (FCFS_run ps) as (s & rs & Hrun & Hafter).
  pose proof (FCFS_after_schedule _ _ _ Hafter) as [Hsched _].
  destruct Hafter as [_ _ _ _ _ _ Hrows Hgantt Hentries].
  by eexists _, rs.
Qed.

(** In [FCFSSchedule] and in [SJFPrioritySchedule] the three averages are
    those of the columns of the table: the float sum of the Wait column, and
    of the Turnaround column, added from the top and divided by the number
    of processes; and that number divided by the Exit of the last row. *)
Theorem averages_are_column_means `{SliceSorter} (ps : list Process) :
  (exists out rs,
     FCFSSchedule ps = Ok (out, ps) /\
     length rs = length ps /\ column_means (length ps) rs out)
  /\ (exists out rs,
        SJFPrioritySchedule ps = Ok (out, sortSlice SJFPriority.less ps) /\
        length rs = length ps /\ column_means (length ps) rs out).
Proof.
  split.
  - destruct (FCFS_run ps) as (s & rs & Hrun & Hafter).
    pose proof (FCFS_after_schedule _ _ _ Hafter) as Hmeans.
    destruct Hafter as [_ _ _ _ _ _ Hrows _ _]. by eexists _, rs.
  - destruct (Priority_run ps) as (s & rs & Hrun & Hafter).
    pose proof (Priority_after_schedule _ _ _ Hafter) as Hmeans.
    destruct Hafter as [_ _ _ _ Hrows]. by eexists _, rs.
Qed.

(** [SJFSchedule] runs the processes in the order in which [sort.Slice]
    leaves them under the comparison of the bursts, whatever their arrival
    times. When no stop time exceeds 64 bits its timeline is the one of
    [nonpreemptive]: each process starts when the one before it stops, or at
    its arrival time if that is later, and runs for its burst. *)
Theorem SJF_timeline `{SliceSorter} (ps : list Process) (out : Output)
    (mem : list Process) :
  SJFSchedule ps = Ok (out, mem) ->
  PID <$> outGantt out = ProcessID <$> sortSlice SJF.less ps
  /\ (Forall wf_process ps ->
      fits (nonpreemptive 0 (sortSlice SJF.less ps)) ->
      outGantt out = nonpreemptive 0 (sortSlice SJF.less ps)).
Proof.
  rewrite SJFSchedule_unfold.
  destruct (SJF.loop _ _ _) as [[s mem1]| |] eqn:Hloop; [|done|done].
  intros [= <- <-]. simpl. split.
  - by rewrite (SJF_loop_pids _ _ _ _ _ Hloop).
  - intros Hwf Hfits.
    rewrite (SJF_loop_gantt (sortSlice SJF.less ps) (SJF.init (length ps)) ps s mem1);
      try done.
    by rewrite sortSlice_perm.
Qed.

Lemma SJF_timeline_witness :
  exists out mem,
    SJFSchedule [process 1 8 0; process 2 4 1] = Ok (out, mem) /\
    PID <$> outGantt out = [2; 1] /\
    outGantt out = [mkTimeSlice 2 1 5; mkTimeSlice 1 5 13].
Proof.
  eexists _, _.
  assert (Hrun : SJFSchedule [process 1 8 0; process 2 4 1] = Ok (_, _))
    by (vm_compute; reflexivity).
  split; [exact Hrun|].
  destruct (SJF_timeline _ _ _ Hrun) as [Hpids Hgantt].
  split; [exact Hpids|]. apply Hgantt.
  - by apply wf_processb_spec.
  - repeat constructor; by apply in_rangeb_spec.
Defined.

(** [SJFPrioritySchedule], on an input whose arrival times are not negative
    and whose stop times do not exceed 64 bits: its timeline is the one of
    [nonpreemptive] for the slice as [sort.Slice] leaves it, its rows are
    those of the processes in that order, and each row agrees with the
    interval of its process (the wait runs from the arrival to the start,
    the turnaround from the arrival to the stop, the exit is the stop). *)
Theorem SJFPriority_timeline `{SliceSorter} (ps : list Process) :
  let sorted := sortSlice SJFPriority.less ps in
  Forall wf_process ps -> Forall (fun p => 0 <= ArrivalTime p) ps ->
  fits (nonpreemptive 0 sorted) ->
  exists out rs,
    SJFPrioritySchedule ps = Ok (out, sorted) /\
    outGantt out = nonpreemptive 0 sorted /\
    outSchedule out = Some <$> rs /\
    Forall2 row_for sorted rs /\
    Forall2 row_of_slice rs (outGantt out).
Proof.
  intros sorted Hwf Harr Hfits. rewrite SJFPrioritySchedule_eq. cbv zeta. fold sorted.
  assert (Hlen : length sorted = length ps) by apply sortSlice_length.
  destruct (Priority_fold sorted (SJFPriority.init (length ps)) [] 0)
    as (rs & Hsched & Hgantt & Hrows & Hslices).
  - simpl. by rewrite Nat.add_0_r, Hlen.
  - apply in_range_0.
  - unfold sorted. by rewrite sortSlice_perm.
  - unfold sorted. by rewrite sortSlice_perm.
  - done.
  - simpl in *. rewrite app_nil_r in Hsched.
    eexists _, rs. split; [done|]. simpl. rewrite Hgantt. done.
Qed.

Lemma SJFPriority_timeline_witness :
  exists out rs,
    SJFPrioritySchedule [process 1 8 0; process 2 4 1]
    = Ok (out, [process 2 4 1; process 1 8 0]) /\
    outGantt out = [mkTimeSlice 2 1 5; mkTimeSlice 1 5 13] /\
    outSchedule out = Some <$> rs /\
    Forall2 row_for [process 2 4 1; process 1 8 0] rs /\
    Forall2 row_of_slice rs (outGantt out).
Proof.
  refine (SJFPriority_timeline (H := insertion_sorter)
            [process 1 8 0; process 2 4 1] _ _ _).
  - by apply wf_processb_spec.
  - repeat constructor; simpl; lia.
  - repeat constructor; by apply in_rangeb_spec.
Defined.

(** [FCFSSchedule] on an input that keeps the processor busy (the first
    process arrives at 0, every other at a positive time no later than the
    sum of the bursts before it), with no stop time beyond 64 bits: its
    timeline is the one of [nonpreemptive], and each row agrees with the
    interval of its process. *)
Theorem FCFS_busy_timeline (ps : list Process) :
  Forall wf_process ps -> busy ps -> fits (nonpreemptive 0 ps) ->
  exists out rs,
    FCFSSchedule ps = Ok (out, ps) /\
    outGantt out = nonpreemptive 0 ps /\
    outSchedule out = Some <$> rs /\
    Forall2 row_for ps rs /\
    Forall2 row_of_slice rs (outGantt out).
Proof.
  intros Hwf Hbusy Hfits.
  destruct (FCFS_run ps) as (s & rs & Hrun & Hafter).
  pose proof (FCFS_after_schedule _ _ _ Hafter) as [Hsched _].
  destruct Hafter as [_ _ _ _ _ _ Hrows Hgantt Hentries].
  (* the ideal timeline, interval by interval *)
  assert (Hideal : forall i p, ps !! i = Some p ->
            nonpreemptive 0 ps !! i
            = Some (mkTimeSlice (ProcessID p) (Zsum (BurstDuration <$> take i ps))
                      (Zsum (BurstDuration <$> take (S i) ps)))).
  { intros i p Hp. rewrite (nonpreemptive_lookup ps 0 i p); [done| |done].
    intros j q Hq. destruct (Hbusy j q Hq) as [[-> ->]|[_ Hle]]; [|lia].
    rewrite take_0. change (Zsum (BurstDuration <$> [])) with 0. lia. }
  (* the sums of the bursts are 64-bit values *)
  assert (Hfit : forall k, (k <= length ps)%nat ->
            Int64.in_range (Zsum (BurstDuration <$> take k ps))).
  { intros [|k] Hk; [rewrite take_0; apply in_range_0|].
    destruct (ps !! k) as [p|] eqn:Hp.
    2:{ apply lookup_ge_None in Hp. lia. }
    unfold fits in Hfits. rewrite Forall_lookup in Hfits.
    apply (Hfits k _ (Hideal k p Hp)). }
  pose proof (service_exact ps Hfit) as Hservice.
  assert (Hslices : forall i p r ts,
            ps !! i = Some p -> rs !! i = Some r -> FCFS.gantt s !! i = Some ts ->
            nonpreemptive 0 ps !! i = Some ts /\ row_for p r /\ row_of_slice r ts).
  { intros i p r ts Hp Hr Hts.
    destruct (Hentries i p r ts Hp Hr Hts)
      as (Hfor & Hpid & Hstop & Hturn & Hexit & Hpos & Hfirst).
    assert (Hi : (i < length ps)%nat) by (by eapply lookup_lt_Some).
    rewrite Hservice in Hstop by lia.
    rewrite Forall_lookup in Hwf. destruct (Hwf i p Hp) as (_ & Harr & Hburst & _).
    pose proof Hfor as (Hrid & _ & Hrb & Hra).
    assert (Hstart : Start ts = Zsum (BurstDuration <$> take i ps) /\
                     rowWait r = Start ts - ArrivalTime p).
    { destruct (Hbusy i p Hp) as [[-> Hzero]|[Hp0 Hle]].
      - destruct Hfirst as [-> ->]; [done|lia|done|].
        rewrite take_0. change (Zsum (BurstDuration <$> [])) with 0. lia.
      - destruct (Hpos Hp0) as (-> & -> & _). rewrite Hservice by lia.
        split; [done|]. apply wrap_id.
        pose proof (Hfit i ltac:(lia)) as Hin.
        revert Hin Harr. unfold Int64.in_range, Int64.min_int, Int64.max_int.
        int64_consts. lia. }
    destruct Hstart as [Hstart Hwait].
    assert (Hsum : Zsum (BurstDuration <$> take (S i) ps)
                   = Zsum (BurstDuration <$> take i ps) + BurstDuration p).
    { by rewrite (take_S_r _ _ _ Hp), fmap_app, Zsum_app, Zsum_fmap_one. }
    split; [|split; [done|]].
    - rewrite (Hideal i p Hp). destruct ts as [pid start stop]. simpl in *. congruence.
    - unfold row_of_slice. rewrite Hra, Hrid, Hpid, Hwait.
      split; [done|]. split; [done|].
      assert (Hex : rowExit r = Stop ts).
      { rewrite Hexit, Hra, Hrb, Hwait, Hstop, Hsum, Hstart.
        pose proof (Hfit (S i) ltac:(lia)) as Hin. rewrite Hsum in Hin.
        unfold Int64.add. rewrite wrap_add_l.
        replace (ArrivalTime p + (Zsum (BurstDuration <$> take i ps) - ArrivalTime p)
                 + BurstDuration p)
          with (Zsum (BurstDuration <$> take i ps) + BurstDuration p) by lia.
        by apply wrap_id. }
      split; [|done].
      rewrite Hturn, Hrb, Hwait, Hstop, Hsum, Hstart.
      unfold Int64.add.
      replace (BurstDuration p + (Zsum (BurstDuration <$> take i ps) - ArrivalTime p))
        with (Zsum (BurstDuration <$> take i ps) + BurstDuration p - ArrivalTime p) by lia.
      apply wrap_id.
      pose proof (Hfit (S i) ltac:(lia)) as Hin. rewrite Hsum in Hin.
      pose proof (Hfit i ltac:(lia)) as Hin'.
      destruct (Hbusy i p Hp) as [[_ Hzero]|[Hp0 Hle]];
        revert Hin Hin' Harr Hburst; unfold Int64.in_range, Int64.min_int, Int64.max_int;
        int64_consts; lia. }
  eexists _, rs. split; [exact Hrun|]. simpl.
  assert (Hg : FCFS.gantt s = nonpreemptive 0 ps).
  { apply list_eq_same_length with (length ps); [by rewrite nonpreemptive_length|done|].
    intros i ts ts' Hi Hts Hts'.
    destruct (lookup_lt_is_Some_2 ps i Hi) as [p Hp].
    destruct (lookup_lt_is_Some_2 rs i ltac:(lia)) as [r Hr].
    destruct (Hslices i p r ts Hp Hr Hts) as [Hnp _]. congruence. }
  split; [done|]. split; [done|]. split.
  - apply Forall2_same_length_lookup_2; [lia|]. intros i p r Hp Hr.
    destruct (lookup_lt_is_Some_2 (FCFS.gantt s) i) as [ts Hts].
    { apply lookup_lt_Some in Hp. lia. }
    by destruct (Hslices i p r ts Hp Hr Hts) as (_ & ? & _).
  - apply Forall2_same_length_lookup_2; [lia|]. intros i r ts Hr Hts.
    destruct (lookup_lt_is_Some_2 ps i) as [p Hp].
    { apply lookup_lt_Some in Hr. lia. }
    by destruct (Hslices i p r ts Hp Hr Hts) as (_ & _ & ?).
Qed.

Lemma FCFS_busy_timeline_witness :
  exists out rs,
    FCFSSchedule [process 1 5 0; process 2 3 1]
    = Ok (out, [process 1 5 0; process 2 3 1]) /\
    outGantt out = [mkTimeSlice 1 0 5; mkTimeSlice 2 5 8] /\
    outSchedule out = Some <$> rs /\
    Forall2 row_for [process 1 5 0; process 2 3 1] rs /\
    Forall2 row_of_slice rs (outGantt out).
Proof.
  refine (FCFS_busy_timeline [process 1 5 0; process 2 3 1] _ _ _).
  - by apply wf_processb_spec.
  - intros [|[|i]] p Hp; [| |done].
    + injection Hp as <-. left. by split.
    + injection Hp as <-. right. unfold Zsum. simpl. lia.
  - repeat constructor; by apply in_rangeb_spec.
Defined.

(** ** Round-robin: rows and timeline *)

(** The invariant of a loop, for steps taken while the loop runs. *)
Lemma RR_loop_running (I : RR.State -> list Process -> Prop) :
  (forall s mem plen mem',
     I s mem ->
     (RR.plen s =? 0)%nat && bool_decide (RR.queue s = []) = false ->
     RR.admission (RR.currentTime s) (RR.plen s) (RR.queue s) mem = Ok ((plen, []), mem') ->
     I (RR.idle plen s) mem') ->
  (forall s mem plen currentProcess queue mem',
     I s mem ->
     RR.admission (RR.currentTime s) (RR.plen s) (RR.queue s) mem
     = Ok ((plen, currentProcess :: queue), mem') ->
     I (RR.dispatch currentProcess plen queue s) mem') ->
  forall fuel s mem s' mem',
    I s mem -> RR.loop fuel s mem = Ok (s', mem') ->
    I s' mem' /\ RR.plen s' = 0%nat /\ RR.queue s' = [].
Proof.
  intros Hidle Hdispatch fuel.
  induction fuel as [|fuel IH]; intros s mem s' mem' Hs Hrun;
    rewrite RR_loop_unfold in Hrun;
    destruct ((RR.plen s =? 0)%nat && bool_decide (RR.queue s = [])) eqn:Hexit.
  - injection Hrun as <- <-. by apply RR_loop_exit in Hexit.
  - done.
  - injection Hrun as <- <-. by apply RR_loop_exit in Hexit.
  - destruct (RR.admission _ _ _ _) as [[[plen [|c q]] mem1]| |] eqn:Hadmit; [| |done|done].
    + eapply IH; [|exact Hrun]. eapply Hidle; eauto.
    + eapply IH; [|exact Hrun]. eapply Hdispatch; eauto.
Qed.

Lemma RR_rows_idle keys s mem plen mem' :
  RR_rows keys s mem ->
  RR.admission (RR.currentTime s) (RR.plen s) (RR.queue s) mem = Ok ((plen, []), mem') ->
  RR_rows keys (RR.idle plen s) mem'.
Proof.
  intros [Hplen Hbursts Hkeys Hburst] Hadmit.
  apply RR_admit_perm in Hadmit as [Hplen' Hperm]; [|done].
  split; simpl; [done| | |done].
  - by rewrite Hperm.
  - by rewrite Hperm.
Qed.

Lemma snoc_Permutation {A} (k : A) (xs ys rs : list A) :
  (xs ++ ys ++ [k]) ++ rs ≡ₚ (k :: xs ++ ys) ++ rs.
Proof.
  apply Permutation_app_tail. rewrite app_assoc. symmetry. apply Permutation_cons_append.
Qed.

Lemma done_Permutation {A} (k : A) (xs rs : list A) :
  xs ++ rs ++ [k] ≡ₚ (k :: xs) ++ rs.
Proof.
  rewrite app_assoc. symmetry. apply Permutation_cons_append.
Qed.

(** The interval of a dispatch lasts the time executed. *)
Lemma dispatch_duration pid t e :
  Int64.in_range t -> Int64.in_range e ->
  duration (mkTimeSlice pid (Int64.sub (Int64.add t e) e) (Int64.add t e)) = e.
Proof.
  intros Ht He. unfold duration. simpl.
  rewrite sub_add_cancel by done. by apply sub_add_cancel_l.
Qed.

Lemma RR_rows_dispatch keys s mem plen currentProcess queue mem' :
  Int64.in_range (RR.currentTime s) ->
  RR_rows keys s mem ->
  RR.admission (RR.currentTime s) (RR.plen s) (RR.queue s) mem
  = Ok ((plen, currentProcess :: queue), mem') ->
  RR_rows keys (RR.dispatch currentProcess plen queue s) mem'.
Proof.
  intros Htime [Hplen Hbursts Hkeys Hburst] Hadmit.
  apply RR_admit_perm in Hadmit as [Hplen' Hperm]; [|done].
  rewrite <- Hperm in Hbursts, Hkeys.
  assert (Hperm' : take plen mem' ++ currentProcess :: queue
                   ≡ₚ currentProcess :: (take plen mem' ++ queue))
    by (by rewrite Permutation_middle).
  rewrite Hperm' in Hbursts, Hkeys. apply Forall_cons in Hbursts as [Hb Hrest].
  destruct (RR_exec_split (BurstDuration currentProcess) Hb) as (Hexec & Hq & Hleft & Hsplit).
  unfold RR.dispatch.
  set (e := if BurstDuration currentProcess <? quantum
            then BurstDuration currentProcess else quantum) in *.
  set (ts := mkTimeSlice (ProcessID currentProcess)
               (Int64.sub (Int64.add (RR.currentTime s) e) e)
               (Int64.add (RR.currentTime s) e)).
  assert (Hold : Forall (fun r => rowBurst r <= quantum /\
                   exists ts', ts' ∈ RR.gantt s ++ [ts] /\
                     last_slice r ts' /\ rowBurst r = duration ts') (RR.schedule s)).
  { eapply Forall_impl; [exact Hburst|]. intros r (Hr & ts' & Hts & Hlast).
    split; [done|]. exists ts'. split; [|done]. apply elem_of_app. by left. }
  destruct (0 <? _) eqn:Hmore; split; simpl; try done.
  - rewrite app_assoc. apply Forall_app. split; [done|].
    constructor; [|done]. simpl. apply sub_in_range.
  - rewrite <- Hkeys. rewrite fmap_cons, !fmap_app.
    apply (snoc_Permutation (process_key currentProcess)).
  - rewrite <- Hkeys. rewrite fmap_cons, !fmap_app.
    apply (done_Permutation (process_key currentProcess)).
  - apply Forall_app. split; [done|]. constructor; [|done]. simpl.
    apply Z.ltb_ge in Hmore.
    assert (Hb0 : Int64.sub (BurstDuration currentProcess) e = 0) by lia.
    assert (Hadd0 : Int64.add 0 e = e) by (unfold Int64.add; by rewrite Z.add_0_l, wrap_id).
    rewrite Hb0, Hadd0.
    split; [done|]. exists ts.
    split; [apply elem_of_app; right; by apply list_elem_of_singleton|].
    split; [done|]. unfold ts. by rewrite dispatch_duration.
Qed.

Lemma RR_rows_init `{SliceSorter} ps :
  Forall wf_process ps ->
  RR_rows (process_key <$> ps) (RR.init (length ps)) (sortSlice RR.less ps).
Proof.
  intros Hwf. pose proof (sortSlice_perm RR.less ps) as Hperm.
  assert (Htake : take (length ps) (sortSlice RR.less ps) = sortSlice RR.less ps).
  { apply firstn_all2. by rewrite sortSlice_length. }
  split; simpl; rewrite ?Htake, ?app_nil_r; try done.
  - by rewrite sortSlice_length.
  - rewrite Hperm. eapply Forall_impl; [exact Hwf|]. by intros p (_ & _ & ? & _).
  - by rewrite Hperm.
Qed.

Lemma RR_run_rows `{SliceSorter} fuel ps s mem :
  Forall wf_process ps -> RR_run fuel ps = Ok (s, mem) ->
  RR_rows (process_key <$> ps) s mem /\ RR.plen s = 0%nat /\ RR.queue s = [].
Proof.
  intros Hwf Hrun. rewrite RR_run_unfold in Hrun.
  apply (RR_loop_invariant
    (fun s mem => Int64.in_range (RR.currentTime s) /\ RR_rows (process_key <$> ps) s mem))
    in Hrun as ([_ Hrows] & Hplen & Hqueue); try done.
  - intros s0 mem0 plen mem0' [Ht Hr] Hadmit. split; [apply add_in_range|].
    by eapply RR_rows_idle.
  - intros s0 mem0 plen c q mem0' [Ht Hr] Hadmit. split.
    + unfold RR.dispatch. destruct (0 <? _); apply add_in_range.
    + by eapply RR_rows_dispatch.
  - split; [apply in_range_0|by apply RR_rows_init].
Qed.

(** *** The rows, stated *)

(** When [RRSchedule] returns, its table has one row per process of the
    input: the ids and priorities of the rows are those of the processes, up
    to the order. *)
Theorem RR_one_row_per_process `{SliceSorter} (fuel : nat) (ps : list Process)
    (out : Output) (mem : list Process) :
  Forall wf_process ps ->
  RRSchedule fuel ps = Ok (out, mem) ->
  row_key <$> rows (outSchedule out) ≡ₚ process_key <$> ps.
Proof.
  intros Hwf Hrun. apply RRSchedule_Ok in Hrun as (s & Hrun & ->).
  apply RR_run_rows in Hrun as ([_ _ Hkeys _] & Hplen & Hqueue); [|done].
  rewrite Hplen, Hqueue in Hkeys. simpl in Hkeys.
  change (outSchedule (RR.finish s)) with (Some <$> RR.schedule s).
  by rewrite rows_fmap_Some.
Qed.

Lemma RR_one_row_per_process_witness :
  exists out mem,
    RRSchedule 10 [process 1 9 0; process 2 5 1] = Ok (out, mem) /\
    row_key <$> rows (outSchedule out) ≡ₚ [(1, 0); (2, 0)].
Proof.
  eexists _, _.
  assert (Hrun : RRSchedule 10 [process 1 9 0; process 2 5 1] = Ok (_, _))
    by (vm_compute; reflexivity).
  split; [exact Hrun|].
  refine (RR_one_row_per_process 10 _ _ _ _ Hrun).
  by apply wf_processb_spec.
Defined.

(** When [RRSchedule] returns, the Burst column of a row is the length of the
    last interval of its process, the one that stops at the Exit of the row.
    It is at most the quantum, and it is never the burst of an input process
    that needs more than a quantum. *)
Theorem RR_burst_column `{SliceSorter} (fuel : nat) (ps : list Process)
    (out : Output) (mem : list Process) :
  Forall wf_process ps ->
  RRSchedule fuel ps = Ok (out, mem) ->
  forall r, r ∈ rows (outSchedule out) ->
    rowBurst r <= quantum /\
    (exists ts, ts ∈ outGantt out /\ last_slice r ts /\ rowBurst r = duration ts) /\
    (forall p, p ∈ ps -> quantum < BurstDuration p -> rowBurst r <> BurstDuration p).
Proof.
  intros Hwf Hrun r Hr. apply RRSchedule_Ok in Hrun as (s & Hrun & ->).
  apply RR_run_rows in Hrun as ([_ _ _ Hburst] & _); [|done].
  change (outSchedule (RR.finish s)) with (Some <$> RR.schedule s) in Hr.
  rewrite rows_fmap_Some in Hr.
  rewrite Forall_forall in Hburst. destruct (Hburst r Hr) as [Hq Hts].
  split; [done|]. split; [done|]. intros p _ Hp. lia.
Qed.

Lemma RR_burst_column_witness :
  exists out mem,
    RRSchedule 10 [process 1 9 0; process 2 5 1] = Ok (out, mem) /\
    rowBurst <$> rows (outSchedule out) = [1; 1] /\
    forall r, r ∈ rows (outSchedule out) ->
      rowBurst r <= quantum /\
      (exists ts, ts ∈ outGantt out /\ last_slice r ts /\ rowBurst r = duration ts) /\
      (forall p, p ∈ [process 1 9 0; process 2 5 1] -> quantum < BurstDuration p ->
                 rowBurst r <> BurstDuration p).
Proof.
  eexists _, _.
  assert (Hrun : RRSchedule 10 [process 1 9 0; process 2 5 1] = Ok (_, _))
    by (vm_compute; reflexivity).
  split; [exact Hrun|]. split; [vm_compute; reflexivity|].
  refine (RR_burst_column 10 _ _ _ _ Hrun).
  by apply wf_processb_spec.
Defined.

(** ** Round-robin: the timeline in exact arithmetic *)

Lemma sequential_snoc gantt : forall t ts,
  sequential t (gantt ++ [ts])
  <-> sequential t gantt /\ last_stop t gantt <= Start ts /\ Start ts <= Stop ts.
Proof.
  induction gantt as [|ts0 gantt IH]; intros t ts; simpl.
  - unfold last_stop. simpl. tauto.
  - rewrite IH. unfold last_stop. simpl.
    destruct gantt as [|ts1 gantt]; simpl; [tauto|].
    change (last (ts0 :: ts1 :: gantt)) with (last (ts1 :: gantt)).
    destruct (last (ts1 :: gantt)) eqn:Hlast; simpl; [tauto|].
    by apply last_None in Hlast.
Qed.

Lemma last_stop_snoc t gantt ts : last_stop t (gantt ++ [ts]) = Stop ts.
Proof. unfold last_stop. by rewrite last_snoc. Qed.

Lemma Zsum_nonneg zs : Forall (fun z => 0 <= z) zs -> 0 <= Zsum zs.
Proof. induction 1; simpl; [done|]. unfold Zsum in *. simpl. lia. Qed.

(** The processes that an admission pass adds to the queue had arrived, and
    were in the array. *)
Lemma admit_range_newcomers currentTime count :
  forall (i plen : nat) queue (mem : list Process) plen' queue' mem',
    (plen <= length mem)%nat ->
    for_range (RR.admit_body currentTime) i count (plen, queue) mem
    = Ok ((plen', queue'), mem') ->
    exists newcomers,
      queue' = queue ++ newcomers /\
      Forall (fun p => ArrivalTime p <= currentTime /\ p ∈ mem) newcomers.
Proof.
  induction count as [|count IH]; intros i plen queue mem plen' queue' mem' Hplen Hrun.
  - simpl in Hrun. injection Hrun as <- <- <-. exists []. by rewrite app_nil_r.
  - rewrite for_range_succ in Hrun.
    destruct (mem !! i) as [p|] eqn:Hp.
    2:{ by rewrite admit_body_load_fails in Hrun. }
    destruct (admit_body_cases currentTime i plen queue mem p Hp Hplen)
      as [[Hlate Hbody]|[(Hel & Hin & mem1 & Hbody & Hlen1 & _)|(Hel & Hout & Hbody)]];
      rewrite Hbody in Hrun; [| |done].
    + by eapply IH.
    + assert (Hsub : forall x, x ∈ mem1 -> x ∈ mem).
      { eapply (admit_range_subset currentTime 1 i plen queue mem); [done|].
        rewrite for_range_succ, Hbody. done. }
      apply IH in Hrun as (newcomers & -> & Hnew); [|lia].
      exists (p :: newcomers). rewrite <- app_assoc. split; [done|].
      constructor.
      * split; [done|]. by eapply list_elem_of_lookup_2.
      * eapply Forall_impl; [exact Hnew|]. intros x [Hx Hin1]. split; [done|]. by apply Hsub.
Qed.

Section Exact.

Context (ps : list Process) (T : Z).
Hypothesis Hwf : Forall wf_process ps.
Hypothesis Hwithin : within T ps.

Lemma within_bursts : 0 <= Zsum (BurstDuration <$> ps).
Proof.
  destruct Hwithin as (_ & Hps & _). apply Zsum_nonneg.
  apply Forall_fmap. eapply Forall_impl; [exact Hps|]. by intros p [? _].
Qed.

Lemma within_max : T + Zsum (BurstDuration <$> ps) <= Int64.max_int.
Proof. by destruct Hwithin as (_ & _ & ?). Qed.

Lemma exact_in_range t :
  0 <= t -> t <= T + Zsum (BurstDuration <$> ps) -> Int64.in_range t.
Proof.
  intros H0 Hle. pose proof within_max. unfold Int64.in_range, Int64.min_int.
  int64_consts. lia.
Qed.

Lemma RR_exact_idle s mem plen mem' :
  RR_exact ps T s mem ->
  (RR.plen s =? 0)%nat && bool_decide (RR.queue s = []) = false ->
  RR.admission (RR.currentTime s) (RR.plen s) (RR.queue s) mem = Ok ((plen, []), mem') ->
  RR_exact ps T (RR.idle plen s) mem'.
Proof.
  intros [Hplen Hmem Hbursts Htime Hleft Hbudget Hqueue Hgantt Hstop Harrived] Hexit Hadmit.
  unfold RR.admission in Hadmit.
  apply admit_range_nil in Hadmit as (Hq & -> & -> & Hlate); [|done].
  assert (Hpos : RR.plen s <> 0%nat).
  { intros Hzero. rewrite (proj2 (RR_loop_exit s)) in Hexit; done. }
  destruct (Hlate 0%nat) as (p & Hp & Hlt); [lia|].
  assert (Hin : p ∈ ps) by (apply Hmem; by eapply list_elem_of_lookup_2).
  destruct Hwithin as (HT & Hps & Hmax). rewrite Forall_forall in Hps.
  destruct (Hps p Hin) as [_ HpT].
  pose proof within_bursts as HB.
  assert (Hnext : Int64.add (RR.currentTime s) 1 = RR.currentTime s + 1).
  { unfold Int64.add. apply wrap_id, exact_in_range; lia. }
  split; simpl; rewrite ?Hnext; try done; try lia.
  - by rewrite <- Hq.
  - by rewrite <- Hq.
  - rewrite Hq, app_nil_r in Hleft. rewrite app_nil_r. lia.
Qed.

Lemma RR_exact_dispatch s mem plen currentProcess queue mem' :
  RR_exact ps T s mem ->
  RR.admission (RR.currentTime s) (RR.plen s) (RR.queue s) mem
  = Ok ((plen, currentProcess :: queue), mem') ->
  RR_exact ps T (RR.dispatch currentProcess plen queue s) mem'.
Proof.
  intros [Hplen Hmem Hbursts Htime Hleft Hbudget Hqueue Hgantt Hstop Harrived] Hadmit.
  pose proof (RR_admit_perm s mem plen _ mem' Hplen Hadmit) as [Hplen' Hperm].
  unfold RR.admission in Hadmit.
  pose proof (admit_range_subset _ _ _ _ _ _ _ _ Hplen Hadmit) as Hsub.
  apply admit_range_newcomers in Hadmit as (newcomers & Hq & Hnew); [|done].
  assert (Hperm' : take plen mem' ++ currentProcess :: queue
                   ≡ₚ currentProcess :: (take plen mem' ++ queue))
    by (by rewrite Permutation_middle).
  rewrite <- Hperm, Hperm' in Hbursts.
  apply Forall_cons in Hbursts as [[Hb0 Hb] Hrest].
  assert (Hsum : Zsum (BurstDuration <$> take (RR.plen s) mem ++ RR.queue s)
                 = BurstDuration currentProcess
                   + Zsum (BurstDuration <$> take plen mem' ++ queue)).
  { rewrite (Zsum_perm _ (BurstDuration <$> currentProcess :: (take plen mem' ++ queue)));
      [done|]. apply fmap_Permutation. by rewrite <- Hperm, Hperm'. }
  rewrite Hsum in Hleft, Hbudget.
  assert (Hrest0 : 0 <= Zsum (BurstDuration <$> take plen mem' ++ queue)).
  { apply Zsum_nonneg, Forall_fmap. eapply Forall_impl; [exact Hrest|]. by intros q [? _]. }
  (* the queue after the admission *)
  assert (Hqueue' : Forall (fun q => ArrivalTime q <= RR.currentTime s /\
                                      arrived_by ps (ProcessID q) (ArrivalTime q))
                      (currentProcess :: queue)).
  { rewrite Hq. apply Forall_app. split; [done|].
    eapply Forall_impl; [exact Hnew|]. intros q [Hqa Hqm]. split; [done|].
    exists q. split; [by apply Hmem|]. split; [done|lia]. }
  apply Forall_cons in Hqueue' as [[Hca (p0 & Hp0 & Hid0 & Harr0)] Hqueue'].
  (* the time executed *)
  destruct (RR_exec_split (BurstDuration currentProcess) Hb) as (Hexec & Hquant & Hrem & Hsplit).
  unfold RR.dispatch.
  set (e := if BurstDuration currentProcess <? quantum
            then BurstDuration currentProcess else quantum) in *.
  assert (He0 : 0 <= e).
  { unfold e, quantum. destruct (BurstDuration currentProcess <? 4); lia. }
  assert (Hnext : Int64.add (RR.currentTime s) e = RR.currentTime s + e).
  { unfold Int64.add. apply wrap_id, exact_in_range; lia. }
  assert (Hstart : Int64.sub (RR.currentTime s + e) e = RR.currentTime s).
  { rewrite <- Hnext. apply sub_add_cancel, exact_in_range; lia. }
  rewrite Hnext, Hstart.
  assert (Hts : arrived_by ps (ProcessID currentProcess) (RR.currentTime s)).
  { exists p0. split; [done|]. split; [done|lia]. }
  assert (Hmem' : forall p, p ∈ mem' -> p ∈ ps) by (intros p Hp; by apply Hmem, Hsub).
  destruct (0 <? _) eqn:Hmore; split; simpl; try done; try lia.
  - rewrite app_assoc. apply Forall_app. split; [done|]. constructor; [|done].
    simpl. split; [done|apply sub_in_range].
  - rewrite app_assoc, fmap_app, Zsum_app, Zsum_fmap_one. simpl. lia.
  - rewrite app_assoc, fmap_app, Zsum_app, Zsum_fmap_one. simpl. lia.
  - apply Forall_app. split.
    + eapply Forall_impl; [exact Hqueue'|]. intros q [Hqa Hqp]. split; [lia|done].
    + constructor; [|done]. simpl. split; [lia|].
      exists p0. split; [done|]. split; [done|lia].
  - apply sequential_snoc. simpl. split; [done|]. lia.
  - rewrite last_stop_snoc. simpl. lia.
  - apply Forall_app. split; [done|]. by constructor.
  - eapply Forall_impl; [exact Hqueue'|]. intros q [Hqa Hqp]. split; [lia|done].
  - apply sequential_snoc. simpl. split; [done|]. lia.
  - rewrite last_stop_snoc. simpl. lia.
  - apply Forall_app. split; [done|]. by constructor.
Qed.

End Exact.

Lemma RR_exact_init `{SliceSorter} ps T :
  Forall wf_process ps -> within T ps ->
  RR_exact ps T (RR.init (length ps)) (sortSlice RR.less ps).
Proof.
  intros Hwf (HT & Hps & Hmax). pose proof (sortSlice_perm RR.less ps) as Hperm.
  assert (Htake : take (length ps) (sortSlice RR.less ps) = sortSlice RR.less ps).
  { apply firstn_all2. by rewrite sortSlice_length. }
  assert (Hsum : Zsum (BurstDuration <$> sortSlice RR.less ps) = Zsum (BurstDuration <$> ps)).
  { apply Zsum_perm. by apply fmap_Permutation. }
  split; simpl; rewrite ?Htake, ?app_nil_r, ?Hsum; try done; try lia.
  - by rewrite sortSlice_length.
  - intros p. by rewrite Hperm.
  - rewrite Hperm. apply Forall_forall. intros p Hp.
    rewrite Forall_forall in Hps, Hwf.
    destruct (Hps p Hp) as [Hb _]. destruct (Hwf p Hp) as (_ & _ & Hr & _). done.
Qed.

Lemma RR_run_exact `{SliceSorter} fuel ps T s mem :
  Forall wf_process ps -> within T ps ->
  RR_run fuel ps = Ok (s, mem) ->
  RR_exact ps T s mem /\ RR.plen s = 0%nat /\ RR.queue s = [].
Proof.
  intros Hwf Hwithin Hrun. rewrite RR_run_unfold in Hrun.
  apply (RR_loop_running (RR_exact ps T)) in Hrun; try done.
  - intros. by eapply RR_exact_idle.
  - intros. by eapply RR_exact_dispatch.
  - by apply RR_exact_init.
Qed.

(** [RRSchedule] on an input that runs within 64 bits (no burst is negative;
    [T] bounds the arrival times, and [T] plus the bursts is a 64-bit
    value), when it returns: the intervals follow one another from time 0 on
    without overlapping, each starts no earlier than the arrival of an input
    process with its id, and the last one stops by [T] plus the sum of the
    bursts. *)
Theorem RR_timeline_sequential `{SliceSorter} (fuel : nat) (ps : list Process) (T : Z)
    (out : Output) (mem : list Process) :
  Forall wf_process ps -> within T ps ->
  RRSchedule fuel ps = Ok (out, mem) ->
  sequential 0 (outGantt out)
  /\ Forall (fun ts => arrived_by ps (PID ts) (Start ts)) (outGantt out)
  /\ last_stop 0 (outGantt out) <= T + Zsum (BurstDuration <$> ps).
Proof.
  intros Hwf Hwithin Hrun. apply RRSchedule_Ok in Hrun as (s & Hrun & ->).
  apply (RR_run_exact _ _ T) in Hrun as (Hexact & Hplen & Hqueue); [|done|done].
  destruct Hexact as [_ _ _ _ _ Hbudget _ Hgantt Hstop Harrived].
  rewrite Hplen, Hqueue in Hbudget. simpl in Hbudget.
  change (Zsum []) with 0 in Hbudget.
  split; [done|]. split; [done|]. simpl. lia.
Qed.

Lemma RR_timeline_sequential_witness :
  exists out mem,
    RRSchedule 10 [process 1 9 0; process 2 5 1] = Ok (out, mem) /\
    sequential 0 (outGantt out) /\
    Forall (fun ts => arrived_by [process 1 9 0; process 2 5 1] (PID ts) (Start ts))
      (outGantt out) /\
    last_stop 0 (outGantt out) <= 1 + Zsum [9; 5].
Proof.
  eexists _, _.
  assert (Hrun : RRSchedule 10 [process 1 9 0; process 2 5 1] = Ok (_, _))
    by (vm_compute; reflexivity).
  split; [exact Hrun|].
  refine (RR_timeline_sequential 10 _ 1 _ _ _ _ Hrun).
  - by apply wf_processb_spec.
  - split; [lia|]. split; [repeat constructor; simpl; lia|by vm_compute].
Defined.

(** ** The program *)

Lemma FCFS_fold_pids ps : forall i s,
  PID <$> FCFS.gantt (fold_indexed FCFS.step i ps s)
  = (PID <$> FCFS.gantt s) ++ (ProcessID <$> ps).
Proof.
  induction ps as [|p ps IH]; intros i s; simpl.
  - by rewrite app_nil_r.
  - rewrite IH. simpl. rewrite fmap_app. simpl. by rewrite <- app_assoc.
Qed.

Lemma Priority_step_pids i p s :
  PID <$> SJFPriority.gantt (SJFPriority.step i p s)
  = (PID <$> SJFPriority.gantt s) ++ [ProcessID p].
Proof.
  unfold SJFPriority.step.
  destruct (SJFPriority.serviceTime s <? ArrivalTime p); simpl; by rewrite fmap_app.
Qed.

Lemma Priority_fold_pids ps : forall i s,
  PID <$> SJFPriority.gantt (fold_indexed SJFPriority.step i ps s)
  = (PID <$> SJFPriority.gantt s) ++ (ProcessID <$> ps).
Proof.
  induction ps as [|p ps IH]; intros i s; simpl.
  - by rewrite app_nil_r.
  - by rewrite IH, Priority_step_pids, <- app_assoc.
Qed.

Lemma wide_pids gantt ps :
  PID <$> gantt ≡ₚ ProcessID <$> ps ->
  existsb (fun ts => wide (PID ts)) gantt = wide_ids ps.
Proof.
  intros Hperm. unfold wide_ids.
  assert (Hex : forall {A} (f : A -> Z) l,
            existsb (fun x => wide (f x)) l = existsb wide (f <$> l)).
  { intros A f l. induction l as [|x l IH]; simpl; [done|]. by rewrite IH. }
  rewrite (Hex _ PID gantt), (Hex _ ProcessID ps).
  apply eq_true_iff_eq. rewrite !existsb_exists.
  split; intros (x & Hx & Hw); exists x; split; try done;
    apply list_elem_of_In; apply list_elem_of_In in Hx.
  - by rewrite <- Hperm.
  - by rewrite Hperm.
Qed.

Lemma in_range_pids gantt ps :
  PID <$> gantt ≡ₚ ProcessID <$> ps -> Forall wf_process ps ->
  Forall (fun ts => Int64.in_range (PID ts)) gantt.
Proof.
  intros Hperm Hwf. change (Forall (Int64.in_range ∘ PID) gantt).
  apply Forall_fmap. rewrite Hperm. apply Forall_fmap.
  eapply Forall_impl; [exact Hwf|]. by intros p (? & _).
Qed.

(** A scheduler that returns, called as in [main]: its output calls panic
    when an id is wide. *)
Lemma call_returns `{Renderer} (schedule : Go Output) title ps out mem w :
  schedule ps = Ok (out, mem) ->
  PID <$> outGantt out ≡ₚ ProcessID <$> ps -> Forall wf_process ps ->
  exists w', printed w w' /\
    call schedule title ps w
    = ((if wide_ids ps then Panicked negative_repeat else Returned mem), w').
Proof.
  intros Hrun Hpids Hwf. unfold call. rewrite Hrun, IO_bind_unfold.
  destruct (output_spec title out w (in_range_pids _ _ Hpids Hwf)) as (w' & Hw' & ->).
  rewrite (wide_pids _ _ Hpids). exists w'. split; [done|]. by destruct (wide_ids ps).
Qed.

Lemma call_panics `{Renderer} (schedule : Go Output) title ps e w :
  schedule ps = Panic e ->
  call schedule title ps w = (Panicked (RuntimePanic e), w).
Proof. intros Hrun. unfold call. by rewrite Hrun. Qed.

Lemma FCFS_pids ps :
  exists out, FCFSSchedule ps = Ok (out, ps) /\ PID <$> outGantt out = ProcessID <$> ps.
Proof.
  rewrite FCFSSchedule_eq. eexists. split; [done|]. simpl. by rewrite FCFS_fold_pids.
Qed.

Lemma Priority_pids `{SliceSorter} ps :
  exists out,
    SJFPrioritySchedule ps = Ok (out, sortSlice SJFPriority.less ps) /\
    PID <$> outGantt out = ProcessID <$> sortSlice SJFPriority.less ps.
Proof.
  rewrite SJFPrioritySchedule_eq. eexists. split; [done|]. simpl.
  by rewrite Priority_fold_pids.
Qed.

Lemma SJF_pids `{SliceSorter} ps out mem :
  SJFSchedule ps = Ok (out, mem) ->
  PID <$> outGantt out = ProcessID <$> sortSlice SJF.less ps.
Proof.
  rewrite SJFSchedule_unfold.
  destruct (SJF.loop _ _ _) as [[s mem1]| |] eqn:Hloop; [|done|done].
  intros [= <- <-]. simpl. by rewrite (SJF_loop_pids _ _ _ _ _ Hloop).
Qed.

(** [RRSchedule] panics in its first admission pass when two or more
    processes have all arrived. *)
Lemma RR_all_arrived `{SliceSorter} fuel ps :
  (2 <= length ps)%nat -> Forall (fun p => ArrivalTime p <= 0) ps ->
  exists low high,
    RRSchedule (S fuel) ps = Panic (SliceBoundsOutOfRange low high).
Proof.
  intros Hlen Harrived. rewrite RRSchedule_unfold, RR_run_unfold, RR_loop_unfold.
  assert (Hexit : (RR.plen (RR.init (length ps)) =? 0)%nat
                  && bool_decide (RR.queue (RR.init (length ps)) = []) = false).
  { simpl. destruct (length ps); [lia|done]. }
  rewrite Hexit. simpl RR.currentTime. simpl RR.plen. simpl RR.queue.
  rewrite <- (sortSlice_length RR.less ps).
  destruct (admission_all_arrived_panics 0 [] (sortSlice RR.less ps))
    as (low & high & Hpanic).
  - by rewrite sortSlice_length.
  - by rewrite (sortSlice_perm RR.less ps).
  - rewrite Hpanic. eauto.
Qed.

Lemma IO_bind_inv {A B} (m : IO A) (k : A -> IO B) w b w' :
  (m ≫= k) w = (Returned b, w') ->
  exists a w1, m w = (Returned a, w1) /\ k a w1 = (Returned b, w').
Proof.
  rewrite IO_bind_unfold. destruct (m w) as [[a|v|code|] w1]; try done. eauto.
Qed.

Lemma call_inv `{Renderer} (schedule : Go Output) title ps mem w w' :
  call schedule title ps w = (Returned mem, w') ->
  exists out, schedule ps = Ok (out, mem) /\ output title out w = (Returned tt, w').
Proof.
  unfold call. destruct (schedule ps) as [[out mem1]| |]; [|done|done].
  intros (u & w1 & Hout & [= <- <-])%IO_bind_inv. destruct u. eauto.
Qed.

(** [main] up to the calls of the schedulers, when the file opens and every
    record gives a process. *)
Lemma main_loaded `{SliceSorter} `{Renderer} fuel (os_Open : FileSystem) prog path f
    rows ps w :
  os_Open path = inl f -> fileRecords f = Records rows -> Forall2 row_of rows ps ->
  main fuel os_Open [prog; path] w
  = defer (closeFn f)
      (processes ← call FCFSSchedule "First-come, first-serve" ps;
       processes ← call SJFSchedule "Shortest-job-first" processes;
       processes ← call SJFPrioritySchedule "Priority" processes;
       _ ← call (RRSchedule fuel) "Round-robin" processes;
       mret tt) w.
Proof.
  intros Hopen Hrows Hps. unfold main, openProcessingFile. simpl. rewrite Hopen, Hrows.
  unfold defer. rewrite !(IO_bind_unfold (loadProcesses (Records rows))).
  unfold loadProcesses.
  by rewrite (IO_bind_returned _ _ _ _ _ (load_rows_returns _ _ w Hps)).
Qed.

Lemma defer_panicked {A} f (body : IO A) v w w' :
  body w = (Panicked v, w') ->
  exists w'', defer (closeFn f) body w = (match fileClose f with
                                          | None => Panicked v
                                          | Some _ => Exited 1
                                          end, w'')
              /\ stdout w'' = stdout w'.
Proof.
  intros Hbody. unfold defer, closeFn. rewrite Hbody.
  destruct (fileClose f) as [err|]; eexists; by split.
Qed.

Lemma Forall2_row_of_wf rows ps : Forall2 row_of rows ps -> Forall wf_process ps.
Proof.
  induction 1 as [|row p rows ps Hp _ IH]; constructor; [|done]. by eapply row_of_wf.
Qed.

(** *** The program, stated *)

(** [main] does not complete on a file of two or more records whose arrival
    times are all 0 or less: it panics, in the first [outputGantt] when an id
    prints with ten characters or more, else in [SJFSchedule] when an id lies
    outside 1..N, else in the admission pass of [RRSchedule], after the
    reports of the three other schedulers. The deferred [closeFile] then
    runs: the process exits with status 1 if the file does not close, and
    with the panic otherwise. *)
Theorem main_all_arrived_panics `{SliceSorter} `{Renderer} (fuel : nat)
    (os_Open : FileSystem) (prog path : string) (f : File)
    (rows : list (list string)) (ps : list Process) :
  os_Open path = inl f -> fileRecords f = Records rows -> Forall2 row_of rows ps ->
  (2 <= length ps)%nat -> Z.of_nat (length ps) <= Int64.max_int ->
  Forall (fun p => ArrivalTime p <= 0) ps ->
  exists v w,
    run (S fuel) os_Open [prog; path] = (panic_answer f v, w) /\
    (wide_ids ps = true -> v = negative_repeat) /\
    (wide_ids ps = false -> ~ Forall (slot_ok (length ps)) ps ->
     exists i, v = RuntimePanic (IndexOutOfRange i (length ps))) /\
    (wide_ids ps = false -> Forall (slot_ok (length ps)) ps ->
     exists low high, v = RuntimePanic (SliceBoundsOutOfRange low high)).
Proof.
  intros Hopen Hrows Hps Hlen Hn Harrived.
  pose proof (Forall2_row_of_wf _ _ Hps) as Hwf.
  unfold run, panic_answer. rewrite (main_loaded _ _ _ _ _ _ _ _ Hopen Hrows Hps).
  set (w0 := mkWorld "" []).
  assert (Hbody : exists v w',
    (processes ← call FCFSSchedule "First-come, first-serve" ps;
     processes ← call SJFSchedule "Shortest-job-first" processes;
     processes ← call SJFPrioritySchedule "Priority" processes;
     _ ← call (RRSchedule (S fuel)) "Round-robin" processes;
     mret tt) w0 = (Panicked v, w') /\
    (wide_ids ps = true -> v = negative_repeat) /\
    (wide_ids ps = false -> ~ Forall (slot_ok (length ps)) ps ->
     exists i, v = RuntimePanic (IndexOutOfRange i (length ps))) /\
    (wide_ids ps = false -> Forall (slot_ok (length ps)) ps ->
     exists low high, v = RuntimePanic (SliceBoundsOutOfRange low high))).
  { destruct (FCFS_pids ps) as (o1 & Hrun1 & Hpids1).
    destruct (call_returns FCFSSchedule "First-come, first-serve" ps o1 ps w0 Hrun1)
      as (w1 & _ & Hcall1); [by rewrite Hpids1|done|].
    rewrite IO_bind_unfold, Hcall1.
    destruct (wide_ids ps) eqn:Hwide.
    { exists negative_repeat, w1. split; [done|]. split; [done|]. split; [done|done]. }
    destruct (decide (Forall (slot_ok (length ps)) ps)) as [Hslots|Hslots].
    - destruct (SJFSchedule_ok ps Hwf Hn) as (o2 & Hrun2 & _).
      { by apply Forall_forall. }
      destruct (call_returns SJFSchedule "Shortest-job-first" ps o2 ps w1 Hrun2)
        as (w2 & _ & Hcall2); [|done|].
      { rewrite (SJF_pids _ _ _ Hrun2). apply fmap_Permutation, sortSlice_perm. }
      rewrite IO_bind_unfold, Hcall2, Hwide.
      destruct (Priority_pids ps) as (o3 & Hrun3 & Hpids3).
      destruct (call_returns SJFPrioritySchedule "Priority" ps o3 _ w2 Hrun3)
        as (w3 & _ & Hcall3); [|done|].
      { rewrite Hpids3. apply fmap_Permutation, sortSlice_perm. }
      rewrite IO_bind_unfold, Hcall3, Hwide.
      destruct (RR_all_arrived fuel (sortSlice SJFPriority.less ps))
        as (low & high & Hrun4).
      { by rewrite sortSlice_length. }
      { by rewrite sortSlice_perm. }
      rewrite IO_bind_unfold, (call_panics _ _ _ _ _ Hrun4).
      eexists _, w3. split; [done|]. split; [done|]. split; [done|]. eauto.
    - destruct (SJFSchedule_panic ps Hwf Hn) as (i & Hrun2).
      { apply not_Forall_Exists in Hslots; [|intros p; apply _].
        apply Exists_exists in Hslots as (p & Hp & Hbad). eauto. }
      rewrite IO_bind_unfold, (call_panics _ _ _ _ _ Hrun2).
      eexists _, w1. split; [done|]. split; [done|]. split; [eauto|done]. }
  destruct Hbody as (v & w' & Hbody & Hv).
  destruct (defer_panicked f _ v w0 w' Hbody) as (w'' & Hdefer & _).
  exists v, w''. by split.
Qed.

Lemma main_all_arrived_panics_witness :
  exists v w,
    run (H := insertion_sorter) (H0 := blank_renderer) 1
      (one_file [["1"; "5"; "0"]; ["2"; "3"; "0"]]) ["scheduler"; "in.csv"]
    = (Panicked v, w) /\
    (exists low high, v = RuntimePanic (SliceBoundsOutOfRange low high)).
Proof.
  destruct (main_all_arrived_panics (H := insertion_sorter) (H0 := blank_renderer) 0
              (one_file [["1"; "5"; "0"]; ["2"; "3"; "0"]]) "scheduler" "in.csv"
              (mkFile (Records [["1"; "5"; "0"]; ["2"; "3"; "0"]]) None)
              [["1"; "5"; "0"]; ["2"; "3"; "0"]] [process 1 5 0; process 2 3 0])
    as (v & w & Hrun & _ & _ & Hv).
  - reflexivity.
  - reflexivity.
  - repeat constructor;
      (eexists _, _, _, _; split; [reflexivity|]);
      repeat split; try reflexivity; by apply in_rangeb_spec.
  - simpl. lia.
  - done.
  - repeat constructor; simpl; lia.
  - exists v, w. split; [exact Hrun|]. apply Hv; [reflexivity|].
    repeat constructor; simpl; lia.
Defined.

(** The four schedulers of [main] work on one array. When [main] returns,
    [FCFSSchedule] and [SJFSchedule] ran on the processes in the order of the
    file, and [RRSchedule] ran on the slice as [SJFPrioritySchedule] sorted
    it in place, not in the order of the file; the standard output holds the
    four reports in that order, and the file closed. *)
Theorem main_shares_the_array `{SliceSorter} `{Renderer} (fuel : nat)
    (os_Open : FileSystem) (prog path : string) (f : File)
    (rows : list (list string)) (ps : list Process) (w : World) :
  os_Open path = inl f -> fileRecords f = Records rows -> Forall2 row_of rows ps ->
  run fuel os_Open [prog; path] = (Returned tt, w) ->
  exists o1 o2 o3 o4 mem,
    FCFSSchedule ps = Ok (o1, ps) /\
    SJFSchedule ps = Ok (o2, ps) /\
    SJFPrioritySchedule ps = Ok (o3, sortSlice SJFPriority.less ps) /\
    RRSchedule fuel (sortSlice SJFPriority.less ps) = Ok (o4, mem) /\
    reports o1 o2 o3 o4 (mkWorld "" []) = (Returned tt, w) /\
    fileClose f = None.
Proof.
  intros Hopen Hrows Hps.
  unfold run. rewrite (main_loaded _ _ _ _ _ _ _ _ Hopen Hrows Hps).
  unfold defer.
  destruct ((call FCFSSchedule "First-come, first-serve" ps ≫= _) _)
    as [[[]|v|code|] w1] eqn:Hbody; try done.
  2:{ rewrite IO_bind_unfold. unfold closeFn.
      destruct (fileClose f) as [err|]; done. }
  unfold closeFn. destruct (fileClose f) as [err|] eqn:Hclose; [done|].
  intros [= <-].
  apply IO_bind_inv in Hbody as (ps1 & w2 & Hcall1 & Hbody).
  apply IO_bind_inv in Hbody as (ps2 & w3 & Hcall2 & Hbody).
  apply IO_bind_inv in Hbody as (ps3 & w4 & Hcall3 & Hbody).
  apply IO_bind_inv in Hbody as (ps4 & w5 & Hcall4 & [= <-]).
  apply call_inv in Hcall1 as (o1 & Hrun1 & Hout1).
  apply call_inv in Hcall2 as (o2 & Hrun2 & Hout2).
  apply call_inv in Hcall3 as (o3 & Hrun3 & Hout3).
  apply call_inv in Hcall4 as (o4 & Hrun4 & Hout4).
  assert (ps1 = ps) as -> by (rewrite FCFSSchedule_eq in Hrun1; congruence).
  assert (ps2 = ps) as ->.
  { destruct (SJFSchedule_frame ps) as [[out Hout]|[e He]]; congruence. }
  assert (ps3 = sortSlice SJFPriority.less ps) as ->.
  { rewrite SJFPrioritySchedule_eq in Hrun3. cbv zeta in Hrun3. congruence. }
  exists o1, o2, o3, o4, ps4. repeat (split; [done|]). split; [|done].
  unfold reports.
  rewrite (IO_bind_returned _ _ _ _ _ Hout1), (IO_bind_returned _ _ _ _ _ Hout2).
  by rewrite (IO_bind_returned _ _ _ _ _ Hout3).
Qed.

Lemma main_shares_the_array_witness :
  exists w o1 o2 o3 o4 mem,
    run (H := insertion_sorter) (H0 := blank_renderer) 40
      (one_file (record_of <$> tied_arrivals)) ["scheduler"; "in.csv"]
    = (Returned tt, w) /\
    RRSchedule (H := insertion_sorter) 40
      (sortSlice (SliceSorter := insertion_sorter) SJFPriority.less tied_arrivals)
    = Ok (o4, mem) /\
    reports (H := blank_renderer) o1 o2 o3 o4 (mkWorld "" []) = (Returned tt, w) /\
    PID <$> outGantt o4 = [1; 3; 2; 2; 4] /\
    fmap PID <$> (outGantt <$> output_of
                    (RRSchedule (H := insertion_sorter) 40 tied_arrivals))
    = Some [1; 2; 2; 3; 4].
Proof.
  eexists.
  assert (Hrun : run (H := insertion_sorter) (H0 := blank_renderer) 40
            (one_file (record_of <$> tied_arrivals)) ["scheduler"; "in.csv"]
            = (Returned tt, _))
    by (vm_compute; reflexivity).
  assert (Hrows : Forall2 row_of (record_of <$> tied_arrivals) tied_arrivals).
  { by apply records_of_rows, wf_processb_spec. }
  destruct (main_shares_the_array (H := insertion_sorter) (H0 := blank_renderer) 40%nat
              (one_file (record_of <$> tied_arrivals)) "scheduler" "in.csv"
              (mkFile (Records (record_of <$> tied_arrivals)) None)
              (record_of <$> tied_arrivals) tied_arrivals _ eq_refl eq_refl Hrows Hrun)
    as (o1 & o2 & o3 & o4 & mem & _ & _ & _ & Hrr & Hreports & _).
  exists o1, o2, o3, o4, mem. split; [exact Hrun|]. split; [exact Hrr|].
  split; [exact Hreports|]. split; [|by vm_compute].
  assert (Hrr' : output_of (RRSchedule (H := insertion_sorter) 40
            (sortSlice (SliceSorter := insertion_sorter) SJFPriority.less tied_arrivals))
          = Some o4) by (by rewrite Hrr).
  vm_compute in Hrr'. injection Hrr' as <-. reflexivity.
Defined.

(** What stops [main] before any scheduler runs. An error of
    [openProcessingFile] ends the process with status 1, the error alone on
    the standard error; it is [ErrInvalidArgs], as [errors.Is] sees it,
    exactly when the number of arguments is not 2 (an error of [os.Open] is
    not wrapped). So does an error of the CSV reader, wrapped. When
    [loadProcesses] exits on a field, [main] exits with it and the deferred
    [closeFile] does not run; when it panics on a short record, [closeFile]
    runs before the panic goes on. Nothing was written to the standard
    output. *)
Theorem main_fatal_errors `{SliceSorter} `{Renderer} (fuel : nat) (os_Open : FileSystem) :
  (forall args err,
     openProcessingFile os_Open args = inr err ->
     run fuel os_Open args = (Exited 1, only_error err) /\
     (is_invalid_args err = true <-> length args <> 2%nat))
  /\ (forall prog path f err,
        os_Open path = inl f -> fileRecords f = ReadError err ->
        run fuel os_Open [prog; path]
        = (Exited 1, only_error (Errorf true err "reading CSV")))
  /\ (forall prog path f rows,
        os_Open path = inl f -> fileRecords f = Records rows ->
        match loadProcesses (Records rows) (mkWorld "" []) with
        | (Exited code, w) => run fuel os_Open [prog; path] = (Exited code, w)
        | (Panicked v, w) =>
            exists w', run fuel os_Open [prog; path] = (panic_answer f v, w') /\
                       stdout w' = ""
        | _ => True
        end).
Proof.
  split; [|split].
  - intros args err Hopen. unfold run, main. rewrite Hopen. split; [done|].
    unfold openProcessingFile in Hopen.
    destruct (Nat.eqb_spec (length args) 2) as [Hlen|Hlen]; simpl in Hopen.
    + destruct (os_Open _) as [f|err']; [done|]. injection Hopen as <-. simpl.
      split; [done|]. by intros [].
    + injection Hopen as <-. simpl. done.
  - intros prog path f err Hopen Hread. unfold run, main, openProcessingFile. simpl.
    rewrite Hopen. unfold defer. rewrite Hread. done.
  - intros prog path f rows Hopen Hrows.
    destruct (loadProcesses (Records rows) (mkWorld "" [])) as [[a|v|code|] w] eqn:Hload;
      try done.
    + unfold run, main, openProcessingFile. simpl. rewrite Hopen, Hrows.
      destruct (defer_panicked f
                  (loaded ← loadProcesses (Records rows);
                   match loaded with
                   | inl processes =>
                       processes ← call FCFSSchedule "First-come, first-serve" processes;
                       processes ← call SJFSchedule "Shortest-job-first" processes;
                       processes ← call SJFPrioritySchedule "Priority" processes;
                       _ ← call (RRSchedule fuel) "Round-robin" processes;
                       mret tt
                   | inr err => log_Fatal err
                   end) v (mkWorld "" []) w) as (w' & Hdefer & Hout).
      { by rewrite (IO_bind_panicked _ _ _ _ _ Hload). }
      exists w'. split; [exact Hdefer|].
      rewrite Hout.
      pose proof (load_rows_outcome rows (mkWorld "" [])) as Hcase.
      unfold loadProcesses in Hload. rewrite Hload in Hcase.
      by destruct Hcase as (row & _ & _ & _ & ->).
    + unfold run, main, openProcessingFile. simpl. rewrite Hopen, Hrows.
      unfold defer. by rewrite (IO_bind_exited _ _ _ _ _ Hload).
Qed.

Lemma main_fatal_errors_witness :
  run (H := insertion_sorter) (H0 := blank_renderer) 0 (one_file []) ["scheduler"]
  = (Exited 1,
     only_error (Errorf true ErrInvalidArgs "must give a scheduling file to process")) /\
  run (H := insertion_sorter) (H0 := blank_renderer) 0 (one_file [])
    ["scheduler"; "out.csv"]
  = (Exited 1,
     only_error (Errorf false (LibError "open: no such file or directory")
                   "error opening scheduling file")).
Proof.
  split.
  - apply (proj1 (main_fatal_errors (H := insertion_sorter) (H0 := blank_renderer)
                    0 (one_file []))). reflexivity.
  - apply (proj1 (main_fatal_errors (H := insertion_sorter) (H0 := blank_renderer)
                    0 (one_file []))). reflexivity.
Defined.
